(** * Primula UI primitives: ripple emitter, accessibility preferences,
      global keyboard shortcuts.

    A shallow embedding of [src/lib/utils.ts], [src/components/ui/Button.tsx]
    and [src/components/ui/Fab.tsx].

    Conventions of the embedding.
    - A JavaScript string is a [string]; a text with characters outside
      ASCII is the bytes of its UTF-8 form, in which the plus sign and the
      ASCII letters stand for themselves. [JsString.toLowerCase] folds the
      letters [A]..[Z] and leaves every other byte as it is, which is
      what [String.prototype.toLowerCase] does to the texts of the
      scenarios; what is stated of letter case in general is stated for
      every case mapping (module [AnyCase]).
    - A JavaScript number that measures pixels is a binary64 [float], and
      the arithmetic of the code is that of [float]; the CSS text
      [`${size}px`] is kept as the number it prints. A duration, which the
      code only compares and passes on, is the rational it denotes.
    - The DOM subtree of a host control is a rose tree of elements with
      identities; the handlers are state transformers over an explicit
      page state (tree, identity counter, pending timers).
    - A statement that may raise is a [Completion]: [Normal] or [Throw]. *)

From Stdlib Require Import List String Ascii Bool Arith Lia.
From Stdlib Require Import ZArith QArith Qminmax Qabs Qpower Lqa Permutation.
From Stdlib Require Import Floats.
Import ListNotations.

Local Open Scope string_scope.
Local Open Scope list_scope.

(* ================================================================= *)
(** ** JavaScript strings *)

Module JsString.

(** [c] is one of [A]..[Z]. *)
Definition isUpper (c : ascii) : bool :=
  (65 <=? nat_of_ascii c)%nat && (nat_of_ascii c <=? 90)%nat.

Definition lowerChar (c : ascii) : ascii :=
  if isUpper c then ascii_of_nat (nat_of_ascii c + 32) else c.

(** [String.prototype.toLowerCase]. *)
Fixpoint toLowerCase (s : string) : string :=
  match s with
  | EmptyString => EmptyString
  | String c r => String (lowerChar c) (toLowerCase r)
  end.

(** [String.prototype.split(sep)] for a separator of one code unit:
    always at least one piece, the pieces between two separators may be
    empty. *)
Fixpoint split (sep : ascii) (s : string) : list string :=
  match s with
  | EmptyString => [EmptyString]
  | String c r =>
      if Ascii.eqb c sep then EmptyString :: split sep r
      else match split sep r with
           | [] => [String c EmptyString]
           | t :: ts => String c t :: ts
           end
  end.

(** [Array.prototype.join(sep)] on an array of strings. *)
Fixpoint join (sep : string) (l : list string) : string :=
  match l with
  | [] => EmptyString
  | [s] => s
  | s :: r => s ++ sep ++ join sep r
  end.

(** [Array.prototype.includes] on an array of strings. *)
Definition includes (l : list string) (s : string) : bool :=
  existsb (String.eqb s) l.

(** [includes] with an argument that may be [undefined]: no string is
    [undefined]. *)
Definition includesOpt (l : list string) (o : option string) : bool :=
  match o with
  | Some s => includes l s
  | None => false
  end.

(** Truthiness of a string: every string but the empty one. *)
Definition truthy (s : string) : bool :=
  match s with
  | EmptyString => false
  | String _ _ => true
  end.

(** The code unit [sep] does not occur in [s]. *)
Fixpoint free (sep : ascii) (s : string) : bool :=
  match s with
  | EmptyString => true
  | String c r => negb (Ascii.eqb c sep) && free sep r
  end.

End JsString.

(* ================================================================= *)
(** ** [cn]: conditional class concatenation (utils.ts) *)

(** An argument of [cn]: [string | undefined | false]. *)
Inductive ClassValue : Type :=
| CString (s : string)
| CUndefined
| CFalse.

(** [Boolean(v)]. *)
Definition Boolean (v : ClassValue) : bool :=
  match v with
  | CString s => JsString.truthy s
  | CUndefined => false
  | CFalse => false
  end.

(** How [join] prints an element that passed the filter. *)
Definition classText (v : ClassValue) : string :=
  match v with
  | CString s => s
  | CUndefined => EmptyString
  | CFalse => "false"
  end.

(** [classes.filter(Boolean).join(' ')]. *)
Definition cn (classes : list ClassValue) : string :=
  JsString.join " " (map classText (filter Boolean classes)).

(** The truthy string arguments of a call, in the order they were given:
    the reading of the result that the documentation gives. *)
Fixpoint truthyStrings (classes : list ClassValue) : list string :=
  match classes with
  | [] => []
  | CString (String c r) :: rest => String c r :: truthyStrings rest
  | _ :: rest => truthyStrings rest
  end.

(** An argument that contributes nothing. *)
Definition falsy (v : ClassValue) : Prop :=
  v = CUndefined \/ v = CFalse \/ v = CString EmptyString.

(* ================================================================= *)
(** ** Completions *)

Inductive JsError : Type :=
| TypeError
| ReferenceError.

Inductive Completion (A : Type) : Type :=
| Normal (a : A)
| Throw (e : JsError).

Arguments Normal {A} a.
Arguments Throw {A} e.

Definition bind {A B} (c : Completion A) (k : A -> Completion B) : Completion B :=
  match c with
  | Normal a => k a
  | Throw e => Throw e
  end.

Notation "x <- c ;; k" := (bind c (fun x => k))
  (at level 61, c at next level, right associativity).

(* ================================================================= *)
(** ** Accessibility preferences (utils.ts) *)

(** What [window.matchMedia(q)] answers: the [matches] flag of the
    [MediaQueryList] for the query text [q]. *)
Record Window : Type := mkWindow {
  matchMedia : string -> bool
}.

(** The global scope: [None] when [typeof window === 'undefined']. *)
Definition Global := option Window.

Definition prefersReducedMotion (g : Global) : Completion bool :=
  match g with
  | None => Normal false
  | Some w => Normal (matchMedia w "(prefers-reduced-motion: reduce)")
  end.

Definition prefersHighContrast (g : Global) : Completion bool :=
  match g with
  | None => Normal false
  | Some w =>
      Normal (matchMedia w "(prefers-contrast: more)"
              || matchMedia w "(prefers-contrast: high)")
  end.

(* ================================================================= *)
(** ** Numbers *)

(** A JavaScript number is a binary64 floating point number of IEEE 754,
    and so is a [float] of Rocq: the operators [-], [*] and [/] of the
    code are the operations of the kernel on [float], which give the
    exact result rounded to the nearest number, to the one with the even
    mantissa of two that are as near. What a finite number is worth is a
    rational, read off the mantissa and the exponent that
    [Prim2SF] gives. *)

(** [2^e]. *)
Definition pow2 (e : Z) : Q := 2 ^ e.

(** [m * 2^e]. *)
Definition Fval (m e : Z) : Q := inject_Z m * pow2 e.

Definition signed (s : bool) (v : Q) : Q := if s then - v else v.

(** The value of a number that is neither infinite nor NaN. *)
Definition SF2Q (x : spec_float) : Q :=
  match x with
  | S754_finite s m e => signed s (Fval (Zpos m) e)
  | _ => 0
  end.

Definition SFabs_value (x : spec_float) : Q :=
  match x with
  | S754_finite _ m e => Fval (Zpos m) e
  | _ => 0
  end.

Definition SFsign (x : spec_float) : bool :=
  match x with
  | S754_finite s _ _ => s
  | S754_zero s => s
  | S754_infinity s => s
  | S754_nan => false
  end.

Definition SFfinite (x : spec_float) : bool :=
  match x with
  | S754_finite _ _ _ | S754_zero _ => true
  | _ => false
  end.

Module Number.

(** [Number.isFinite(f)]. *)
Definition isFinite (f : float) : bool := SFfinite (Prim2SF f).

(** The rational that a finite number is. *)
Definition toQ (f : float) : Q := SF2Q (Prim2SF f).

(** [Math.max(a, b)]: NaN when one of the two is, and [+0] is above
    [-0]. *)
Definition max (a b : float) : float :=
  if is_nan a || is_nan b then nan
  else if (a <? b)%float then b
  else if (b <? a)%float then a
  else if get_sign a then b else a.

End Number.

(** [2^-52], the distance from 1 to the next number. *)
Definition u52 : Q := 1 # 4503599627370496.

(** [result] is [exact] up to the rounding of one operation: the error
    is at most the part [2^-49] of the exact value, or [2^-1071] for a
    value next to zero. Rounding to the nearest number stays within
    [2^-53] and [2^-1075]; the wider bound is what the proofs below
    need. *)
Definition rounded (exact result : Q) : Prop :=
  Qabs (result - exact) <= Qabs exact * pow2 (-49) + pow2 (-1071).

(* ================================================================= *)
(** ** A DOM-like tree *)

(** The inline style properties the ripple code writes. *)
Module CSSStyle.
Record t : Type := mk {
  width : option float;        (* [`${size}px`] *)
  height : option float;
  left : option float;
  top : option float;
  backgroundColor : option string;
  borderRadius : option string
}.
Definition empty : t := mk None None None None None None.
End CSSStyle.

(** [getBoundingClientRect()]. *)
Module DOMRect.
Record t : Type := mk {
  left : float;
  top : float;
  width : float;
  height : float
}.
End DOMRect.

(** An element: identity, tag, class list, inline style, children. The
    induction principle that reaches the children is [Node_ind] below. *)
#[local] Unset Elimination Schemes.
Inductive Node : Type :=
| Element (nodeId : nat) (tagName : string) (classList : list string)
          (style : CSSStyle.t) (childNodes : list Node).
#[local] Set Elimination Schemes.

(** Induction on an element with the property known of all children. *)
Fixpoint Node_ind (P : Node -> Prop)
         (step : forall i t c s kids, Forall P kids -> P (Element i t c s kids))
         (n : Node) : P n :=
  match n with
  | Element i t c s kids =>
      step i t c s kids
           ((fix all (l : list Node) : Forall P l :=
               match l with
               | [] => Forall_nil P
               | k :: r => Forall_cons k (Node_ind P step k) (all r)
               end) kids)
  end.

Definition nodeId (n : Node) : nat :=
  match n with Element i _ _ _ _ => i end.
Definition classList (n : Node) : list string :=
  match n with Element _ _ c _ _ => c end.
Definition style (n : Node) : CSSStyle.t :=
  match n with Element _ _ _ s _ => s end.
Definition childNodes (n : Node) : list Node :=
  match n with Element _ _ _ _ k => k end.

(** [n.classList.contains(cls)]; also what the selector [.cls] tests. *)
Definition hasClass (cls : string) (n : Node) : bool :=
  JsString.includes (classList n) cls.

(** A reference to a descendant: the child indices that lead to it. *)
Definition NodeRef := list nat.

(** The same reference, seen from a list of siblings that got one more
    element in front. *)
Definition nextSibling (p : NodeRef) : NodeRef :=
  match p with
  | [] => []
  | j :: q => S j :: q
  end.

(** [n.querySelector('.cls')]: the first descendant of [n], in document
    order, that carries the class; [None] for [null]. *)
Fixpoint querySelector (cls : string) (n : Node) : option NodeRef :=
  match n with
  | Element _ _ _ _ kids =>
      (fix scan (l : list Node) : option NodeRef :=
         match l with
         | [] => None
         | k :: r =>
             if hasClass cls k then Some [0%nat]
             else match querySelector cls k with
                  | Some p => Some (0%nat :: p)
                  | None => option_map nextSibling (scan r)
                  end
         end) kids
  end.

(** The scan of [querySelector] over a list of children, by name. *)
Fixpoint scanChildren (cls : string) (l : list Node) : option NodeRef :=
  match l with
  | [] => None
  | k :: r =>
      if hasClass cls k then Some [0%nat]
      else match querySelector cls k with
           | Some p => Some (0%nat :: p)
           | None => option_map nextSibling (scanChildren cls r)
           end
  end.

(** Dereference. *)
Fixpoint nodeAt (p : NodeRef) (n : Node) : option Node :=
  match p with
  | [] => Some n
  | i :: q =>
      match nth_error (childNodes n) i with
      | Some k => nodeAt q k
      | None => None
      end
  end.

Fixpoint updateNth {A} (i : nat) (f : A -> A) (l : list A) : list A :=
  match l, i with
  | [], _ => []
  | x :: r, O => f x :: r
  | x :: r, S j => x :: updateNth j f r
  end.

(** Mutate the element a reference points to. *)
Fixpoint updateAt (p : NodeRef) (f : Node -> Node) (n : Node) : Node :=
  match p with
  | [] => f n
  | i :: q =>
      match n with
      | Element id t c s kids => Element id t c s (updateNth i (updateAt q f) kids)
      end
  end.

(** [parent.appendChild(child)], on the parent itself. *)
Definition appendChild (child : Node) (parent : Node) : Node :=
  match parent with
  | Element id t c s kids => Element id t c s (kids ++ [child])
  end.

(** [node.remove()] for the node of identity [id]: it leaves the tree
    below [n]; nothing happens when it is not there. *)
Fixpoint removeNode (id : nat) (n : Node) : Node :=
  match n with
  | Element i t c s kids =>
      Element i t c s
        ((fix prune (l : list Node) : list Node :=
            match l with
            | [] => []
            | k :: r =>
                if (nodeId k =? id)%nat then prune r
                else removeNode id k :: prune r
            end) kids)
  end.

(** [n.querySelectorAll('.cls').forEach(x => x.remove())]. *)
Fixpoint removeAllByClass (cls : string) (n : Node) : Node :=
  match n with
  | Element i t c s kids =>
      Element i t c s
        ((fix prune (l : list Node) : list Node :=
            match l with
            | [] => []
            | k :: r =>
                if hasClass cls k then prune r
                else removeAllByClass cls k :: prune r
            end) kids)
  end.

(** The loops of [removeNode] and [removeAllByClass] over a list of
    children, by name. *)
Fixpoint removeFromChildren (id : nat) (l : list Node) : list Node :=
  match l with
  | [] => []
  | k :: r =>
      if (nodeId k =? id)%nat then removeFromChildren id r
      else removeNode id k :: removeFromChildren id r
  end.

Fixpoint removeClassFromChildren (cls : string) (l : list Node) : list Node :=
  match l with
  | [] => []
  | k :: r =>
      if hasClass cls k then removeClassFromChildren cls r
      else removeAllByClass cls k :: removeClassFromChildren cls r
  end.

(** Dereference and mutation, from a list of children. *)
Definition nodeAtChildren (p : NodeRef) (l : list Node) : option Node :=
  match p with
  | [] => None
  | i :: q =>
      match nth_error l i with
      | Some k => nodeAt q k
      | None => None
      end
  end.

Definition updateChildren (p : NodeRef) (f : Node -> Node) (l : list Node) : list Node :=
  match p with
  | [] => l
  | i :: q => updateNth i (updateAt q f) l
  end.

(** Number of elements of a subtree, the root included. *)
Fixpoint nodeCount (n : Node) : nat :=
  match n with
  | Element _ _ _ _ kids => S (list_sum (map nodeCount kids))
  end.

(** Number of elements of a subtree that carry the class. *)
Fixpoint countClass (cls : string) (n : Node) : nat :=
  match n with
  | Element _ _ _ _ kids =>
      ((if hasClass cls n then 1 else 0) + list_sum (map (countClass cls) kids))%nat
  end.

(** Number of elements that carry the class among the descendants. *)
Definition countClassBelow (cls : string) (n : Node) : nat :=
  list_sum (map (countClass cls) (childNodes n)).

(** The identities that occur in a subtree. *)
Fixpoint nodeIds (n : Node) : list nat :=
  match n with
  | Element i _ _ _ kids => i :: flat_map nodeIds kids
  end.

(** What a pending [setTimeout] callback will do. The only callbacks of
    this code are [() => ripple.remove()]. *)
Record Timer : Type := mkTimer {
  timerDelay : Q;
  timerRemoves : nat
}.

(** The state a click handler works on: the host button with its layout,
    the identities handed out by [document.createElement], the pending
    timers, and how often the consumer's [onClick] ran. *)
Record Page : Type := mkPage {
  button : Node;
  rect : DOMRect.t;
  computedBorderRadius : string;
  nextId : nat;
  timers : list Timer;
  userClicks : nat
}.

Definition withButton (b : Node) (d : Page) : Page :=
  mkPage b (rect d) (computedBorderRadius d) (nextId d) (timers d) (userClicks d).

(** [document.createElement(tag)]: a detached element of a new identity. *)
Definition createElement (tag : string) (d : Page) : Node * Page :=
  (Element (nextId d) tag [] CSSStyle.empty [],
   mkPage (button d) (rect d) (computedBorderRadius d) (S (nextId d))
          (timers d) (userClicks d)).

(** [setTimeout(() => node.remove(), delay)]. *)
Definition setTimeout (node : Node) (delay : Q) (d : Page) : Page :=
  mkPage (button d) (rect d) (computedBorderRadius d) (nextId d)
         (timers d ++ [mkTimer delay (nodeId node)]) (userClicks d).

(** The callback of a timer runs. *)
Definition fireTimer (t : Timer) (d : Page) : Completion Page :=
  Normal (withButton (removeNode (timerRemoves t) (button d)) d).

(** The consumer's [onClick] runs. *)
Definition callUserOnClick (d : Page) : Page :=
  mkPage (button d) (rect d) (computedBorderRadius d) (nextId d)
         (timers d) (S (userClicks d)).

(** A pointer activation: [clientX], [clientY]; [currentTarget] is the
    button of the page. *)
Record MouseEvent : Type := mkMouseEvent {
  clientX : float;
  clientY : float
}.

(** [container?.appendChild(child)]. *)
Definition appendChildOpt (container : option NodeRef) (child : Node) (d : Page) : Page :=
  match container with
  | Some p => withButton (updateAt p (appendChild child) (button d)) d
  | None => d
  end.

Definition setClassName (cls : list string) (n : Node) : Node :=
  match n with Element i t _ s k => Element i t cls s k end.

Definition setStyle (s : CSSStyle.t) (n : Node) : Node :=
  match n with Element i t c _ k => Element i t c s k end.

Definition setWidth (q : float) (n : Node) : Node :=
  let s := style n in
  setStyle (CSSStyle.mk (Some q) (CSSStyle.height s) (CSSStyle.left s) (CSSStyle.top s)
              (CSSStyle.backgroundColor s) (CSSStyle.borderRadius s)) n.
Definition setHeight (q : float) (n : Node) : Node :=
  let s := style n in
  setStyle (CSSStyle.mk (CSSStyle.width s) (Some q) (CSSStyle.left s) (CSSStyle.top s)
              (CSSStyle.backgroundColor s) (CSSStyle.borderRadius s)) n.
Definition setLeft (q : float) (n : Node) : Node :=
  let s := style n in
  setStyle (CSSStyle.mk (CSSStyle.width s) (CSSStyle.height s) (Some q) (CSSStyle.top s)
              (CSSStyle.backgroundColor s) (CSSStyle.borderRadius s)) n.
Definition setTop (q : float) (n : Node) : Node :=
  let s := style n in
  setStyle (CSSStyle.mk (CSSStyle.width s) (CSSStyle.height s) (CSSStyle.left s) (Some q)
              (CSSStyle.backgroundColor s) (CSSStyle.borderRadius s)) n.
(** [node.style.backgroundColor = v]: the style keeps the text of the
    assignment. What the style object of a browser makes of it (a text
    that is no color is dropped, a color is read back in its serialized
    form) is not modelled, and no statement rests on the text kept. *)
Definition setBackgroundColor (v : string) (n : Node) : Node :=
  let s := style n in
  setStyle (CSSStyle.mk (CSSStyle.width s) (CSSStyle.height s) (CSSStyle.left s) (CSSStyle.top s)
              (Some v) (CSSStyle.borderRadius s)) n.
Definition setBorderRadius (v : string) (n : Node) : Node :=
  let s := style n in
  setStyle (CSSStyle.mk (CSSStyle.width s) (CSSStyle.height s) (CSSStyle.left s) (CSSStyle.top s)
              (CSSStyle.backgroundColor s) (Some v)) n.

(** Truthiness of [string | undefined]. *)
Definition truthyOpt (o : option string) : bool :=
  match o with
  | Some s => JsString.truthy s
  | None => false
  end.

(* ================================================================= *)
(** ** The ripple emitter of utils.ts *)

Module Utils.

(** [createRippleEffect(event)]. A pointer event exists in a browser
    only, so the window is there. *)
Definition createRippleEffect (w : Window) (event : MouseEvent) (d : Page)
  : Completion Page :=
  reduced <- prefersReducedMotion (Some w) ;;
  if reduced : bool then Normal d
  else
    let '(ripple, d) := createElement "span" d in
    let rect := rect d in
    let size := Number.max (DOMRect.width rect) (DOMRect.height rect) in
    let x := (clientX event - DOMRect.left rect - size / 2)%float in
    let y := (clientY event - DOMRect.top rect - size / 2)%float in
    let ripple := setWidth size ripple in
    let ripple := setHeight size ripple in
    let ripple := setLeft x ripple in
    let ripple := setTop y ripple in
    let ripple := setClassName ["ripple-effect"] ripple in
    let d := appendChildOpt (querySelector "ripple-container" (button d)) ripple d in
    Normal (setTimeout ripple 600 d).

End Utils.

(* ================================================================= *)
(** ** The clear-then-insert ripple emitter (the other text of utils.ts) *)

Module UtilsClearing.

Definition createRippleEffect (w : Window) (event : MouseEvent) (d : Page)
  : Completion Page :=
  reduced <- prefersReducedMotion (Some w) ;;
  if reduced : bool then Normal d
  else
    (* the ripple container, made when there is none *)
    let '(rippleContainer, d) :=
      match querySelector "ripple-container" (button d) with
      | Some p => (p, d)
      | None =>
          let '(c, d) := createElement "span" d in
          let c := setClassName ["ripple-container"] c in
          ([List.length (childNodes (button d))],
           withButton (appendChild c (button d)) d)
      end in
    (* the ripples that are still there go *)
    let d := withButton
               (updateAt rippleContainer (removeAllByClass "ripple-effect") (button d)) d in
    let '(ripple, d) := createElement "span" d in
    let rect := rect d in
    let isRounded :=
      hasClass "rounded-full" (button d)
      || String.eqb (computedBorderRadius d) "50%" in
    let size := (Number.max (DOMRect.width rect) (DOMRect.height rect) * 2)%float in
    let x := (clientX event - DOMRect.left rect - size / 2)%float in
    let y := (clientY event - DOMRect.top rect - size / 2)%float in
    let ripple := setWidth size ripple in
    let ripple := setHeight size ripple in
    let ripple := setLeft x ripple in
    let ripple := setTop y ripple in
    let ripple :=
      if isRounded then setBorderRadius "50%" ripple
      else
        let borderRadius := computedBorderRadius d in
        if JsString.truthy borderRadius && negb (String.eqb borderRadius "0px")
        then setBorderRadius borderRadius ripple
        else ripple in
    let ripple := setClassName ["ripple-effect"] ripple in
    let d := withButton (updateAt rippleContainer (appendChild ripple) (button d)) d in
    Normal (setTimeout ripple 600 d).

End UtilsClearing.

(* ================================================================= *)
(** ** Key events and the shortcut text shared by Button.tsx and Fab.tsx *)

Module KeyboardEvent.

(** [e.target]: [tagName] is [undefined] for a target that is not an
    element (the document, the window). *)
Record Target : Type := mkTarget {
  tagName : option string
}.

Record t : Type := mk {
  key : string;
  ctrlKey : bool;
  altKey : bool;
  shiftKey : bool;
  metaKey : bool;
  target : option Target
}.

End KeyboardEvent.

(** What a key handler does to the outside: [e.preventDefault()] and
    [element.click()] on the element of the given identity. *)
Inductive Effect : Type :=
| PreventDefault
| Click (element : nat).

Definition isClick (x : Effect) : bool :=
  match x with
  | Click _ => true
  | PreventDefault => false
  end.

Definition isPreventDefault (x : Effect) : bool :=
  match x with
  | PreventDefault => true
  | Click _ => false
  end.

(** [a === b] for two values of [string | undefined]. *)
Definition strictEqOpt (a b : option string) : bool :=
  match a, b with
  | Some x, Some y => String.eqb x y
  | None, None => true
  | _, _ => false
  end.

Module Shortcut.

(** [keyboardShortcut.toLowerCase().split('+')]. *)
Definition keys (keyboardShortcut : string) : list string :=
  JsString.split "+" (JsString.toLowerCase keyboardShortcut).

Definition textEntryTags : list string := ["input"; "textarea"; "select"].

Definition modifierTokens : list string :=
  ["ctrl"; "control"; "alt"; "shift"; "meta"; "cmd"; "command"].

(** [(e.target as HTMLElement)?.tagName?.toLowerCase()]. *)
Definition targetTag (e : KeyboardEvent.t) : option string :=
  match KeyboardEvent.target e with
  | None => None
  | Some t =>
      match KeyboardEvent.tagName t with
      | None => None
      | Some n => Some (JsString.toLowerCase n)
      end
  end.

(** The guard at the head of the handlers. *)
Definition inTextEntry (e : KeyboardEvent.t) : bool :=
  JsString.includesOpt textEntryTags (targetTag e).

Definition ctrlKey (keys : list string) : bool :=
  JsString.includes keys "ctrl" || JsString.includes keys "control".
Definition altKey (keys : list string) : bool :=
  JsString.includes keys "alt".
Definition shiftKey (keys : list string) : bool :=
  JsString.includes keys "shift".
Definition metaKey (keys : list string) : bool :=
  JsString.includes keys "meta" || JsString.includes keys "cmd"
  || JsString.includes keys "command".

(** [keys.filter(k => !modifiers.includes(k))[0]]; [None] is [undefined]. *)
Definition mainKey (keys : list string) : option string :=
  hd_error (filter (fun k => negb (JsString.includes modifierTokens k)) keys).

(** The five comparisons on the event that both handlers make. *)
Definition eventMatches (keys : list string) (e : KeyboardEvent.t) : bool :=
  strictEqOpt (Some (JsString.toLowerCase (KeyboardEvent.key e))) (mainKey keys)
  && Bool.eqb (KeyboardEvent.ctrlKey e) (ctrlKey keys)
  && Bool.eqb (KeyboardEvent.altKey e) (altKey keys)
  && Bool.eqb (KeyboardEvent.shiftKey e) (shiftKey keys)
  && Bool.eqb (KeyboardEvent.metaKey e) (metaKey keys).

(** [e.preventDefault(); buttonRef.current?.click()]. *)
Definition fire (buttonRef : option nat) : list Effect :=
  PreventDefault ::
  match buttonRef with
  | Some b => [Click b]
  | None => []
  end.

(** What a combination text parses to. *)
Record Parsed : Type := mkParsed {
  p_ctrl : bool;
  p_alt : bool;
  p_shift : bool;
  p_meta : bool;
  p_key : option string
}.

Definition parse (keyboardShortcut : string) : Parsed :=
  let ks := keys keyboardShortcut in
  mkParsed (ctrlKey ks) (altKey ks) (shiftKey ks) (metaKey ks) (mainKey ks).

(** A token that is not a modifier name, once lowered. *)
Definition isLiteral (tok : string) : bool :=
  negb (JsString.includes modifierTokens (JsString.toLowerCase tok)).

End Shortcut.

(** The event agrees with what the text parses to: same literal key, same
    four modifier flags. *)
Definition exactMatch (text : string) (e : KeyboardEvent.t) : Prop :=
  let C := Shortcut.parse text in
  Shortcut.p_key C = Some (JsString.toLowerCase (KeyboardEvent.key e))
  /\ KeyboardEvent.ctrlKey e = Shortcut.p_ctrl C
  /\ KeyboardEvent.altKey e = Shortcut.p_alt C
  /\ KeyboardEvent.shiftKey e = Shortcut.p_shift C
  /\ KeyboardEvent.metaKey e = Shortcut.p_meta C.

(** A key event with the focus on the body of the document. *)
Definition bodyTarget : option KeyboardEvent.Target :=
  Some (KeyboardEvent.mkTarget (Some "BODY")).

Definition keyEvent (key : string) (ctrl alt shift meta : bool) : KeyboardEvent.t :=
  KeyboardEvent.mk key ctrl alt shift meta bodyTarget.

(* ================================================================= *)
(** ** Click handling of the controls *)

(** A handler the consumer passed. What it does is the consumer's; the
    page only counts its runs. *)
Inductive Callback : Type := ConsumerHandler.

Module Button.

(** The properties of [ButtonProps] that the handlers read, after the
    defaults of the parameter list ([isLoading = false],
    [disableAnimation = false], [rippleDuration = 600]; an absent
    [disabled] is falsy). *)
Record Props : Type := mkProps {
  disabled : bool;
  isLoading : bool;
  disableAnimation : bool;
  keyboardShortcut : option string;
  rippleColor : option string;
  rippleDuration : Q;
  onClick : option Callback
}.

(** [handleRippleEffect(e)]. *)
Definition handleRippleEffect (props : Props) (e : MouseEvent) (d : Page)
  : Completion Page :=
  if disableAnimation props || disabled props || isLoading props then Normal d
  else
    let '(ripple, d) := createElement "span" d in
    let rect := rect d in
    let size := Number.max (DOMRect.width rect) (DOMRect.height rect) in
    let x := (clientX e - DOMRect.left rect - size / 2)%float in
    let y := (clientY e - DOMRect.top rect - size / 2)%float in
    let ripple := setWidth size ripple in
    let ripple := setHeight size ripple in
    let ripple := setLeft x ripple in
    let ripple := setTop y ripple in
    let ripple :=
      match rippleColor props with
      | Some color => if JsString.truthy color then setBackgroundColor color ripple else ripple
      | None => ripple
      end in
    let ripple := setClassName ["ripple-effect"] ripple in
    let d := appendChildOpt (querySelector "ripple-container" (button d)) ripple d in
    Normal (setTimeout ripple (rippleDuration props) d).

(** The arrow function written at [onClick=] in the JSX. *)
Definition onClickAttr (w : Window) (props : Props) (e : MouseEvent) (d : Page)
  : Completion Page :=
  d <- (if negb (disabled props) && negb (isLoading props)
           && negb (disableAnimation props)
        then
          if truthyOpt (rippleColor props)
             || negb (Qeq_bool (rippleDuration props) 600)
          then handleRippleEffect props e d
          else Utils.createRippleEffect w e d
        else Normal d) ;;
  match onClick props with
  | Some _ =>
      if negb (disabled props) && negb (isLoading props)
      then Normal (callUserOnClick d)
      else Normal d
  | None => Normal d
  end.

(** The click handler the rendered element has: [{...props}] comes after
    [onClick=] in the JSX, so an [onClick] of the consumer takes the
    place of the arrow function. *)
Definition renderedOnClick (w : Window) (props : Props) (e : MouseEvent) (d : Page)
  : Completion Page :=
  match onClick props with
  | Some _ => Normal (callUserOnClick d)
  | None => onClickAttr w props e d
  end.

(** A click on the rendered element, which carries
    [disabled={disabled || isLoading}]: a disabled button gets no click. *)
Definition click (w : Window) (props : Props) (e : MouseEvent) (d : Page)
  : Completion Page :=
  if disabled props || isLoading props then Normal d
  else renderedOnClick w props e d.

(** [handleGlobalKeyDown(e)] of the shortcut effect, for the [keys] the
    effect computed; [buttonRef] is [buttonRef.current]. *)
Definition handleGlobalKeyDown (props : Props) (buttonRef : option nat)
           (keys : list string) (e : KeyboardEvent.t) : list Effect :=
  if Shortcut.inTextEntry e then []
  else if Shortcut.eventMatches keys e
          && negb (disabled props) && negb (isLoading props)
       then Shortcut.fire buttonRef
       else [].

(** The listener that the shortcut effect registers: none when
    [!keyboardShortcut]. *)
Definition shortcutListener (props : Props) (buttonRef : option nat)
  : option (KeyboardEvent.t -> list Effect) :=
  match keyboardShortcut props with
  | Some text =>
      if JsString.truthy text
      then Some (handleGlobalKeyDown props buttonRef (Shortcut.keys text))
      else None
  | None => None
  end.

End Button.

Module Fab.

Record Props : Type := mkProps {
  disabled : bool;
  disableAnimation : bool;
  keyboardShortcut : option string;
  onClick : option Callback
}.

(** The arrow function written at [onClick=] in the JSX. *)
Definition onClickAttr (w : Window) (props : Props) (e : MouseEvent) (d : Page)
  : Completion Page :=
  d <- (if negb (disabled props) && negb (disableAnimation props)
        then Utils.createRippleEffect w e d
        else Normal d) ;;
  match onClick props with
  | Some _ =>
      if negb (disabled props) then Normal (callUserOnClick d) else Normal d
  | None => Normal d
  end.

(** As for the Button, [{...props}] comes after [onClick=]. *)
Definition renderedOnClick (w : Window) (props : Props) (e : MouseEvent) (d : Page)
  : Completion Page :=
  match onClick props with
  | Some _ => Normal (callUserOnClick d)
  | None => onClickAttr w props e d
  end.

(** The rendered element carries [disabled={disabled}]. *)
Definition click (w : Window) (props : Props) (e : MouseEvent) (d : Page)
  : Completion Page :=
  if disabled props then Normal d
  else renderedOnClick w props e d.

(** [handleGlobalKeyDown(e)] of the Fab: no loading state. *)
Definition handleGlobalKeyDown (props : Props) (buttonRef : option nat)
           (keys : list string) (e : KeyboardEvent.t) : list Effect :=
  if Shortcut.inTextEntry e then []
  else if Shortcut.eventMatches keys e && negb (disabled props)
       then Shortcut.fire buttonRef
       else [].

Definition shortcutListener (props : Props) (buttonRef : option nat)
  : option (KeyboardEvent.t -> list Effect) :=
  match keyboardShortcut props with
  | Some text =>
      if JsString.truthy text
      then Some (handleGlobalKeyDown props buttonRef (Shortcut.keys text))
      else None
  | None => None
  end.

End Fab.

(* ================================================================= *)
(** ** Listener registration of a mounted control (Button.tsx) *)

(** Listeners are closures; a closure is known by its identity. *)
Module EventTarget.

(** [target.addEventListener(type, fn)] on the listeners of that type:
    a closure that is already registered is not registered twice. *)
Definition addEventListener (fn : nat) (l : list nat) : list nat :=
  if existsb (Nat.eqb fn) l then l else l ++ [fn].

(** [target.removeEventListener(type, fn)]. *)
Definition removeEventListener (fn : nat) (l : list nat) : list nat :=
  filter (fun g => negb (g =? fn)%nat) l.

End EventTarget.

(** The listeners of the page: those of [document] for ['keydown'], and
    for every [MediaQueryList] object that [window.matchMedia] returned so
    far those for ['change']; and the identities given to closures. *)
Record Registry : Type := mkRegistry {
  keydown : list nat;
  mediaQueryLists : list (list nat);
  nextClosure : nat
}.

(** Number of listeners attached to the two streams. *)
Definition listenerCount (r : Registry) : nat :=
  (List.length (keydown r) + list_sum (map (@List.length nat) (mediaQueryLists r)))%nat.

Module ButtonLifecycle.

(** The dependency array [[keyboardShortcut, disabled, isLoading]]. *)
Definition Deps : Type := (option string * bool * bool)%type.

Definition depsOf (props : Button.Props) : Deps :=
  (Button.keyboardShortcut props, Button.disabled props, Button.isLoading props).

Definition sameDeps (a b : Deps) : bool :=
  let '(k1, d1, l1) := a in
  let '(k2, d2, l2) := b in
  strictEqOpt k1 k2 && Bool.eqb d1 d2 && Bool.eqb l1 l2.

(** What a mounted Button holds: its state, and what the cleanup
    functions of its two effects closed over. *)
Record Instance : Type := mkInstance {
  isHighContrast : bool;
  mediaQuery : nat;                 (* the MediaQueryList of the first effect *)
  handleChange : nat;               (* its listener *)
  handleGlobalKeyDown : option nat; (* the listener of the second effect *)
  deps : Deps
}.

(** Body of the shortcut effect: the listener it registered, if any. *)
Definition shortcutEffect (props : Button.Props) (r : Registry)
  : option nat * Registry :=
  if negb (truthyOpt (Button.keyboardShortcut props)) then (None, r)
  else
    let fn := nextClosure r in
    (Some fn,
     mkRegistry (EventTarget.addEventListener fn (keydown r))
                (mediaQueryLists r) (S (nextClosure r))).

(** Cleanup of the shortcut effect. *)
Definition shortcutCleanup (registered : option nat) (r : Registry) : Registry :=
  match registered with
  | Some fn =>
      mkRegistry (EventTarget.removeEventListener fn (keydown r))
                 (mediaQueryLists r) (nextClosure r)
  | None => r
  end.

(** Cleanup of the high-contrast effect. *)
Definition contrastCleanup (mq fn : nat) (r : Registry) : Registry :=
  mkRegistry (keydown r)
             (updateNth mq (EventTarget.removeEventListener fn) (mediaQueryLists r))
             (nextClosure r).

(** First commit: both effects run. *)
Definition mount (w : Window) (props : Button.Props) (r : Registry)
  : Completion (Instance * Registry) :=
  hc <- prefersHighContrast (Some w) ;;
  let mq := List.length (mediaQueryLists r) in
  let fn := nextClosure r in
  let r := mkRegistry (keydown r)
                      (mediaQueryLists r ++ [EventTarget.addEventListener fn []])
                      (S (nextClosure r)) in
  let '(registered, r) := shortcutEffect props r in
  Normal (mkInstance hc mq fn registered (depsOf props), r).

(** A later commit with new properties: the first effect has no
    dependencies and stays; the second is cleaned up and run again when
    a dependency changed. *)
Definition rerender (props : Button.Props) (ir : Instance * Registry)
  : Instance * Registry :=
  let '(i, r) := ir in
  if sameDeps (deps i) (depsOf props) then (i, r)
  else
    let r := shortcutCleanup (handleGlobalKeyDown i) r in
    let '(registered, r) := shortcutEffect props r in
    (mkInstance (isHighContrast i) (mediaQuery i) (handleChange i) registered
                (depsOf props), r).

(** Unmount: the cleanups run. *)
Definition unmount (ir : Instance * Registry) : Registry :=
  let '(i, r) := ir in
  let r := contrastCleanup (mediaQuery i) (handleChange i) r in
  shortcutCleanup (handleGlobalKeyDown i) r.

(** A whole life: mount, any number of commits, unmount. *)
Definition life (w : Window) (props : Button.Props) (updates : list Button.Props)
           (r : Registry) : Completion Registry :=
  ir <- mount w props r ;;
  Normal (unmount (fold_left (fun acc p => rerender p acc) updates ir)).

(** Closures get identities that were not handed out before. *)
Definition wellFormed (r : Registry) : Prop :=
  Forall (fun fn => (fn < nextClosure r)%nat) (keydown r).

(** What holds of a mounted Button, relative to the registry [r0] it
    was mounted in: its media query list is the one made at the mount
    and holds its change listener; its key listener, when it has one, is
    the last of the document and was made after the mount began. *)
Definition mounted (r0 : Registry) (ir : Instance * Registry) : Prop :=
  let '(i, r) := ir in
  mediaQuery i = List.length (mediaQueryLists r0)
  /\ mediaQueryLists r = mediaQueryLists r0 ++ [[handleChange i]]
  /\ (nextClosure r0 < nextClosure r)%nat
  /\ match handleGlobalKeyDown i with
     | Some fn => keydown r = keydown r0 ++ [fn] /\ (nextClosure r0 <= fn < nextClosure r)%nat
     | None => keydown r = keydown r0
     end.

End ButtonLifecycle.

(** Nothing was emitted between [d] and [d']: same tree, no element
    created, no timer set. *)
Definition untouched (d d' : Page) : Prop :=
  button d' = button d /\ nextId d' = nextId d /\ timers d' = timers d.

(** A host of 100 by 40 pixels at the origin, as the Button renders it:
    the button element with its ripple container. *)
Definition sampleButton : Node :=
  Element 0 "button" ["inline-flex"; "rounded-full"] CSSStyle.empty
    [Element 1 "span" ["ripple-container"; "overflow-hidden"] CSSStyle.empty []].

Definition samplePage : Page :=
  mkPage sampleButton (DOMRect.mk 0 0 100 40) "9999px" 2 [] 0.

(** A window whose only media query answer of interest is the one for
    reduced motion. *)
Definition sampleWindow (reducedMotion : bool) : Window :=
  mkWindow (fun q => if String.eqb q "(prefers-reduced-motion: reduce)"
                     then reducedMotion else false).

(** A click in the middle of the sample host. *)
Definition sampleClick : MouseEvent := mkMouseEvent 50 20.

(** Runs the page operations of a handler and leaves the arithmetic and
    the tree operations as they are. *)
Ltac run_page :=
  cbn -[Number.max querySelector updateAt nodeAt hasClass String.eqb appendChild].

(* ================================================================= *)
(** ** Class tokens *)

(** The class names of a [className] text whose separators are spaces:
    the pieces between the spaces, the empty ones dropped. *)
Definition classTokens (className : string) : list string :=
  filter JsString.truthy (JsString.split " " className).

(* ================================================================= *)
(** ** [handleKeyboardEvent] (utils.ts) *)

Module KeyActions.

(** The own properties of an [actions] object, in the order they were
    written; of two entries for one key the later one counts. The value
    is what the callback does when it is called, as a list of effects of
    type [E]. *)
Definition Actions (E : Type) : Type := list (string * list E).

(** The property names of [Object.prototype], which every object literal
    inherits. *)
Definition objectPrototype : list string :=
  ["constructor"; "__defineGetter__"; "__defineSetter__"; "hasOwnProperty";
   "__lookupGetter__"; "__lookupSetter__"; "isPrototypeOf";
   "propertyIsEnumerable"; "toString"; "valueOf"; "__proto__";
   "toLocaleString"].

(** What [actions[key]] evaluates to. *)
Inductive Member (E : Type) : Type :=
| Own (callback : list E)
| Inherited (name : string)
| Undefined.

Arguments Own {E} callback.
Arguments Inherited {E} name.
Arguments Undefined {E}.

Fixpoint ownProperty {E} (actions : Actions E) (key : string) : option (list E) :=
  match actions with
  | [] => None
  | (k, f) :: rest =>
      match ownProperty rest key with
      | Some g => Some g
      | None => if String.eqb k key then Some f else None
      end
  end.

Definition get {E} (actions : Actions E) (key : string) : Member E :=
  match ownProperty actions key with
  | Some f => Own f
  | None => if JsString.includes objectPrototype key then Inherited key else Undefined
  end.

(** Calling an inherited member without arguments: [__proto__] is an
    object and no function, [__defineGetter__] and [__defineSetter__]
    reject a missing accessor; the others return. *)
Definition callInherited (name : string) : Completion unit :=
  if JsString.includes ["__proto__"; "__defineGetter__"; "__defineSetter__"] name
  then Throw TypeError
  else Normal tt.

(** [handleKeyboardEvent(event, actions, preventDefault)]: the effects in
    the order they happen, and how the call completes. [prevent] is the
    effect of [event.preventDefault()]. *)
Definition handleKeyboardEvent {E} (prevent : E) (event : KeyboardEvent.t)
           (actions : Actions E) (preventDefault : bool)
  : list E * Completion unit :=
  let key := JsString.toLowerCase (KeyboardEvent.key event) in
  match get actions key with
  | Undefined => ([], Normal tt)
  | Own f => ((if preventDefault then [prevent] else []) ++ f, Normal tt)
  | Inherited name =>
      (if preventDefault then [prevent] else [], callInherited name)
  end.

End KeyActions.

(* ================================================================= *)
(** ** Key handling of the controls *)

Module ButtonKeys.

(** The callback under [' '] in [handleKeyDown] of the Button. *)
Definition spaceAction (props : Button.Props) (buttonRef : option nat) : list Effect :=
  if negb (Button.disabled props) && negb (Button.isLoading props)
  then match buttonRef with
       | Some b => [Click b]
       | None => []
       end
  else [].

(** [handleKeyDown(e)] of the Button; [onKeyDown] is what the consumer's
    [props.onKeyDown] does, when there is one. *)
Definition handleKeyDown (props : Button.Props) (onKeyDown : option (list Effect))
           (buttonRef : option nat) (e : KeyboardEvent.t)
  : list Effect * Completion unit :=
  let before := match onKeyDown with Some t => t | None => [] end in
  let '(after, outcome) :=
    KeyActions.handleKeyboardEvent PreventDefault e
      [(" ", spaceAction props buttonRef)] true in
  (before ++ after, outcome).

(** The key handler the rendered element has: [{...props}] comes after
    [onKeyDown=] in the JSX. *)
Definition renderedOnKeyDown (props : Button.Props) (onKeyDown : option (list Effect))
           (buttonRef : option nat) (e : KeyboardEvent.t)
  : list Effect * Completion unit :=
  match onKeyDown with
  | Some t => (t, Normal tt)
  | None => handleKeyDown props onKeyDown buttonRef e
  end.

End ButtonKeys.

Module FabKeys.

Definition spaceAction (props : Fab.Props) (buttonRef : option nat) : list Effect :=
  if negb (Fab.disabled props)
  then match buttonRef with
       | Some b => [Click b]
       | None => []
       end
  else [].

Definition handleKeyDown (props : Fab.Props) (onKeyDown : option (list Effect))
           (buttonRef : option nat) (e : KeyboardEvent.t)
  : list Effect * Completion unit :=
  let before := match onKeyDown with Some t => t | None => [] end in
  let '(after, outcome) :=
    KeyActions.handleKeyboardEvent PreventDefault e
      [(" ", spaceAction props buttonRef)] true in
  (before ++ after, outcome).

Definition renderedOnKeyDown (props : Fab.Props) (onKeyDown : option (list Effect))
           (buttonRef : option nat) (e : KeyboardEvent.t)
  : list Effect * Completion unit :=
  match onKeyDown with
  | Some t => (t, Normal tt)
  | None => handleKeyDown props onKeyDown buttonRef e
  end.

(** [ariaLabel || label || 'Action button']. *)
Definition accessibleName (ariaLabel label : option string) : string :=
  match ariaLabel with
  | Some (String c r) => String c r
  | _ =>
      match label with
      | Some (String c r) => String c r
      | _ => "Action button"
      end
  end.

End FabKeys.

(* ================================================================= *)
(** ** [manageFocus] (utils.ts) *)

Module Focus.

(** The focus of the document: [activeElement] ([None] for [null]) and
    which elements can take the focus now. *)
Record Document : Type := mkDocument {
  activeElement : option nat;
  focusable : nat -> bool
}.

(** [el.focus()]: the focus moves when the element can take it. *)
Definition focus (el : nat) (doc : Document) : Document :=
  if focusable doc el then mkDocument (Some el) (focusable doc) else doc.

(** [manageFocus(focusElement, restoreFocus)]: the document after the
    call, and the function it returns. The element that had the focus is
    an element, so it has a [focus] method. *)
Definition manageFocus (focusElement : option nat) (restoreFocus : bool)
           (doc : Document) : Document * (Document -> Document) :=
  match focusElement with
  | None => (doc, fun later => later)
  | Some el =>
      let previouslyFocused := activeElement doc in
      (focus el doc,
       fun later =>
         if restoreFocus
         then match previouslyFocused with
              | Some p => focus p later
              | None => later
              end
         else later)
  end.

End Focus.

(* ================================================================= *)
(** ** Dispatch of a key event to the listeners of the document *)

(** Every listener runs, in the order of registration. *)
Definition dispatchKeyDown (listeners : list (KeyboardEvent.t -> list Effect))
           (e : KeyboardEvent.t) : list Effect :=
  flat_map (fun h => h e) listeners.

(** The listeners of Buttons with their elements, those without
    shortcut left out. *)
Fixpoint buttonListeners (controls : list (Button.Props * nat))
  : list (KeyboardEvent.t -> list Effect) :=
  match controls with
  | [] => []
  | (props, b) :: rest =>
      match Button.shortcutListener props (Some b) with
      | Some h => h :: buttonListeners rest
      | None => buttonListeners rest
      end
  end.

(* ================================================================= *)
(** ** Sequences of clicks and of timers *)

(** The handler of a click runs for each event in turn. *)
Fixpoint clicks (emit : MouseEvent -> Page -> Completion Page)
         (events : list MouseEvent) (d : Page) : Completion Page :=
  match events with
  | [] => Normal d
  | e :: rest => d1 <- emit e d ;; clicks emit rest d1
  end.

(** The callbacks of the timers run, in the order given. *)
Fixpoint fireTimers (due : list Timer) (d : Page) : Completion Page :=
  match due with
  | [] => Normal d
  | t :: rest => d1 <- fireTimer t d ;; fireTimers rest d1
  end.

(** Several elements appended to a parent, one after the other. *)
Definition appendChildren (children : list Node) (parent : Node) : Node :=
  match parent with
  | Element i t c s kids => Element i t c s (kids ++ children)
  end.

(** A ripple as the emitters make it: the class, and no children. *)
Definition isRipple (r : Node) : Prop :=
  classList r = ["ripple-effect"] /\ childNodes r = [].

(** The host [b0] with the ripples [rs] in the container that
    [querySelector] finds in it; the host itself when it has none. *)
Definition withRipples (b0 : Node) (rs : list Node) : Node :=
  match querySelector "ripple-container" b0 with
  | Some p => updateAt p (appendChildren rs) b0
  | None => b0
  end.

(** One emission that appends to the container: from [d] to [d'] one
    ripple of the next identity went into the container, when there is
    one, and one timer for it was set with the given delay. *)
Definition emitted (delay : Q) (d d' : Page) : Prop :=
  exists r,
    nodeId r = nextId d
    /\ isRipple r
    /\ button d' = match querySelector "ripple-container" (button d) with
                   | Some p => updateAt p (appendChild r) (button d)
                   | None => button d
                   end
    /\ nextId d' = S (nextId d)
    /\ timers d' = timers d ++ [mkTimer delay (nextId d)].

(** The identities of the tree were all handed out already. *)
Definition identified (d : Page) : Prop :=
  Forall (fun i => (i < nextId d)%nat) (nodeIds (button d)).

(** The state [d] reached from [d0] by emissions that append: the host
    of [d0] with the ripples [rs], which are all due for removal by the
    timers [new] set since [d0]. *)
Definition rippling (delay : Q) (d0 d : Page) (rs : list Node) (new : list Timer)
  : Prop :=
  button d = withRipples (button d0) rs
  /\ Forall isRipple rs
  /\ timers d = timers d0 ++ new
  /\ Forall (fun t => (nextId d0 <= timerRemoves t)%nat /\ timerDelay t = delay) new
  /\ Forall (fun r => In (nodeId r) (map timerRemoves new)) rs
  /\ List.length rs = List.length new
  /\ (nextId d0 <= nextId d)%nat.

(** The ripples that none of the timers removes. *)
Definition remaining (due : list Timer) (rs : list Node) : list Node :=
  filter (fun r => negb (existsb (Nat.eqb (nodeId r)) (map timerRemoves due))) rs.

(** The instance [i] of a Button holds the key listener that the
    properties [props] of the last commit call for. *)
Definition tracking (props : Button.Props) (i : ButtonLifecycle.Instance) : Prop :=
  ButtonLifecycle.deps i = ButtonLifecycle.depsOf props
  /\ (ButtonLifecycle.handleGlobalKeyDown i = None
      <-> truthyOpt (Button.keyboardShortcut props) = false).

(* ================================================================= *)
(** ** Listener registration of a mounted Fab (Fab.tsx) *)

Module FabLifecycle.

(** The dependency array [[keyboardShortcut, disabled]]. *)
Definition Deps : Type := (option string * bool)%type.

Definition depsOf (props : Fab.Props) : Deps :=
  (Fab.keyboardShortcut props, Fab.disabled props).

Definition sameDeps (a b : Deps) : bool :=
  let '(k1, d1) := a in
  let '(k2, d2) := b in
  strictEqOpt k1 k2 && Bool.eqb d1 d2.

Record Instance : Type := mkInstance {
  isHighContrast : bool;
  mediaQuery : nat;
  handleChange : nat;
  handleGlobalKeyDown : option nat;
  deps : Deps
}.

(** Body of the shortcut effect. *)
Definition shortcutEffect (props : Fab.Props) (r : Registry)
  : option nat * Registry :=
  if negb (truthyOpt (Fab.keyboardShortcut props)) then (None, r)
  else
    let fn := nextClosure r in
    (Some fn,
     mkRegistry (EventTarget.addEventListener fn (keydown r))
                (mediaQueryLists r) (S (nextClosure r))).

(** Cleanup of the shortcut effect. *)
Definition shortcutCleanup (registered : option nat) (r : Registry) : Registry :=
  match registered with
  | Some fn =>
      mkRegistry (EventTarget.removeEventListener fn (keydown r))
                 (mediaQueryLists r) (nextClosure r)
  | None => r
  end.

(** Cleanup of the high-contrast effect. *)
Definition contrastCleanup (mq fn : nat) (r : Registry) : Registry :=
  mkRegistry (keydown r)
             (updateNth mq (EventTarget.removeEventListener fn) (mediaQueryLists r))
             (nextClosure r).

Definition mount (w : Window) (props : Fab.Props) (r : Registry)
  : Completion (Instance * Registry) :=
  hc <- prefersHighContrast (Some w) ;;
  let mq := List.length (mediaQueryLists r) in
  let fn := nextClosure r in
  let r := mkRegistry (keydown r)
                      (mediaQueryLists r ++ [EventTarget.addEventListener fn []])
                      (S (nextClosure r)) in
  let '(registered, r) := shortcutEffect props r in
  Normal (mkInstance hc mq fn registered (depsOf props), r).

Definition rerender (props : Fab.Props) (ir : Instance * Registry)
  : Instance * Registry :=
  let '(i, r) := ir in
  if sameDeps (deps i) (depsOf props) then (i, r)
  else
    let r := shortcutCleanup (handleGlobalKeyDown i) r in
    let '(registered, r) := shortcutEffect props r in
    (mkInstance (isHighContrast i) (mediaQuery i) (handleChange i) registered
                (depsOf props), r).

Definition unmount (ir : Instance * Registry) : Registry :=
  let '(i, r) := ir in
  let r := contrastCleanup (mediaQuery i) (handleChange i) r in
  shortcutCleanup (handleGlobalKeyDown i) r.

Definition life (w : Window) (props : Fab.Props) (updates : list Fab.Props)
           (r : Registry) : Completion Registry :=
  ir <- mount w props r ;;
  Normal (unmount (fold_left (fun acc p => rerender p acc) updates ir)).

(** The Button that registers what this Fab registers. *)
Definition asButton (props : Fab.Props) : Button.Props :=
  Button.mkProps (Fab.disabled props) false (Fab.disableAnimation props)
                 (Fab.keyboardShortcut props) None 600 (Fab.onClick props).

(** The instance of that Button. *)
Definition asButtonInstance (i : Instance) : ButtonLifecycle.Instance :=
  ButtonLifecycle.mkInstance (isHighContrast i) (mediaQuery i) (handleChange i)
    (handleGlobalKeyDown i) (fst (deps i), snd (deps i), false).

End FabLifecycle.

(* ================================================================= *)
(** ** The class list of the Button (Button.tsx) *)

Module ButtonClass.

(** The properties the class list is computed from; [variant], [size]
    and [rounded] are the texts of their union types. *)
Record Props : Type := mkProps {
  variant : string;
  size : string;
  rounded : string;
  fullWidth : bool;
  useCustomColors : bool;
  hoverBgColor : option string;
  activeBgColor : option string;
  isHighContrast : bool;
  disableAnimation : bool;
  disabled : bool;
  isLoading : bool;
  className : option string
}.

(** [cond && 'text']. *)
Definition when (cond : bool) (text : string) : ClassValue :=
  if cond then CString text else CFalse.

(** A [className] property: a text or [undefined]. *)
Definition optional (o : option string) : ClassValue :=
  match o with
  | Some s => CString s
  | None => CUndefined
  end.

(** [getRoundedStyle()]. *)
Definition getRoundedStyle (rounded : string) : string :=
  if String.eqb rounded "full" then "rounded-full"
  else if String.eqb rounded "lg" then "rounded-lg"
  else if String.eqb rounded "md" then "rounded-md"
  else if String.eqb rounded "sm" then "rounded-sm"
  else if String.eqb rounded "none" then "rounded-none"
  else "rounded-full".

(** [getCustomStateClasses()]. *)
Definition getCustomStateClasses (hoverBgColor activeBgColor : option string) : string :=
  if negb (truthyOpt hoverBgColor) && negb (truthyOpt activeBgColor) then ""
  else
    let classes : list string := [] in
    let classes :=
      match hoverBgColor with
      | Some h => if JsString.truthy h
                  then (classes ++ [("hover:bg-[" ++ h ++ "]")%string])%list
                  else classes
      | None => classes
      end in
    let classes :=
      match activeBgColor with
      | Some a => if JsString.truthy a
                  then (classes ++ [("active:bg-[" ++ a ++ "]")%string])%list
                  else classes
      | None => classes
      end in
    JsString.join " " classes.

(** The arguments of the [cn] call of the [className] attribute, the
    consumer's [className] left out. *)
Definition ownClasses (p : Props) : list ClassValue :=
  [ CString "inline-flex items-center justify-center font-medium transition-all";
    CString (getRoundedStyle (rounded p));
    when (String.eqb (variant p) "filled")
      "bg-primary text-on-primary hover:bg-primary-dark active:bg-primary-darker";
    when (String.eqb (variant p) "outlined")
      "border border-outline text-primary hover:bg-primary-container/10 active:bg-primary-container/20";
    when (String.eqb (variant p) "text")
      "text-primary hover:bg-primary/10 active:bg-primary/20";
    when (String.eqb (variant p) "elevated")
      "bg-surface text-primary shadow-sm hover:shadow-md active:bg-surface-variant";
    when (String.eqb (variant p) "tonal")
      "bg-secondary-container text-on-secondary-container hover:bg-secondary-container-dark active:bg-secondary-container-darker";
    when (useCustomColors p) "border";
    CString (getCustomStateClasses (hoverBgColor p) (activeBgColor p));
    when (isHighContrast p && String.eqb (variant p) "filled")
      "bg-primary text-white border-2 border-black";
    when (isHighContrast p && String.eqb (variant p) "outlined")
      "border-2 border-black text-black";
    when (isHighContrast p && String.eqb (variant p) "text")
      "text-black underline";
    when (isHighContrast p && String.eqb (variant p) "elevated")
      "bg-white text-black border-2 border-black shadow-none";
    when (isHighContrast p && String.eqb (variant p) "tonal")
      "bg-gray-200 text-black border-2 border-black";
    when (String.eqb (size p) "sm") "h-8 px-4 text-sm gap-2";
    when (String.eqb (size p) "md") "h-10 px-6 text-base gap-2";
    when (String.eqb (size p) "lg") "h-12 px-8 text-lg gap-3";
    when (fullWidth p) "w-full";
    CString "focus-visible:outline-none focus-visible:ring-2 focus-visible:ring-primary/50 focus-visible:ring-offset-2";
    when (isHighContrast p) "focus-visible:ring-black focus-visible:ring-offset-0";
    when (disableAnimation p) "transition-none";
    when (disabled p || isLoading p) "opacity-[0.38] pointer-events-none" ].

(** The [className] attribute of the rendered button. *)
Definition renderedClassName (p : Props) : string :=
  cn (ownClasses p ++ [optional (className p)]).

End ButtonClass.

(* ================================================================= *)
(** ** The key handling with the case mapping left open *)

(** [String.prototype.toLowerCase] maps every cased letter of Unicode to
    its lower case form, some of them to more than one code unit and the
    capital sigma by its place in the word; [JsString.toLowerCase] is that
    mapping on texts whose only letters are [A]..[Z] and [a]..[z]. The
    definitions of this module are the same source lines with the mapping
    as an argument [toLowerCase], so that a statement on them that holds
    for every mapping, or for every mapping with a stated property, holds
    of the built-in function on every text. At [JsString.toLowerCase]
    they are the definitions of [Shortcut], [Button], [Fab] and
    [KeyActions]. *)
Module AnyCase.

Section Mapping.

Variable toLowerCase : string -> string.

(** [keyboardShortcut.toLowerCase().split('+')]. *)
Definition keys (keyboardShortcut : string) : list string :=
  JsString.split "+" (toLowerCase keyboardShortcut).

(** [(e.target as HTMLElement)?.tagName?.toLowerCase()]. *)
Definition targetTag (e : KeyboardEvent.t) : option string :=
  match KeyboardEvent.target e with
  | None => None
  | Some t =>
      match KeyboardEvent.tagName t with
      | None => None
      | Some n => Some (toLowerCase n)
      end
  end.

Definition inTextEntry (e : KeyboardEvent.t) : bool :=
  JsString.includesOpt Shortcut.textEntryTags (targetTag e).

(** The five comparisons on the event. *)
Definition eventMatches (keys : list string) (e : KeyboardEvent.t) : bool :=
  strictEqOpt (Some (toLowerCase (KeyboardEvent.key e))) (Shortcut.mainKey keys)
  && Bool.eqb (KeyboardEvent.ctrlKey e) (Shortcut.ctrlKey keys)
  && Bool.eqb (KeyboardEvent.altKey e) (Shortcut.altKey keys)
  && Bool.eqb (KeyboardEvent.shiftKey e) (Shortcut.shiftKey keys)
  && Bool.eqb (KeyboardEvent.metaKey e) (Shortcut.metaKey keys).

(** What a combination text parses to. *)
Definition parse (keyboardShortcut : string) : Shortcut.Parsed :=
  let ks := keys keyboardShortcut in
  Shortcut.mkParsed (Shortcut.ctrlKey ks) (Shortcut.altKey ks)
                    (Shortcut.shiftKey ks) (Shortcut.metaKey ks)
                    (Shortcut.mainKey ks).

(** A token that is not a modifier name, once lowered. *)
Definition isLiteral (tok : string) : bool :=
  negb (JsString.includes Shortcut.modifierTokens (toLowerCase tok)).

(** [handleGlobalKeyDown(e)] of Button.tsx. *)
Definition Button_handleGlobalKeyDown (props : Button.Props) (buttonRef : option nat)
           (keys : list string) (e : KeyboardEvent.t) : list Effect :=
  if inTextEntry e then []
  else if eventMatches keys e
          && negb (Button.disabled props) && negb (Button.isLoading props)
       then Shortcut.fire buttonRef
       else [].

(** [handleGlobalKeyDown(e)] of Fab.tsx. *)
Definition Fab_handleGlobalKeyDown (props : Fab.Props) (buttonRef : option nat)
           (keys : list string) (e : KeyboardEvent.t) : list Effect :=
  if inTextEntry e then []
  else if eventMatches keys e && negb (Fab.disabled props)
       then Shortcut.fire buttonRef
       else [].

(** [handleKeyboardEvent(event, actions, preventDefault)] of utils.ts. *)
Definition handleKeyboardEvent {E} (prevent : E) (event : KeyboardEvent.t)
           (actions : KeyActions.Actions E) (preventDefault : bool)
  : list E * Completion unit :=
  let key := toLowerCase (KeyboardEvent.key event) in
  match KeyActions.get actions key with
  | KeyActions.Undefined => ([], Normal tt)
  | KeyActions.Own f => ((if preventDefault then [prevent] else []) ++ f, Normal tt)
  | KeyActions.Inherited name =>
      (if preventDefault then [prevent] else [], KeyActions.callInherited name)
  end.

(** A text that the mapping leaves as it is. *)
Definition isLowered (s : string) : bool :=
  String.eqb (toLowerCase s) s.

(** Two texts with the same lower case form: what a comparison that
    lowers both sides cannot tell apart. *)
Definition sameLowered (s t : string) : Prop :=
  toLowerCase s = toLowerCase t.

(** The mapping works piece by piece on a text with plus signs: the plus
    sign is no letter, no letter is mapped to it, and no rule of the
    mapping looks across it (the rule for the capital sigma looks at the
    cased letters and the case-ignorable characters around it, and the
    plus sign is neither). *)
Definition pieceWise : Prop :=
  forall s, JsString.split "+" (toLowerCase s)
            = map toLowerCase (JsString.split "+" s).

End Mapping.

End AnyCase.

(** A case mapping beyond ASCII, for the examples: [toLowerCase] on the
    texts of the Latin-1 letters. It folds [A]..[Z], and the letters from
    À to Þ but the sign ×, which UTF-8 writes as the byte C3 followed by
    a byte from 80 to 9E: É is C3 89, and é is C3 A9. *)
Module Latin1.

(** The second byte of a capital letter from À to Þ. *)
Definition isUpperTail (c : ascii) : bool :=
  (128 <=? nat_of_ascii c)%nat && (nat_of_ascii c <=? 158)%nat
  && negb (nat_of_ascii c =? 151)%nat.

Definition isLead (c : ascii) : bool := (nat_of_ascii c =? 195)%nat.

Fixpoint toLowerCase (s : string) : string :=
  match s with
  | EmptyString => EmptyString
  | String c r =>
      match r with
      | String c2 r' =>
          if isLead c && isUpperTail c2
          then String c (String (ascii_of_nat (nat_of_ascii c2 + 32))
                                (toLowerCase r'))
          else String (JsString.lowerChar c) (toLowerCase r)
      | EmptyString => String (JsString.lowerChar c) EmptyString
      end
  end.

End Latin1.

(** A key event that differs from [e] by its key only. *)
Definition withKey (key' : string) (e : KeyboardEvent.t) : KeyboardEvent.t :=
  KeyboardEvent.mk key' (KeyboardEvent.ctrlKey e) (KeyboardEvent.altKey e)
    (KeyboardEvent.shiftKey e) (KeyboardEvent.metaKey e) (KeyboardEvent.target e).

(* ================================================================= *)
(** ** The activation point and the center of a ripple *)

(** The numbers of the event and of the box are finite, and the point of
    the event lies in the box. *)
Definition inside (e : MouseEvent) (r : DOMRect.t) : Prop :=
  Number.isFinite (clientX e) = true
  /\ Number.isFinite (clientY e) = true
  /\ Number.isFinite (DOMRect.left r) = true
  /\ Number.isFinite (DOMRect.top r) = true
  /\ Number.isFinite (DOMRect.width r) = true
  /\ Number.isFinite (DOMRect.height r) = true
  /\ Number.toQ (DOMRect.left r) <= Number.toQ (clientX e)
  /\ Number.toQ (clientX e) <= Number.toQ (DOMRect.left r) + Number.toQ (DOMRect.width r)
  /\ Number.toQ (DOMRect.top r) <= Number.toQ (clientY e)
  /\ Number.toQ (clientY e) <= Number.toQ (DOMRect.top r) + Number.toQ (DOMRect.height r).

(** No side of the box is longer than [bound] pixels. *)
Definition sidesWithin (bound : Q) (r : DOMRect.t) : Prop :=
  Number.toQ (DOMRect.width r) <= bound /\ Number.toQ (DOMRect.height r) <= bound.

(** How far, along one axis, the middle of a box of the size [size] put
    at the offset [offset] is from the point [point] taken relative to
    [origin]. *)
Definition offCenter (offset size point origin : float) : Q :=
  Qabs (Number.toQ offset + Number.toQ size / 2
        - (Number.toQ point - Number.toQ origin)).

(** The rounding of the offsets on a host whose sides are at most
    [bound] pixels: the part [2^-44] of [bound]. For the largest box that
    a browser lays out, of some [2^25] pixels, that is [2^-19] pixels. *)
Definition subPixel (bound : Q) : Q := bound * pow2 (-44).

(** The ripple is a square of the side [size], and its center is the
    point of the event relative to the box [r], within [tolerance] on
    both axes. *)
Definition centeredOn (ripple : Node) (size : float) (e : MouseEvent) (r : DOMRect.t)
           (tolerance : Q) : Prop :=
  CSSStyle.width (style ripple) = Some size
  /\ CSSStyle.height (style ripple) = Some size
  /\ exists x y,
       CSSStyle.left (style ripple) = Some x
       /\ CSSStyle.top (style ripple) = Some y
       /\ Number.isFinite x = true
       /\ Number.isFinite y = true
       /\ offCenter x size (clientX e) (DOMRect.left r) <= tolerance
       /\ offCenter y size (clientY e) (DOMRect.top r) <= tolerance.

(* ================================================================= *)
(** * Properties *)

(* ================================================================= *)
(** ** [cn] *)

Section CnFacts.

Lemma filter_Boolean_truthyStrings (classes : list ClassValue) :
  filter Boolean classes = map CString (truthyStrings classes).
Proof.
  induction classes as [|v rest IH]; [reflexivity|].
  destruct v as [s| |]; simpl; try exact IH.
  destruct s; simpl; [exact IH | now rewrite IH].
Qed.

Lemma classText_CString (l : list string) : map classText (map CString l) = l.
Proof.
  induction l as [|s r IH]; simpl; [reflexivity | now rewrite IH].
Qed.

Lemma cn_truthyStrings (classes : list ClassValue) :
  cn classes = JsString.join " " (truthyStrings classes).
Proof.
  unfold cn. now rewrite filter_Boolean_truthyStrings, classText_CString.
Qed.

Lemma truthyStrings_app (l1 l2 : list ClassValue) :
  truthyStrings (l1 ++ l2) = truthyStrings l1 ++ truthyStrings l2.
Proof.
  induction l1 as [|v r IH]; [reflexivity|].
  destruct v as [s| |]; simpl; try exact IH.
  destruct s; simpl; [exact IH | now rewrite IH].
Qed.

Lemma truthyStrings_falsy (classes : list ClassValue) :
  existsb Boolean classes = false -> truthyStrings classes = [].
Proof.
  induction classes as [|v r IH]; [reflexivity|].
  simpl. intros H. apply orb_false_iff in H as [Hv Hr].
  destruct v as [s| |]; simpl; auto.
  destruct s; simpl in *; [auto | discriminate].
Qed.

End CnFacts.

(** C9. [cn] returns the truthy string arguments, in the order given,
    joined by one space: the arguments that pass the filter are exactly
    the non-empty strings; [undefined], [false] and the empty string can be
    dropped from any position without changing the result; and a call
    without a truthy argument returns the empty string. *)
Theorem cn_joins_truthy_strings (classes : list ClassValue) :
  filter Boolean classes = map CString (truthyStrings classes)
  /\ cn classes = JsString.join " " (truthyStrings classes)
  /\ (forall pre post v,
         classes = pre ++ v :: post -> falsy v -> cn classes = cn (pre ++ post))
  /\ (existsb Boolean classes = false -> cn classes = EmptyString).
Proof.
  split; [apply filter_Boolean_truthyStrings|].
  split; [apply cn_truthyStrings|].
  split.
  - intros pre post v -> Hv.
    rewrite !cn_truthyStrings, !truthyStrings_app.
    destruct Hv as [-> | [-> | ->]]; reflexivity.
  - intros H. rewrite cn_truthyStrings, truthyStrings_falsy by exact H.
    reflexivity.
Qed.

Lemma cn_joins_truthy_strings_witness :
  cn [CString "a"; CUndefined; CString "b"; CFalse; CString ""] = "a b"
  /\ cn [CUndefined; CFalse; CString ""] = "".
Proof.
  split.
  - destruct (cn_joins_truthy_strings
                [CString "a"; CUndefined; CString "b"; CFalse; CString ""])
      as (_ & H & _).
    rewrite H. reflexivity.
  - destruct (cn_joins_truthy_strings [CUndefined; CFalse; CString ""])
      as (_ & _ & _ & H).
    apply H. reflexivity.
Defined.

(* ================================================================= *)
(** ** Accessibility preferences *)

(** C10. Without a window (server-side rendering) both preference queries
    return [false] and do not throw. *)
Theorem preferences_false_without_window :
  prefersReducedMotion None = Normal false
  /\ prefersHighContrast None = Normal false.
Proof.
  split; reflexivity.
Qed.

(* ================================================================= *)
(** ** The shortcut dispatcher *)

Section ShortcutFacts.

Lemma strictEqOpt_Some (x : string) (o : option string) :
  strictEqOpt (Some x) o = true <-> o = Some x.
Proof.
  destruct o as [y|]; simpl.
  - rewrite String.eqb_eq. split; [now intros -> | now intros [= ->]].
  - split; discriminate.
Qed.

Lemma eventMatches_exactMatch (text : string) (e : KeyboardEvent.t) :
  Shortcut.eventMatches (Shortcut.keys text) e = true <-> exactMatch text e.
Proof.
  unfold Shortcut.eventMatches, exactMatch, Shortcut.parse. cbv zeta.
  cbn [Shortcut.p_key Shortcut.p_ctrl Shortcut.p_alt Shortcut.p_shift Shortcut.p_meta].
  rewrite !andb_true_iff, strictEqOpt_Some, !Bool.eqb_true_iff.
  tauto.
Qed.

Lemma fire_not_nil (r : option nat) : Shortcut.fire r <> [].
Proof. destruct r; discriminate. Qed.

Lemma Button_handler_cases (props : Button.Props) (r : option nat)
      (text : string) (e : KeyboardEvent.t) :
  Shortcut.inTextEntry e = false ->
  Button.disabled props = false ->
  Button.isLoading props = false ->
  Button.handleGlobalKeyDown props r (Shortcut.keys text) e
  = if Shortcut.eventMatches (Shortcut.keys text) e then Shortcut.fire r else [].
Proof.
  intros Hf Hd Hl. unfold Button.handleGlobalKeyDown.
  rewrite Hf, Hd, Hl. simpl. now rewrite !andb_true_r.
Qed.


(** The listener that a truthy [keyboardShortcut] registers is the
    handler for the keys of that text. *)
Lemma Button_shortcutListener_registered (props : Button.Props) (r : option nat)
      (c : ascii) (text : string) :
  Button.keyboardShortcut props = Some (String c text) ->
  Button.shortcutListener props r
  = Some (Button.handleGlobalKeyDown props r (Shortcut.keys (String c text))).
Proof.
  intros H. unfold Button.shortcutListener. now rewrite H.
Qed.

Lemma Fab_shortcutListener_registered (props : Fab.Props) (r : option nat)
      (c : ascii) (text : string) :
  Fab.keyboardShortcut props = Some (String c text) ->
  Fab.shortcutListener props r
  = Some (Fab.handleGlobalKeyDown props r (Shortcut.keys (String c text))).
Proof.
  intros H. unfold Fab.shortcutListener. now rewrite H.
Qed.

End ShortcutFacts.



(** C3. A key event whose target is an [input], [textarea] or [select]
    element (whatever the case of the tag name) makes the handlers do
    nothing: no click, no [preventDefault], for every combination, every
    event and every state of the control. *)
Theorem shortcut_silent_in_text_entry
        (tag : string) (e : KeyboardEvent.t)
        (keys : list string) (r : option nat)
        (bp : Button.Props) (fp : Fab.Props) :
  KeyboardEvent.target e = Some (KeyboardEvent.mkTarget (Some tag)) ->
  In (JsString.toLowerCase tag) ["input"; "textarea"; "select"] ->
  Button.handleGlobalKeyDown bp r keys e = []
  /\ Fab.handleGlobalKeyDown fp r keys e = [].
Proof.
  intros Ht Hin.
  assert (Hg : Shortcut.inTextEntry e = true).
  { unfold Shortcut.inTextEntry, Shortcut.targetTag. rewrite Ht. simpl.
    destruct Hin as [<- | [<- | [<- | []]]]; reflexivity. }
  unfold Button.handleGlobalKeyDown, Fab.handleGlobalKeyDown.
  now rewrite Hg.
Qed.

Lemma shortcut_silent_in_text_entry_witness :
  Button.handleGlobalKeyDown
    (Button.mkProps false false false (Some "ctrl+k") None 600 None)
    (Some 7%nat) (Shortcut.keys "ctrl+k")
    (KeyboardEvent.mk "k" true false false false
       (Some (KeyboardEvent.mkTarget (Some "INPUT"))))
  = [].
Proof.
  apply (shortcut_silent_in_text_entry "INPUT"
           (KeyboardEvent.mk "k" true false false false
              (Some (KeyboardEvent.mkTarget (Some "INPUT"))))
           (Shortcut.keys "ctrl+k") (Some 7%nat)
           (Button.mkProps false false false (Some "ctrl+k") None 600 None)
           (Fab.mkProps false false (Some "ctrl+k") None)
           eq_refl).
  simpl. left. reflexivity.
Defined.

(** C5. A Button with [keyboardShortcut: "ctrl+k"], not disabled and not
    loading, on a ctrl+k keydown with the focus on the body: one
    [preventDefault] and one click of the control, and that click runs
    the consumer's action once. The same Button disabled, or loading: no
    effect at all. *)
Theorem ctrl_k_scenario (b : nat) (w : Window) (click : MouseEvent) (d : Page) :
  let enabled := Button.mkProps false false false (Some "ctrl+k") None 600 (Some ConsumerHandler) in
  let disabled := Button.mkProps true false false (Some "ctrl+k") None 600 (Some ConsumerHandler) in
  let loading := Button.mkProps false true false (Some "ctrl+k") None 600 (Some ConsumerHandler) in
  let e := keyEvent "k" true false false false in
  let run props :=
    match Button.shortcutListener props (Some b) with
    | Some h => h e
    | None => []
    end in
  run enabled = [PreventDefault; Click b]
  /\ List.length (filter isClick (run enabled)) = 1%nat
  /\ List.length (filter isPreventDefault (run enabled)) = 1%nat
  /\ (exists d', Button.click w enabled click d = Normal d'
                 /\ userClicks d' = S (userClicks d))
  /\ run disabled = []
  /\ run loading = [].
Proof.
  repeat split.
  eexists. split; reflexivity.
Qed.

(* ================================================================= *)
(** ** Parsing of combination texts *)

Section StringFacts.

Import JsString.

Lemma lowerChar_plus (c : ascii) :
  Ascii.eqb (lowerChar c) "+" = Ascii.eqb c "+".
Proof.
  destruct c as [[] [] [] [] [] [] [] []]; reflexivity.
Qed.

Lemma split_free (sep : ascii) (s : string) :
  free sep s = true -> split sep s = [s].
Proof.
  induction s as [|c s IH]; simpl; [reflexivity|].
  intros H. apply andb_true_iff in H as [Hc Hs].
  apply negb_true_iff in Hc. rewrite Hc, (IH Hs). reflexivity.
Qed.

Lemma split_app_sep (sep : ascii) (s rest : string) :
  free sep s = true ->
  split sep (s ++ String sep rest) = s :: split sep rest.
Proof.
  induction s as [|c s IH]; simpl.
  - intros _. now rewrite Ascii.eqb_refl.
  - intros H. apply andb_true_iff in H as [Hc Hs].
    apply negb_true_iff in Hc. rewrite Hc, (IH Hs). reflexivity.
Qed.

(** [split] undoes [join] on pieces without the separator. *)
Lemma split_join (l : list string) :
  l <> [] ->
  Forall (fun t => free "+" t = true) l ->
  split "+" (join "+" l) = l.
Proof.
  induction l as [|s r IH]; [congruence|].
  intros _ Hall. inversion Hall as [|? ? Hs Hr]; subst.
  destruct r as [|s' r'].
  - simpl. now apply split_free.
  - change (join "+" (s :: s' :: r'))
      with (s ++ String "+" (join "+" (s' :: r')))%string.
    rewrite (split_app_sep "+" s _ Hs), IH; [reflexivity | discriminate | exact Hr].
Qed.

Lemma includes_In (l : list string) (s : string) :
  includes l s = true <-> In s l.
Proof.
  unfold includes. rewrite existsb_exists. split.
  - intros (x & Hx & E). apply String.eqb_eq in E. now subst.
  - intros H. exists s. split; [exact H | apply String.eqb_refl].
Qed.

Lemma includes_Permutation (l l' : list string) (s : string) :
  Permutation l l' -> includes l s = includes l' s.
Proof.
  intros HP. apply Bool.eq_iff_eq_true. rewrite !includes_In.
  split; apply Permutation_in; [exact HP | now apply Permutation_sym].
Qed.

Lemma filter_Permutation {A} (f : A -> bool) (l l' : list A) :
  Permutation l l' -> Permutation (filter f l) (filter f l').
Proof.
  induction 1 as [|x l l' _ IH|x y l|l l' l'' _ IH1 _ IH2]; simpl.
  - constructor.
  - destruct (f x); [now constructor | exact IH].
  - destruct (f x), (f y); try apply Permutation_refl. apply perm_swap.
  - now apply Permutation_trans with (filter f l').
Qed.

Lemma filter_map {A B} (f : B -> bool) (g : A -> B) (l : list A) :
  filter f (map g l) = map g (filter (fun x => f (g x)) l).
Proof.
  induction l as [|x r IH]; simpl; [reflexivity|].
  destruct (f (g x)); simpl; now rewrite IH.
Qed.

End StringFacts.

Section ParseFacts.

Import JsString.

Lemma mainKey_single (ks : list string) (k : string) :
  filter (fun t => negb (includes Shortcut.modifierTokens t)) ks = [k] ->
  Shortcut.mainKey ks = Some k.
Proof.
  unfold Shortcut.mainKey. now intros ->.
Qed.

End ParseFacts.

Section CaseMappingFacts.

Import JsString.

Variable toLowerCase : string -> string.

Lemma split_not_nil (sep : ascii) (s : string) : split sep s <> [].
Proof.
  destruct s as [|c s]; simpl; [discriminate|].
  destruct (Ascii.eqb c sep); [discriminate|].
  destruct (split sep s); discriminate.
Qed.

(** A text that [split] leaves in one piece has no separator. *)
Lemma split_single_free (sep : ascii) (s : string) :
  List.length (split sep s) = 1%nat -> free sep s = true.
Proof.
  induction s as [|c s IH]; simpl; [reflexivity|].
  destruct (Ascii.eqb c sep) eqn:Ec.
  - simpl. pose proof (split_not_nil sep s) as Hne.
    destruct (split sep s); [congruence | discriminate].
  - simpl. destruct (split sep s) as [|t ts] eqn:Es.
    + now destruct (split_not_nil sep s).
    + intros H. apply IH. exact H.
Qed.

Lemma includes_mapped (toks : list string) (name : string) :
  includes (map toLowerCase toks) name = true
  <-> exists t, In t toks /\ toLowerCase t = name.
Proof.
  rewrite includes_In, in_map_iff. split; intros (t & H1 & H2); exists t; tauto.
Qed.

Lemma literal_mapped (toks : list string) :
  filter (fun t => negb (includes Shortcut.modifierTokens t)) (map toLowerCase toks)
  = map toLowerCase (filter (AnyCase.isLiteral toLowerCase) toks).
Proof.
  exact (filter_map (fun t => negb (includes Shortcut.modifierTokens t))
                    toLowerCase toks).
Qed.

Lemma map_sameLowered (l l' : list string) :
  Forall2 (AnyCase.sameLowered toLowerCase) l l' ->
  map toLowerCase l = map toLowerCase l'.
Proof.
  induction 1 as [|s t l l' Hst _ IH]; simpl; [reflexivity|].
  unfold AnyCase.sameLowered in Hst. now rewrite Hst, IH.
Qed.

Hypothesis piecewise : AnyCase.pieceWise toLowerCase.

(** A piecewise mapping neither makes nor takes a plus sign. *)
Lemma free_mapped (t : string) :
  free "+" (toLowerCase t) = free "+" t.
Proof.
  pose proof (piecewise t) as H.
  destruct (free "+" t) eqn:Ef.
  - rewrite (split_free "+" t Ef) in H. apply split_single_free.
    now rewrite H.
  - destruct (free "+" (toLowerCase t)) eqn:El; [|reflexivity].
    rewrite (split_free "+" _ El) in H.
    assert (Hl : List.length (split "+" t) = 1%nat).
    { rewrite <- (length_map toLowerCase), <- H. reflexivity. }
    apply split_single_free in Hl. congruence.
Qed.

(** The keys of a text written as tokens joined by [+]. *)
Lemma keys_joined (toks : list string) :
  toks <> [] ->
  Forall (fun t => free "+" t = true) toks ->
  AnyCase.keys toLowerCase (join "+" toks) = map toLowerCase toks.
Proof.
  intros Hne Hfree. unfold AnyCase.keys.
  now rewrite piecewise, (split_join toks Hne Hfree).
Qed.

Lemma sameLowered_free (l l' : list string) :
  Forall2 (AnyCase.sameLowered toLowerCase) l l' ->
  Forall (fun t => free "+" t = true) l ->
  Forall (fun t => free "+" t = true) l'.
Proof.
  induction 1 as [|s t l l' Hst _ IH]; intros Hall; [constructor|].
  inversion Hall as [|? ? Hs Hl]; subst. constructor; [|now apply IH].
  rewrite <- free_mapped. unfold AnyCase.sameLowered in Hst.
  now rewrite <- Hst, free_mapped.
Qed.

(** The keys of a permutation in another casing are a permutation of the
    keys. *)
Lemma keys_of_recased (toks permuted recased : list string) :
  toks <> [] ->
  Forall (fun t => free "+" t = true) toks ->
  Permutation toks permuted ->
  Forall2 (AnyCase.sameLowered toLowerCase) permuted recased ->
  AnyCase.keys toLowerCase (join "+" recased) = map toLowerCase permuted
  /\ Permutation (AnyCase.keys toLowerCase (join "+" toks))
                 (AnyCase.keys toLowerCase (join "+" recased)).
Proof.
  intros Hne Hfree HP HV.
  assert (Hlow : map toLowerCase permuted = map toLowerCase recased)
    by now apply map_sameLowered.
  assert (Hne' : recased <> []).
  { intros ->. inversion HV; subst. apply Permutation_sym, Permutation_nil in HP.
    contradiction. }
  assert (Hfree' : Forall (fun t => free "+" t = true) recased).
  { apply (sameLowered_free permuted recased HV).
    eapply Permutation_Forall; [exact HP | exact Hfree]. }
  rewrite (keys_joined toks Hne Hfree), (keys_joined recased Hne' Hfree'), <- Hlow.
  split; [reflexivity | now apply Permutation_map].
Qed.

End CaseMappingFacts.

(** [JsString.toLowerCase] works piece by piece. *)
Lemma toLowerCase_pieceWise : AnyCase.pieceWise JsString.toLowerCase.
Proof.
  intros s. induction s as [|c s IH]; [reflexivity|].
  cbn [JsString.toLowerCase JsString.split]. rewrite lowerChar_plus, IH.
  destruct (Ascii.eqb c "+"); [reflexivity|].
  destruct (JsString.split "+" s); reflexivity.
Qed.

Section Latin1Facts.

Lemma isLead_not_plus (c : ascii) : Latin1.isLead c = true -> Ascii.eqb c "+" = false.
Proof.
  unfold Latin1.isLead. intros H. apply Nat.eqb_eq in H.
  destruct (Ascii.eqb_spec c "+") as [->|]; [discriminate H | reflexivity].
Qed.

Lemma isUpperTail_not_plus (c : ascii) :
  Latin1.isUpperTail c = true ->
  Ascii.eqb c "+" = false
  /\ Ascii.eqb (ascii_of_nat (nat_of_ascii c + 32)) "+" = false.
Proof.
  destruct c as [[] [] [] [] [] [] [] []]; vm_compute; intros H;
    try discriminate H; split; reflexivity.
Qed.

(** The first piece of a text begins as the text does. *)
Lemma split_head (c : ascii) (r : string) :
  exists t ts, JsString.split "+" (String c r) = t :: ts
               /\ (t = EmptyString \/ exists t', t = String c t').
Proof.
  cbn [JsString.split]. destruct (Ascii.eqb c "+").
  - do 2 eexists. split; [reflexivity | now left].
  - destruct (JsString.split "+" r) as [|t ts];
      do 2 eexists; (split; [reflexivity | right; eexists; reflexivity]).
Qed.

Lemma Latin1_toLowerCase_cons (c : ascii) (t : string) :
  (forall c2 t', t = String c2 t' -> Latin1.isLead c && Latin1.isUpperTail c2 = false) ->
  Latin1.toLowerCase (String c t) = String (JsString.lowerChar c) (Latin1.toLowerCase t).
Proof.
  intros H. destruct t as [|c2 t']; [reflexivity|].
  cbn [Latin1.toLowerCase]. now rewrite (H c2 t' eq_refl).
Qed.

Lemma Latin1_pieceWise_upto (n : nat) :
  forall s, (String.length s <= n)%nat ->
            JsString.split "+" (Latin1.toLowerCase s)
            = map Latin1.toLowerCase (JsString.split "+" s).
Proof.
  induction n as [|n IH]; intros s Hn.
  - destruct s; [reflexivity | simpl in Hn; lia].
  - destruct s as [|c r]; [reflexivity|].
    destruct r as [|c2 r'].
    + cbn [Latin1.toLowerCase JsString.split]. rewrite lowerChar_plus.
      destruct (Ascii.eqb c "+"); reflexivity.
    + destruct (Latin1.isLead c && Latin1.isUpperTail c2) eqn:Ec.
      * apply andb_true_iff in Ec as [Hl Ht].
        pose proof (isLead_not_plus c Hl) as P1.
        destruct (isUpperTail_not_plus c2 Ht) as [P2 P3].
        assert (Hr' : (String.length r' <= n)%nat) by (simpl in Hn; lia).
        pose proof (IH r' Hr') as IHr. pose proof (split_not_nil "+" r') as Hne.
        assert (E : Latin1.toLowerCase (String c (String c2 r'))
                    = String c (String (ascii_of_nat (nat_of_ascii c2 + 32))
                                       (Latin1.toLowerCase r'))).
        { cbn [Latin1.toLowerCase]. now rewrite Hl, Ht. }
        rewrite E. cbn [JsString.split]. rewrite P1, P2, P3, IHr.
        destruct (JsString.split "+" r') as [|t ts]; [congruence|].
        cbn [map]. f_equal. cbn [Latin1.toLowerCase]. now rewrite Hl, Ht.
      * assert (E : Latin1.toLowerCase (String c (String c2 r'))
                    = String (JsString.lowerChar c)
                             (Latin1.toLowerCase (String c2 r'))).
        { apply Latin1_toLowerCase_cons. intros c3 t' [= <- <-]. exact Ec. }
        assert (Hr : (String.length (String c2 r') <= n)%nat) by (simpl in Hn |- *; lia).
        pose proof (IH _ Hr) as IHr.
        rewrite E.
        change (JsString.split "+" (String (JsString.lowerChar c)
                                            (Latin1.toLowerCase (String c2 r'))))
          with (if Ascii.eqb (JsString.lowerChar c) "+"
                then EmptyString :: JsString.split "+" (Latin1.toLowerCase (String c2 r'))
                else match JsString.split "+" (Latin1.toLowerCase (String c2 r')) with
                     | [] => [String (JsString.lowerChar c) EmptyString]
                     | t :: ts => String (JsString.lowerChar c) t :: ts
                     end).
        change (JsString.split "+" (String c (String c2 r')))
          with (if Ascii.eqb c "+"
                then EmptyString :: JsString.split "+" (String c2 r')
                else match JsString.split "+" (String c2 r') with
                     | [] => [String c EmptyString]
                     | t :: ts => String c t :: ts
                     end).
        rewrite lowerChar_plus, IHr.
        destruct (Ascii.eqb c "+"); [reflexivity|].
        destruct (split_head c2 r') as (t & ts & Hs & Ht). rewrite Hs.
        cbn [map]. f_equal. symmetry. apply Latin1_toLowerCase_cons.
        intros c3 t' ->. destruct Ht as [Ht | (t'' & Ht)]; [discriminate Ht|].
        injection Ht as <- _. exact Ec.
Qed.

Lemma Latin1_pieceWise : AnyCase.pieceWise Latin1.toLowerCase.
Proof.
  intros s. exact (Latin1_pieceWise_upto (String.length s) s (Nat.le_refl _)).
Qed.

End Latin1Facts.

(** At [JsString.toLowerCase] the definitions with the mapping left open
    are those of the handlers. *)
Lemma AnyCase_at_toLowerCase :
  AnyCase.keys JsString.toLowerCase = Shortcut.keys
  /\ AnyCase.parse JsString.toLowerCase = Shortcut.parse
  /\ AnyCase.isLiteral JsString.toLowerCase = Shortcut.isLiteral
  /\ AnyCase.inTextEntry JsString.toLowerCase = Shortcut.inTextEntry
  /\ AnyCase.eventMatches JsString.toLowerCase = Shortcut.eventMatches
  /\ AnyCase.Button_handleGlobalKeyDown JsString.toLowerCase
     = Button.handleGlobalKeyDown
  /\ AnyCase.Fab_handleGlobalKeyDown JsString.toLowerCase
     = Fab.handleGlobalKeyDown
  /\ (forall E, @AnyCase.handleKeyboardEvent JsString.toLowerCase E
                = @KeyActions.handleKeyboardEvent E).
Proof.
  repeat split.
Qed.

(** Moving modifier tokens around, with the other tokens left in their
    order, and changing the case of letters does not change what a text
    parses to, however many tokens are not modifiers. *)
Lemma parse_modifier_order_insensitive
      (toLowerCase : string -> string) (toks permuted recased : list string) :
  AnyCase.pieceWise toLowerCase ->
  toks <> [] ->
  Forall (fun t => JsString.free "+" t = true) toks ->
  Permutation toks permuted ->
  filter (AnyCase.isLiteral toLowerCase) permuted
  = filter (AnyCase.isLiteral toLowerCase) toks ->
  Forall2 (AnyCase.sameLowered toLowerCase) permuted recased ->
  AnyCase.parse toLowerCase (JsString.join "+" recased)
  = AnyCase.parse toLowerCase (JsString.join "+" toks).
Proof.
  intros Hpw Hne Hfree HP Hlit HV.
  destruct (keys_of_recased toLowerCase Hpw toks permuted recased Hne Hfree HP HV)
    as [Hkeys HK].
  unfold AnyCase.parse.
  unfold Shortcut.ctrlKey, Shortcut.altKey, Shortcut.shiftKey, Shortcut.metaKey.
  rewrite <- !(includes_Permutation _ _ _ HK).
  f_equal.
  unfold Shortcut.mainKey.
  rewrite Hkeys, (keys_joined toLowerCase Hpw toks Hne Hfree), !literal_mapped, Hlit.
  reflexivity.
Qed.

(** C6. A combination text made of tokens joined by [+], one of which is
    not a modifier name: every text obtained by permuting the tokens and
    writing them in another casing, in the letters of any alphabet,
    parses to the same four modifier flags and the same literal key. Two
    tokens are casings of one text when [toLowerCase] gives the same for
    both, and [toLowerCase] is any mapping that works piece by piece on a
    text with plus signs, as the built-in function does. The flags are
    set by the tokens [ctrl] or [control], [alt], [shift], and [meta],
    [cmd] or [command], in any casing; the literal key is the remaining
    token, lowered. *)
Theorem parse_case_and_order_insensitive
        (toLowerCase : string -> string) (toks permuted recased : list string) :
  AnyCase.pieceWise toLowerCase ->
  toks <> [] ->
  Forall (fun t => JsString.free "+" t = true) toks ->
  List.length (filter (AnyCase.isLiteral toLowerCase) toks) = 1%nat ->
  Permutation toks permuted ->
  Forall2 (AnyCase.sameLowered toLowerCase) permuted recased ->
  let C := AnyCase.parse toLowerCase (JsString.join "+" toks) in
  AnyCase.parse toLowerCase (JsString.join "+" recased) = C
  /\ (Shortcut.p_ctrl C = true
      <-> exists t, In t toks
                    /\ (toLowerCase t = "ctrl" \/ toLowerCase t = "control"))
  /\ (Shortcut.p_alt C = true <-> exists t, In t toks /\ toLowerCase t = "alt")
  /\ (Shortcut.p_shift C = true
      <-> exists t, In t toks /\ toLowerCase t = "shift")
  /\ (Shortcut.p_meta C = true
      <-> exists t, In t toks
                    /\ (toLowerCase t = "meta" \/ toLowerCase t = "cmd"
                        \/ toLowerCase t = "command"))
  /\ (exists k, filter (AnyCase.isLiteral toLowerCase) toks = [k]
                /\ Shortcut.p_key C = Some (toLowerCase k)).
Proof.
  intros Hpw Hne Hfree Hone HP HV C.
  destruct (keys_of_recased toLowerCase Hpw toks permuted recased Hne Hfree HP HV)
    as [_ HK].
  pose proof (keys_joined toLowerCase Hpw toks Hne Hfree) as Hkeys.
  assert (Hk : exists k, filter (AnyCase.isLiteral toLowerCase) toks = [k]).
  { destruct (filter (AnyCase.isLiteral toLowerCase) toks) as [|k [|k' r]];
      simpl in Hone; try discriminate. now exists k. }
  destruct Hk as (k & Hk).
  assert (Hmain : Shortcut.mainKey (AnyCase.keys toLowerCase (JsString.join "+" toks))
                  = Some (toLowerCase k)).
  { apply mainKey_single. rewrite Hkeys, literal_mapped, Hk. reflexivity. }
  split; [|repeat split].
  - subst C. unfold AnyCase.parse.
    unfold Shortcut.ctrlKey, Shortcut.altKey, Shortcut.shiftKey, Shortcut.metaKey.
    rewrite <- !(includes_Permutation _ _ _ HK).
    f_equal.
    rewrite Hmain. apply mainKey_single.
    apply Permutation_length_1_inv.
    apply (filter_Permutation
             (fun t => negb (JsString.includes Shortcut.modifierTokens t))) in HK.
    rewrite Hkeys, literal_mapped, Hk in HK. exact HK.
  - subst C. unfold AnyCase.parse, Shortcut.ctrlKey; simpl Shortcut.p_ctrl.
    rewrite Hkeys, orb_true_iff, !includes_mapped.
    intros [(t & ? & ?) | (t & ? & ?)]; exists t; tauto.
  - intros (t & Hin & Ht). subst C.
    unfold AnyCase.parse, Shortcut.ctrlKey; simpl Shortcut.p_ctrl.
    rewrite Hkeys, orb_true_iff, !includes_mapped.
    destruct Ht; [left | right]; exists t; tauto.
  - subst C. unfold AnyCase.parse, Shortcut.altKey; simpl Shortcut.p_alt.
    now rewrite Hkeys, includes_mapped.
  - subst C. unfold AnyCase.parse, Shortcut.altKey; simpl Shortcut.p_alt.
    now rewrite Hkeys, includes_mapped.
  - subst C. unfold AnyCase.parse, Shortcut.shiftKey; simpl Shortcut.p_shift.
    now rewrite Hkeys, includes_mapped.
  - subst C. unfold AnyCase.parse, Shortcut.shiftKey; simpl Shortcut.p_shift.
    now rewrite Hkeys, includes_mapped.
  - subst C. unfold AnyCase.parse, Shortcut.metaKey; simpl Shortcut.p_meta.
    rewrite Hkeys, !orb_true_iff, !includes_mapped.
    intros [[(t & ? & ?) | (t & ? & ?)] | (t & ? & ?)]; exists t; tauto.
  - intros (t & Hin & Ht). subst C.
    unfold AnyCase.parse, Shortcut.metaKey; simpl Shortcut.p_meta.
    rewrite Hkeys, !orb_true_iff, !includes_mapped.
    destruct Ht as [Ht | [Ht | Ht]]; [left; left | left; right | right];
      exists t; tauto.
  - exists k. split; [exact Hk | exact Hmain].
Qed.

Lemma parse_case_and_order_insensitive_witness :
  AnyCase.parse Latin1.toLowerCase "É+Ctrl+SHIFT"
  = AnyCase.parse Latin1.toLowerCase "ctrl+shift+é"
  /\ Shortcut.parse "S+Ctrl+SHIFT" = Shortcut.parse "ctrl+shift+s".
Proof.
  assert (HP : forall k : string,
             Permutation ["ctrl"; "shift"; k] [k; "ctrl"; "shift"]).
  { intros k. eapply perm_trans; [apply perm_skip, perm_swap | apply perm_swap]. }
  split.
  - assert (Hfree : Forall (fun t => JsString.free "+" t = true) ["ctrl"; "shift"; "é"])
      by (repeat constructor).
    assert (HV : Forall2 (AnyCase.sameLowered Latin1.toLowerCase)
                         ["é"; "ctrl"; "shift"] ["É"; "Ctrl"; "SHIFT"])
      by (repeat constructor).
    destruct (parse_case_and_order_insensitive Latin1.toLowerCase
                ["ctrl"; "shift"; "é"] ["é"; "ctrl"; "shift"] ["É"; "Ctrl"; "SHIFT"]
                Latin1_pieceWise ltac:(discriminate) Hfree eq_refl (HP "é") HV)
      as [H _].
    exact H.
  - assert (Hfree : Forall (fun t => JsString.free "+" t = true) ["ctrl"; "shift"; "s"])
      by (repeat constructor).
    assert (HV : Forall2 (AnyCase.sameLowered JsString.toLowerCase)
                         ["s"; "ctrl"; "shift"] ["S"; "Ctrl"; "SHIFT"])
      by (repeat constructor).
    destruct (parse_case_and_order_insensitive JsString.toLowerCase
                ["ctrl"; "shift"; "s"] ["s"; "ctrl"; "shift"] ["S"; "Ctrl"; "SHIFT"]
                toLowerCase_pieceWise ltac:(discriminate) Hfree eq_refl (HP "s") HV)
      as [H _].
    exact H.
Defined.

(* ================================================================= *)
(** ** The tree *)

Section TreeFacts.

Lemma querySelector_children (cls : string) i t c s kids :
  querySelector cls (Element i t c s kids) = scanChildren cls kids.
Proof.
  simpl. induction kids as [|k r IH]; simpl; [reflexivity | now rewrite IH].
Qed.

Lemma removeNode_children (id : nat) i t c s kids :
  removeNode id (Element i t c s kids)
  = Element i t c s (removeFromChildren id kids).
Proof.
  simpl. f_equal.
  induction kids as [|k r IH]; simpl; [reflexivity | now rewrite IH].
Qed.

Lemma removeAllByClass_children (cls : string) i t c s kids :
  removeAllByClass cls (Element i t c s kids)
  = Element i t c s (removeClassFromChildren cls kids).
Proof.
  simpl. f_equal.
  induction kids as [|k r IH]; simpl; [reflexivity | now rewrite IH].
Qed.

Lemma nodeAt_children (p : NodeRef) i t c s kids :
  p <> [] -> nodeAt p (Element i t c s kids) = nodeAtChildren p kids.
Proof. destruct p; [congruence | reflexivity]. Qed.

Lemma updateAt_children (p : NodeRef) (f : Node -> Node) i t c s kids :
  p <> [] ->
  updateAt p f (Element i t c s kids) = Element i t c s (updateChildren p f kids).
Proof. destruct p; [congruence | reflexivity]. Qed.

Lemma hasClass_updateAt (cls : string) (p : NodeRef) (f : Node -> Node) (n : Node) :
  p <> [] -> hasClass cls (updateAt p f n) = hasClass cls n.
Proof. destruct p; [congruence|]. destruct n; reflexivity. Qed.

(** What [querySelector] returns leads to an element with the class. *)
Lemma querySelector_sound (cls : string) (n : Node) :
  forall p, querySelector cls n = Some p ->
            p <> [] /\ exists c, nodeAt p n = Some c /\ hasClass cls c = true.
Proof.
  induction n as [i t c s kids IH] using Node_ind.
  intros p. rewrite querySelector_children. intros Hscan.
  assert (Hkids : p <> [] /\ exists x, nodeAtChildren p kids = Some x
                                       /\ hasClass cls x = true).
  { revert p Hscan. induction IH as [|k r Hk _ IHr]; intros p; simpl.
    - discriminate.
    - destruct (hasClass cls k) eqn:Ek.
      + intros [= <-]. split; [discriminate|]. exists k. now split.
      + destruct (querySelector cls k) as [q|] eqn:Eq.
        * intros [= <-]. split; [discriminate|].
          destruct (Hk q eq_refl) as (_ & x & Hx & Hc). now exists x.
        * destruct (scanChildren cls r) as [p'|] eqn:Er; [|discriminate].
          simpl. intros [= <-].
          destruct (IHr p' eq_refl) as (Hne & x & Hx & Hc).
          destruct p' as [|j q]; [congruence|].
          split; [discriminate|]. now exists x. }
  destruct Hkids as (Hne & x & Hx & Hc).
  split; [exact Hne|]. exists x. rewrite nodeAt_children by exact Hne. now split.
Qed.

(** A mutation below the element found does not change what is found. *)
Lemma querySelector_updateAt (cls : string) (f : Node -> Node) (n : Node) :
  (forall x, hasClass cls (f x) = hasClass cls x) ->
  forall p, querySelector cls n = Some p ->
            querySelector cls (updateAt p f n) = Some p.
Proof.
  intros Hf.
  induction n as [i t c s kids IH] using Node_ind.
  intros p Hq.
  destruct (querySelector_sound cls _ p Hq) as (Hne & _).
  rewrite updateAt_children by exact Hne.
  rewrite querySelector_children in *.
  revert p Hq Hne. induction IH as [|k r Hk _ IHr]; intros p; simpl.
  - discriminate.
  - destruct (hasClass cls k) eqn:Ek.
    + intros [= <-] _. simpl. now rewrite Hf, Ek.
    + destruct (querySelector cls k) as [q|] eqn:Eq.
      * intros [= <-] _. simpl.
        destruct (querySelector_sound cls k q Eq) as (Hq & _).
        rewrite hasClass_updateAt by exact Hq.
        now rewrite Ek, (Hk q eq_refl).
      * destruct (scanChildren cls r) as [p'|] eqn:Er; [|discriminate].
        simpl. intros [= <-] _.
        destruct p' as [|j q].
        { assert (Hs : querySelector cls (Element i t c s r) = Some [])
            by now rewrite querySelector_children.
          destruct (querySelector_sound cls _ [] Hs) as (Habs & _).
          congruence. }
        simpl. rewrite Ek, Eq.
        assert (Hj : (j :: q) <> []) by discriminate.
        specialize (IHr (j :: q) eq_refl Hj). simpl in IHr.
        now rewrite IHr.
Qed.

End TreeFacts.

Section TreeMutation.

Lemma nth_error_updateNth {A} (g : A -> A) (l : list A) :
  forall i x, nth_error l i = Some x ->
              nth_error (updateNth i g l) i = Some (g x).
Proof.
  induction l as [|y r IH]; intros [|i] x; simpl; try discriminate.
  - now intros [= ->].
  - apply IH.
Qed.

Lemma list_sum_updateNth {A} (m : A -> nat) (g : A -> A) (l : list A) :
  forall i x, nth_error l i = Some x ->
              (list_sum (map m (updateNth i g l)) + m x
               = list_sum (map m l) + m (g x))%nat.
Proof.
  induction l as [|y r IH]; intros [|i] x; simpl; try discriminate.
  - intros [= ->]. lia.
  - intros H. specialize (IH i x H). lia.
Qed.

(** Reading back a mutated element. *)
Lemma nodeAt_updateAt (f : Node -> Node) (p : NodeRef) :
  forall n c, nodeAt p n = Some c -> nodeAt p (updateAt p f n) = Some (f c).
Proof.
  induction p as [|i q IH]; intros n c; simpl.
  - now intros [= ->].
  - destruct n as [id t cl s kids]; simpl.
    destruct (nth_error kids i) as [k|] eqn:Ek; [|discriminate].
    intros Hk. rewrite (nth_error_updateNth (updateAt q f) kids i k Ek).
    now apply IH.
Qed.

(** The size of the tree changes by what the mutated element changes. *)
Lemma nodeCount_updateAt (f : Node -> Node) (p : NodeRef) :
  forall n c, nodeAt p n = Some c ->
              (nodeCount (updateAt p f n) + nodeCount c
               = nodeCount n + nodeCount (f c))%nat.
Proof.
  induction p as [|i q IH]; intros n c; simpl.
  - intros [= ->]. lia.
  - destruct n as [id t cl s kids]; simpl.
    destruct (nth_error kids i) as [k|] eqn:Ek; [|discriminate].
    intros Hk. specialize (IH k c Hk).
    pose proof (list_sum_updateNth nodeCount (updateAt q f) kids i k Ek).
    lia.
Qed.

Lemma nodeCount_appendChild (child parent : Node) :
  nodeCount (appendChild child parent)
  = (nodeCount parent + nodeCount child)%nat.
Proof.
  destruct parent as [id t cl s kids]; simpl.
  rewrite map_app, list_sum_app. simpl. lia.
Qed.

Lemma hasClass_appendChild (cls : string) (child parent : Node) :
  hasClass cls (appendChild child parent) = hasClass cls parent.
Proof. destruct parent; reflexivity. Qed.

Lemma hasClass_removeAllByClass (cls cls' : string) (n : Node) :
  hasClass cls (removeAllByClass cls' n) = hasClass cls n.
Proof. destruct n; reflexivity. Qed.

Lemma scanChildren_append (cls : string) (c : Node) (l : list Node) :
  hasClass cls c = true ->
  scanChildren cls l = None ->
  scanChildren cls (l ++ [c]) = Some [List.length l].
Proof.
  intros Hc. induction l as [|k r IH]; simpl.
  - now rewrite Hc.
  - destruct (hasClass cls k); [discriminate|].
    destruct (querySelector cls k); [discriminate|].
    destruct (scanChildren cls r); [discriminate|].
    intros _. now rewrite IH.
Qed.

(** A container appended to a host that has none is the one found. *)
Lemma querySelector_appendChild (cls : string) (c n : Node) :
  hasClass cls c = true ->
  querySelector cls n = None ->
  querySelector cls (appendChild c n) = Some [List.length (childNodes n)].
Proof.
  destruct n as [id t cl s kids]. simpl appendChild. simpl childNodes.
  rewrite !querySelector_children. apply scanChildren_append.
Qed.

Lemma nodeAt_appendChild (c n : Node) :
  nodeAt [List.length (childNodes n)] (appendChild c n) = Some c.
Proof.
  destruct n as [id t cl s kids]. simpl.
  rewrite nth_error_app2, Nat.sub_diag by lia. reflexivity.
Qed.

Lemma nodeId_in_nodeIds (n : Node) : In (nodeId n) (nodeIds n).
Proof. destruct n; simpl; now left. Qed.

(** [remove()] on a node that is not in the tree changes nothing. *)
Lemma removeNode_absent (id : nat) (n : Node) :
  ~ In id (nodeIds n) -> removeNode id n = n.
Proof.
  induction n as [i t c s kids IH] using Node_ind.
  rewrite removeNode_children. simpl nodeIds. intros Hno.
  f_equal.
  assert (Hkids : ~ In id (flat_map nodeIds kids)) by (intros H; apply Hno; now right).
  clear Hno. induction IH as [|k r Hk _ IHr]; simpl; [reflexivity|].
  simpl in Hkids. rewrite in_app_iff in Hkids.
  destruct (Nat.eqb_spec (nodeId k) id) as [E|E].
  - exfalso. apply Hkids. left. rewrite <- E. apply nodeId_in_nodeIds.
  - rewrite Hk by tauto. rewrite IHr by tauto. reflexivity.
Qed.

(** After the clearing no descendant carries the class. *)
Lemma countClassBelow_removeAllByClass (cls : string) (n : Node) :
  countClassBelow cls (removeAllByClass cls n) = 0%nat.
Proof.
  induction n as [i t c s kids IH] using Node_ind.
  rewrite removeAllByClass_children. unfold countClassBelow. simpl childNodes.
  induction IH as [|k r Hk _ IHr]; simpl; [reflexivity|].
  destruct (hasClass cls k) eqn:Ek; [exact IHr|].
  simpl. rewrite IHr.
  destruct k as [ki kt kc ks kk].
  rewrite removeAllByClass_children in *.
  unfold countClassBelow in Hk. simpl childNodes in Hk.
  cbn [countClass]. fold countClass.
  change (hasClass cls (Element ki kt kc ks (removeClassFromChildren cls kk)))
    with (hasClass cls (Element ki kt kc ks kk)).
  rewrite Ek, Hk. reflexivity.
Qed.

Lemma countClassBelow_appendChild (cls : string) (child parent : Node) :
  countClassBelow cls (appendChild child parent)
  = (countClassBelow cls parent + countClass cls child)%nat.
Proof.
  destruct parent as [id t cl s kids]. unfold countClassBelow. simpl.
  rewrite map_app, list_sum_app. simpl. lia.
Qed.

End TreeMutation.

(* ================================================================= *)
(** ** Numbers: the rounding of the operations *)

(** The operations on [float] are specified by [SpecFloat]: the exact
    result, a mantissa and an exponent, goes through [binary_round_aux],
    which shifts the mantissa to the right until it has 53 digits, rounds
    it by what was shifted out, and shifts once more if the rounding gave
    a digit more. The lemmas follow the mantissa through the shifts and
    bound what they change; which way the rounding goes is not looked
    at, so that the bounds hold for rounding to the nearest number and
    are wider than the best ones. *)
Section NumberFacts.

Local Open Scope Q_scope.

Lemma pow2_pos (e : Z) : 0 < pow2 e.
Proof. apply Qpower_0_lt. reflexivity. Qed.

Lemma pow2_add (a b : Z) : pow2 (a + b) == pow2 a * pow2 b.
Proof. apply Qpower_plus. discriminate. Qed.

Lemma pow2_le (a b : Z) : (a <= b)%Z -> pow2 a <= pow2 b.
Proof. intros H. apply Qpower_le_compat_l; [exact H | discriminate]. Qed.

Lemma pow2_lt_inv (a b : Z) : pow2 a < pow2 b -> (a < b)%Z.
Proof. intros H. apply (Qpower_lt_compat_l_inv 2); [exact H | reflexivity]. Qed.

Lemma pow2_Z (n : Z) : (0 <= n)%Z -> pow2 n == inject_Z (2 ^ n).
Proof. intros H. symmetry. apply (Zpower_Qpower 2 n H). Qed.

Lemma pow2_succ (e : Z) : pow2 (e + 1) == 2 * pow2 e.
Proof. rewrite pow2_add. unfold pow2 at 2. rewrite Qpower_1_r. ring. Qed.

(** The binary digits of a mantissa. *)
Lemma digits2_bounds (p : positive) :
  (2 ^ (Zpos (digits2_pos p) - 1) <= Zpos p < 2 ^ Zpos (digits2_pos p))%Z.
Proof.
  induction p as [p IH|p IH|]; cbn [digits2_pos].
  - rewrite Pos2Z.inj_succ.
    replace (Z.succ (Zpos (digits2_pos p)) - 1)%Z with (Z.succ (Zpos (digits2_pos p) - 1))%Z by lia.
    rewrite !Z.pow_succ_r by lia. lia.
  - rewrite Pos2Z.inj_succ.
    replace (Z.succ (Zpos (digits2_pos p)) - 1)%Z with (Z.succ (Zpos (digits2_pos p) - 1))%Z by lia.
    rewrite !Z.pow_succ_r by lia. lia.
  - simpl. lia.
Qed.

Lemma Zdigits2_bounds (m : Z) :
  (0 < m)%Z -> (2 ^ (Zdigits2 m - 1) <= m < 2 ^ Zdigits2 m)%Z /\ (1 <= Zdigits2 m)%Z.
Proof.
  destruct m as [|p|p]; try lia. intros _. simpl. split; [apply digits2_bounds | lia].
Qed.

Lemma Zdigits2_Q (m : Z) :
  (0 < m)%Z -> pow2 (Zdigits2 m - 1) <= inject_Z m /\ inject_Z m < pow2 (Zdigits2 m).
Proof.
  intros H. destruct (Zdigits2_bounds m H) as [[H1 H2] H3].
  rewrite !pow2_Z by lia. rewrite <- Zle_Qle, <- Zlt_Qlt. lia.
Qed.

(** A shift to the right halves the mantissa. *)
Lemma shr_1_m (mrs : shr_record) :
  (0 <= shr_m mrs)%Z -> shr_m (shr_1 mrs) = (shr_m mrs / 2)%Z.
Proof.
  destruct mrs as [m r s]. cbn [shr_m]. intros H.
  destruct m as [|[p|p|]|p]; cbn [shr_1 shr_m]; try lia.
  all: try reflexivity.
  - apply (Z.div_unique _ 2 _ 1); lia.
  - apply (Z.div_unique _ 2 _ 0); lia.
Qed.

Lemma pow2_xI (p : positive) : (2 ^ Zpos p~1 = 2 * (2 ^ Zpos p * 2 ^ Zpos p))%Z.
Proof.
  change (Zpos p~1) with (Z.succ (2 * Zpos p)).
  rewrite Z.pow_succ_r by lia. now rewrite Z.pow_twice_r.
Qed.

Lemma pow2_xO (p : positive) : (2 ^ Zpos p~0 = 2 ^ Zpos p * 2 ^ Zpos p)%Z.
Proof.
  change (Zpos p~0) with (2 * Zpos p)%Z. now rewrite Z.pow_twice_r.
Qed.

Lemma iter_shr_1_m (p : positive) :
  forall mrs, (0 <= shr_m mrs)%Z ->
  shr_m (iter_pos shr_1 p mrs) = (shr_m mrs / 2 ^ Zpos p)%Z
  /\ (0 <= shr_m (iter_pos shr_1 p mrs))%Z.
Proof.
  induction p as [p IH|p IH|]; intros mrs H; cbn [iter_pos].
  - assert (H1 : (0 <= shr_m (shr_1 mrs))%Z).
    { rewrite shr_1_m by exact H. apply Z.div_pos; lia. }
    assert (Hp : (0 < 2 ^ Zpos p)%Z) by (apply Z.pow_pos_nonneg; lia).
    destruct (IH _ H1) as [E1 P1]. destruct (IH _ P1) as [E2 P2].
    split; [|exact P2]. rewrite E2, E1, shr_1_m by exact H.
    rewrite pow2_xI, !Z.div_div by lia. reflexivity.
  - assert (Hp : (0 < 2 ^ Zpos p)%Z) by (apply Z.pow_pos_nonneg; lia).
    destruct (IH _ H) as [E1 P1]. destruct (IH _ P1) as [E2 P2].
    split; [|exact P2]. rewrite E2, E1.
    rewrite pow2_xO, !Z.div_div by lia. reflexivity.
  - split.
    + rewrite shr_1_m by exact H. reflexivity.
    + rewrite shr_1_m by exact H. apply Z.div_pos; lia.
Qed.

Lemma shr_record_of_loc_m (m : Z) (l : location) : shr_m (shr_record_of_loc m l) = m.
Proof. destruct l as [|[]]; reflexivity. Qed.

Lemma shr_spec (mrs : shr_record) (e n : Z) :
  (0 <= shr_m mrs)%Z ->
  ((n <= 0)%Z -> shr mrs e n = (mrs, e))
  /\ ((0 < n)%Z -> snd (shr mrs e n) = (e + n)%Z
                   /\ shr_m (fst (shr mrs e n)) = (shr_m mrs / 2 ^ n)%Z).
Proof.
  intros H. split; intros Hn.
  - destruct n; try lia; reflexivity.
  - destruct n as [|p|p]; try lia. cbn [shr fst snd].
    split; [reflexivity|]. apply iter_shr_1_m. exact H.
Qed.

Lemma round_nearest_even_cases (m : Z) (l : location) :
  round_nearest_even m l = m \/ round_nearest_even m l = (m + 1)%Z.
Proof.
  destruct l as [|[]]; cbn [round_nearest_even]; auto.
  destruct (Z.even m); auto.
Qed.

(** A shift by [n] digits loses less than one unit of the new last
    place. *)
Lemma shr_value (m e n : Z) :
  (0 <= m)%Z -> (0 <= n)%Z ->
  Fval (m / 2 ^ n) (e + n) <= Fval m e /\ Fval m e < Fval (m / 2 ^ n + 1) (e + n).
Proof.
  intros Hm Hn. unfold Fval.
  assert (Hp : (0 < 2 ^ n)%Z) by (apply Z.pow_pos_nonneg; lia).
  pose proof (Z.div_mod m (2 ^ n) ltac:(lia)) as Hdm.
  pose proof (Z.mod_pos_bound m (2 ^ n) Hp) as Hr.
  set (q := (m / 2 ^ n)%Z) in *. set (r := (m mod 2 ^ n)%Z) in *.
  rewrite (pow2_add e n), (pow2_Z n Hn).
  pose proof (pow2_pos e) as He.
  assert (Hq : inject_Z m == inject_Z (2 ^ n) * inject_Z q + inject_Z r).
  { rewrite <- inject_Z_mult, <- inject_Z_plus. now rewrite <- Hdm. }
  assert (Hr1 : 0 <= inject_Z r) by (rewrite <- (Zle_Qle 0); lia).
  assert (Hr2 : inject_Z r < inject_Z (2 ^ n)) by (rewrite <- Zlt_Qlt; lia).
  rewrite inject_Z_plus. rewrite Hq.
  set (P := inject_Z (2 ^ n)) in *. set (Q := inject_Z q) in *. set (R := inject_Z r) in *.
  set (E := pow2 e) in *. change (inject_Z 1) with 1.
  split; nra.
Qed.

Lemma fexp_eq (e : Z) : fexp prec emax e = Z.max (e - 53) (-1074).
Proof. reflexivity. Qed.

(** The shift that leaves at most 53 digits, and none below [2^-1074]. *)
Lemma shr_fexp_spec (m e : Z) (l : location) :
  (0 <= m)%Z ->
  let n := Z.max 0 (fexp prec emax (Zdigits2 m + e) - e) in
  snd (shr_fexp prec emax m e l) = (e + n)%Z
  /\ shr_m (fst (shr_fexp prec emax m e l)) = (m / 2 ^ n)%Z.
Proof.
  intros Hm n. unfold shr_fexp.
  set (k := (fexp prec emax (Zdigits2 m + e) - e)%Z) in *.
  assert (H0 : (0 <= shr_m (shr_record_of_loc m l))%Z)
    by now rewrite shr_record_of_loc_m.
  destruct (shr_spec (shr_record_of_loc m l) e k H0) as [Hle Hgt].
  destruct (Z_le_gt_dec k 0) as [Hk|Hk].
  - rewrite (Hle Hk). cbn [fst snd]. subst n. rewrite Z.max_l by lia.
    rewrite shr_record_of_loc_m, Z.pow_0_r, Z.div_1_r. split; [lia | reflexivity].
  - destruct (Hgt ltac:(lia)) as [E1 E2]. subst n. rewrite Z.max_r by lia.
    rewrite E1, E2, shr_record_of_loc_m. split; reflexivity.
Qed.

Lemma pow2_m52 : pow2 (-52) == u52.
Proof. reflexivity. Qed.

Lemma pow2_max (a b : Z) : pow2 (Z.max a b) <= pow2 a + pow2 b.
Proof.
  pose proof (pow2_pos a). pose proof (pow2_pos b).
  destruct (Z.max_spec a b) as [[_ ->]|[_ ->]]; lra.
Qed.

(** The unit of the last place of what [m * 2^e] is rounded to. *)
Lemma pow2_fexp (m e : Z) :
  (0 < m)%Z ->
  pow2 (fexp prec emax (Zdigits2 m + e)) <= Fval m e * u52 + pow2 (-1074).
Proof.
  intros Hm. rewrite fexp_eq.
  eapply Qle_trans; [apply pow2_max|].
  apply Qplus_le_l.
  replace (Zdigits2 m + e - 53)%Z with ((Zdigits2 m - 1) + (e + -52))%Z by lia.
  rewrite pow2_add, pow2_add, pow2_m52.
  destruct (Zdigits2_Q m Hm) as [H1 _].
  unfold Fval. pose proof (pow2_pos e).
  assert (0 < u52) by reflexivity.
  set (E := pow2 e) in *. set (D := pow2 (Zdigits2 m - 1)) in *.
  set (M := inject_Z m) in *.
  assert (D * E <= M * E) by nra.
  nra.
Qed.

Lemma Fval_nonneg (m e : Z) : (0 <= m)%Z -> 0 <= Fval m e.
Proof.
  intros H. unfold Fval. pose proof (pow2_pos e).
  assert (0 <= inject_Z m) by (rewrite <- (Zle_Qle 0); exact H). nra.
Qed.

Lemma Fval_succ (m e : Z) : Fval (m + 1) e == Fval m e + pow2 e.
Proof. unfold Fval. rewrite inject_Z_plus. change (inject_Z 1) with 1. ring. Qed.

(** The rounding of [m * 2^ex], for an exponent [ex] that is not above
    the one of the result: below [2^1023] the result is finite, has the
    sign [sx] unless it is zero, and differs from [m * 2^ex] by at most
    the part [2^-50] of it, or [2^-1072] next to zero. *)
Lemma binary_round_aux_bound (sx : bool) (m ex : Z) (lx : location) :
  (0 <= m)%Z ->
  (ex <= fexp prec emax (Zdigits2 m + ex))%Z ->
  Fval m ex < pow2 1023 ->
  let r := binary_round_aux prec emax sx m ex lx in
  SFfinite r = true
  /\ (SFabs_value r == 0 \/ SFsign r = sx)
  /\ Qabs (SFabs_value r - Fval m ex) <= Fval m ex * pow2 (-50) + pow2 (-1072)
  /\ Qabs (SFabs_value r - Fval m ex) <= 2 * pow2 (fexp prec emax (Zdigits2 m + ex)) + (Fval m ex + pow2 (fexp prec emax (Zdigits2 m + ex))) * u52 + pow2 (-1074).
Proof.
  intros Hm Hex HV r. subst r. unfold binary_round_aux.
  destruct (shr_fexp_spec m ex lx Hm) as [E1 M1].
  destruct (shr_fexp prec emax m ex lx) as [mrs' e'] eqn:Es1.
  cbn [fst snd] in E1, M1.
  set (e1 := fexp prec emax (Zdigits2 m + ex)) in *.
  rewrite Z.max_r in E1, M1 by lia.
  replace (ex + (e1 - ex))%Z with e1 in E1 by lia. subst e'.
  set (n1 := (e1 - ex)%Z) in *.
  set (m1 := (m / 2 ^ n1)%Z) in *.
  assert (Hm1 : (0 <= m1)%Z) by (apply Z.div_pos; [lia | apply Z.pow_pos_nonneg; lia]).
  set (m2 := round_nearest_even (shr_m mrs') (loc_of_shr_record mrs')).
  assert (Hm2 : m2 = m1 \/ m2 = (m1 + 1)%Z).
  { subst m2. rewrite M1. apply round_nearest_even_cases. }
  assert (Hm2' : (0 <= m2)%Z) by lia.
  destruct (shr_fexp_spec m2 e1 loc_Exact Hm2') as [E2 M2].
  destruct (shr_fexp prec emax m2 e1 loc_Exact) as [mrs'' e''] eqn:Es2.
  cbn [fst snd] in E2, M2.
  set (n2 := Z.max 0 (fexp prec emax (Zdigits2 m2 + e1) - e1)) in *.
  set (m3 := (m2 / 2 ^ n2)%Z) in *.
  assert (Hn2 : (0 <= n2)%Z) by lia.
  assert (Hm3 : (0 <= m3)%Z) by (apply Z.div_pos; [lia | apply Z.pow_pos_nonneg; lia]).
  (* values *)
  destruct (shr_value m ex n1 Hm ltac:(lia)) as [V1 V2].
  replace (ex + n1)%Z with e1 in V1, V2 by lia. fold m1 in V1, V2.
  destruct (shr_value m2 e1 n2 Hm2' Hn2) as [W1 W2].
  fold m3 in W1, W2. rewrite <- E2 in W1, W2.
  rewrite Fval_succ in V2, W2.
  set (V := Fval m ex) in *.
  assert (HV0 : 0 <= V) by now apply Fval_nonneg.
  assert (HVm2 : Qabs (Fval m2 e1 - V) <= pow2 e1).
  { apply Qabs_Qle_condition. pose proof (pow2_pos e1).
    destruct Hm2 as [-> | ->]; [|rewrite Fval_succ]; split; lra. }
  apply Qabs_Qle_condition in HVm2.
  (* size of the units *)
  assert (He1 : pow2 e1 <= V * u52 + pow2 (-1074)).
  { destruct (Z.eq_dec m 0) as [->|Hne].
    - subst e1. cbn [Zdigits2] in *. rewrite fexp_eq in *.
      assert (Heq : Z.max (0 + ex - 53) (-1074) = (-1074)%Z) by lia.
      rewrite Heq. assert (0 < u52) by reflexivity. nra.
    - apply pow2_fexp. lia. }
  assert (He2 : pow2 e'' <= pow2 e1 + Fval m2 e1 * u52 + pow2 (-1074)).
  { rewrite E2. subst n2.
    pose proof (pow2_pos e1). pose proof (pow2_pos (-1074)).
    assert (0 < u52) by reflexivity.
    pose proof (Fval_nonneg m2 e1 Hm2').
    destruct (Z.max_spec 0 (fexp prec emax (Zdigits2 m2 + e1) - e1)) as [[_ ->]|[_ ->]].
    - replace (e1 + (fexp prec emax (Zdigits2 m2 + e1) - e1))%Z
        with (fexp prec emax (Zdigits2 m2 + e1)) by lia.
      destruct (Z.eq_dec m2 0) as [E0|Hne].
      + rewrite E0 in *. cbn [Zdigits2] in *. rewrite fexp_eq in *.
        eapply Qle_trans; [apply pow2_max|].
        assert (pow2 (0 + e1 - 53) <= pow2 e1) by (apply pow2_le; lia).
        nra.
      + pose proof (pow2_fexp m2 e1 ltac:(lia)). nra.
    - rewrite Z.add_0_r. nra. }
  assert (Hfin : (e'' <= 971)%Z).
  { assert (Hb1 : (e1 <= 970)%Z).
    { subst e1. rewrite fexp_eq.
      destruct (Z.eq_dec m 0) as [->|Hne]; [cbn [Zdigits2] in *|].
      - rewrite fexp_eq in Hex. lia.
      - destruct (Zdigits2_Q m ltac:(lia)) as [D1 _].
        assert (pow2 (Zdigits2 m - 1 + ex) < pow2 1023).
        { rewrite pow2_add. eapply Qle_lt_trans; [|exact HV].
          subst V. unfold Fval. pose proof (pow2_pos ex). nra. }
        apply pow2_lt_inv in H. lia. }
    rewrite E2. subst n2. rewrite fexp_eq.
    destruct (Z.eq_dec m2 0) as [E0|Hne]; [rewrite E0; cbn [Zdigits2]; lia|].
    destruct (Zdigits2_Q m2 ltac:(lia)) as [D1 _].
    assert (pow2 (Zdigits2 m2 - 1 + e1) < pow2 1024).
    { rewrite pow2_add.
      assert (pow2 (Zdigits2 m2 - 1) * pow2 e1 <= Fval m2 e1).
      { unfold Fval. pose proof (pow2_pos e1). nra. }
      assert (pow2 e1 <= pow2 1023) by (apply pow2_le; lia).
      change 1024%Z with (1023 + 1)%Z. rewrite pow2_succ. lra. }
    apply pow2_lt_inv in H. lia. }
  (* the result *)
  assert (Hval : Qabs (Fval m3 e'' - V)
                 <= 2 * pow2 e1 + (V + pow2 e1) * u52 + pow2 (-1074)).
  { apply Qabs_Qle_condition. pose proof (pow2_pos e''). pose proof (pow2_pos e1).
    assert (0 < u52) by reflexivity. pose proof (pow2_pos (-1074)).
    split.
    - assert (Fval m2 e1 * u52 <= (V + pow2 e1) * u52) by nra. lra.
    - unfold u52 in *. lra. }
  assert (Hres : Qabs (Fval m3 e'' - V) <= V * pow2 (-50) + pow2 (-1072)).
  { eapply Qle_trans; [exact Hval|].
    assert (Hc1 : pow2 (-50) == 4 * u52) by reflexivity.
    assert (Hc2 : pow2 (-1072) == 4 * pow2 (-1074)) by reflexivity.
    rewrite Hc1, Hc2.
    pose proof (pow2_pos (-1074)). pose proof (pow2_pos e1).
    unfold u52 in *. lra. }
  rewrite M2. fold m3.
  destruct m3 as [|p|p]; [| |lia].
  - cbn [SFfinite SFabs_value SFsign]. split; [reflexivity|]. split; [left; reflexivity|].
    unfold Fval in Hres, Hval. simpl inject_Z in Hres, Hval. rewrite Qmult_0_l in Hres, Hval.
    split; [exact Hres | exact Hval].
  - assert (Hle : (e'' <=? emax - prec)%Z = true) by (apply Z.leb_le; change (emax - prec)%Z with 971%Z; lia).
    rewrite Hle. cbn [SFfinite SFabs_value SFsign].
    split; [reflexivity|]. split; [right; reflexivity|]. split; [exact Hres | exact Hval].
Qed.

#[global] Instance signed_Proper (s : bool) : Proper (Qeq ==> Qeq) (signed s).
Proof. intros a b H. destruct s; cbn [signed]; now rewrite H. Qed.

Lemma SF2Q_signed (x : spec_float) (s : bool) :
  SFabs_value x == 0 \/ SFsign x = s ->
  SF2Q x == signed s (SFabs_value x).
Proof.
  destruct x as [s'|s'| |s' m e]; cbn [SF2Q SFabs_value SFsign signed];
    try (intros _; destruct s; reflexivity).
  intros [H| ->]; [|reflexivity].
  destruct s, s'; cbn [signed]; rewrite H; reflexivity.
Qed.

Lemma Qabs_signed (s : bool) (a b : Q) :
  Qabs (signed s a - signed s b) == Qabs (a - b).
Proof.
  destruct s; cbn [signed]; [|reflexivity].
  rewrite <- (Qabs_opp (a - b)). apply Qabs_wd. ring.
Qed.

(** The same with the sign. *)
Lemma binary_round_aux_signed (sx : bool) (m ex : Z) (lx : location) :
  (0 <= m)%Z ->
  (ex <= fexp prec emax (Zdigits2 m + ex))%Z ->
  Fval m ex < pow2 1023 ->
  let r := binary_round_aux prec emax sx m ex lx in
  SFfinite r = true
  /\ Qabs (SF2Q r - signed sx (Fval m ex)) <= Fval m ex * pow2 (-50) + pow2 (-1072)
  /\ Qabs (SF2Q r - signed sx (Fval m ex))
     <= 2 * pow2 (fexp prec emax (Zdigits2 m + ex))
        + (Fval m ex + pow2 (fexp prec emax (Zdigits2 m + ex))) * u52 + pow2 (-1074).
Proof.
  intros Hm Hex HV r.
  destruct (binary_round_aux_bound sx m ex lx Hm Hex HV) as (Hf & Hs & Hb & Hb').
  fold r in Hf, Hs, Hb, Hb'.
  split; [exact Hf|].
  rewrite (SF2Q_signed r sx Hs), Qabs_signed. split; assumption.
Qed.

(** A shift of the mantissa to the left keeps the value. *)
Lemma iter_xO (d : positive) (m : positive) :
  Zpos (Pos.iter xO m d) = (Zpos m * 2 ^ Zpos d)%Z.
Proof.
  induction d as [|d IH] using Pos.peano_ind.
  - simpl. lia.
  - rewrite Pos.iter_succ, Pos2Z.inj_xO, IH, Pos2Z.inj_succ, Z.pow_succ_r by lia. lia.
Qed.

Lemma shl_align_spec (m : positive) (e e' : Z) :
  let '(m', f) := shl_align m e e' in
  f = Z.min e e' /\ Zpos m' = (Zpos m * 2 ^ (e - f))%Z.
Proof.
  unfold shl_align. destruct (e' - e)%Z as [|d|d] eqn:Ed.
  - split; [lia|]. replace (e - e)%Z with 0%Z by lia. simpl. lia.
  - split; [lia|]. replace (e - e)%Z with 0%Z by lia. simpl. lia.
  - split; [lia|]. rewrite iter_xO. f_equal. f_equal. lia.
Qed.

Lemma Fval_shift (m e k : Z) :
  (0 <= k)%Z -> Fval (m * 2 ^ k) (e - k) == Fval m e.
Proof.
  intros Hk. unfold Fval. rewrite inject_Z_mult, <- (pow2_Z k Hk).
  replace e with ((e - k) + k)%Z at 2 by lia. rewrite (pow2_add (e - k) k). ring.
Qed.

Lemma Zdigits2_unique (m d : Z) :
  (0 < m)%Z -> (2 ^ (d - 1) <= m < 2 ^ d)%Z -> (1 <= d)%Z -> Zdigits2 m = d.
Proof.
  intros Hm [H1 H2] Hd. destruct (Zdigits2_bounds m Hm) as [[B1 B2] B3].
  assert ((d - 1 < Zdigits2 m)%Z).
  { apply (Z.pow_lt_mono_r_iff 2); lia. }
  assert ((Zdigits2 m - 1 < d)%Z).
  { apply (Z.pow_lt_mono_r_iff 2); lia. }
  lia.
Qed.

Lemma Zdigits2_shift (m k : Z) :
  (0 < m)%Z -> (0 <= k)%Z -> Zdigits2 (m * 2 ^ k) = (Zdigits2 m + k)%Z.
Proof.
  intros Hm Hk. destruct (Zdigits2_bounds m Hm) as [[B1 B2] B3].
  assert (Hp : (0 < 2 ^ k)%Z) by (apply Z.pow_pos_nonneg; lia).
  apply Zdigits2_unique; [nia| |lia].
  replace (Zdigits2 m + k - 1)%Z with ((Zdigits2 m - 1) + k)%Z by lia.
  rewrite !Z.pow_add_r by lia. nia.
Qed.

Lemma Zdigits2_lower (m k : Z) :
  (0 <= k)%Z -> (2 ^ k <= m)%Z -> (k + 1 <= Zdigits2 m)%Z.
Proof.
  intros Hk H.
  assert (Hm : (0 < m)%Z) by (pose proof (Z.pow_pos_nonneg 2 k); lia).
  destruct (Zdigits2_bounds m Hm) as [[B1 B2] B3].
  assert ((k < Zdigits2 m)%Z) by (apply (Z.pow_lt_mono_r_iff 2); lia).
  lia.
Qed.

(** [binary_round] and [binary_normalize]: an integer times a power of
    two, rounded. *)
Lemma binary_round_bound (sx : bool) (m : positive) (ex : Z) :
  Fval (Zpos m) ex < pow2 1023 ->
  let r := binary_round prec emax sx m ex in
  SFfinite r = true
  /\ Qabs (SF2Q r - signed sx (Fval (Zpos m) ex))
     <= Fval (Zpos m) ex * pow2 (-50) + pow2 (-1072).
Proof.
  intros HV r. subst r. unfold binary_round.
  pose proof (shl_align_spec m ex (fexp prec emax (Zpos (digits2_pos m) + ex))) as Hs.
  destruct (shl_align m ex (fexp prec emax (Zpos (digits2_pos m) + ex))) as [mz ez].
  destruct Hs as [Hez Hmz].
  set (e1 := fexp prec emax (Zpos (digits2_pos m) + ex)) in *.
  assert (Hval : Fval (Zpos mz) ez == Fval (Zpos m) ex).
  { rewrite Hmz. replace ez with (ex - (ex - ez))%Z at 2 by lia.
    apply Fval_shift. lia. }
  assert (Hd : (Zdigits2 (Zpos mz) + ez = Zpos (digits2_pos m) + ex)%Z).
  { rewrite Hmz, Zdigits2_shift by lia. simpl Zdigits2. lia. }
  assert (Hex : (ez <= fexp prec emax (Zdigits2 (Zpos mz) + ez))%Z).
  { rewrite Hd. fold e1. lia. }
  destruct (binary_round_aux_signed sx (Zpos mz) ez loc_Exact ltac:(lia) Hex)
    as (Hf & Hb & _).
  { now rewrite Hval. }
  split; [exact Hf|]. rewrite <- Hval. exact Hb.
Qed.

Lemma binary_normalize_bound (m e : Z) (szero : bool) :
  Qabs (Fval m e) < pow2 1023 ->
  let r := binary_normalize prec emax m e szero in
  SFfinite r = true
  /\ Qabs (SF2Q r - Fval m e) <= Qabs (Fval m e) * pow2 (-50) + pow2 (-1072).
Proof.
  intros HV r. subst r. pose proof (pow2_pos e) as He.
  destruct m as [|p|p]; cbn [binary_normalize].
  - cbn [SFfinite SF2Q]. split; [reflexivity|].
    unfold Fval. simpl inject_Z. rewrite Qmult_0_l.
    change (Qabs (0 - 0)) with 0. change (Qabs 0) with 0.
    pose proof (pow2_pos (-1072)). lra.
  - assert (Hpos : 0 <= Fval (Zpos p) e) by (apply Fval_nonneg; lia).
    rewrite (Qabs_pos _ Hpos) in *.
    exact (binary_round_bound false p e HV).
  - assert (Hneg : Fval (Zneg p) e == - Fval (Zpos p) e).
    { unfold Fval. change (Zneg p) with (- Zpos p)%Z. rewrite inject_Z_opp. ring. }
    assert (Hpos : 0 <= Fval (Zpos p) e) by (apply Fval_nonneg; lia).
    assert (Habs : Qabs (Fval (Zneg p) e) == Fval (Zpos p) e).
    { rewrite Hneg, Qabs_opp. now apply Qabs_pos. }
    rewrite Habs in *. rewrite Hneg.
    exact (binary_round_bound true p e HV).
Qed.

Lemma Fval_sub (a b e : Z) : Fval (a - b) e == Fval a e - Fval b e.
Proof. unfold Fval, Z.sub. rewrite inject_Z_plus, inject_Z_opp. ring. Qed.

Lemma Fval_cond_Zopp (s : bool) (m e : Z) :
  Fval (cond_Zopp s m) e == signed s (Fval m e).
Proof.
  destruct s; cbn [cond_Zopp signed]; [|reflexivity].
  unfold Fval. rewrite inject_Z_opp. ring.
Qed.

Lemma Fval_pos (m : positive) (e : Z) : 0 < Fval (Zpos m) e.
Proof.
  unfold Fval. pose proof (pow2_pos e).
  assert (0 < inject_Z (Zpos m)) by (rewrite <- (Zlt_Qlt 0); lia). nra.
Qed.

Lemma shl_align_value (m : positive) (e e' : Z) :
  (e' <= e)%Z -> Fval (Zpos (fst (shl_align m e e'))) e' == Fval (Zpos m) e.
Proof.
  intros H. pose proof (shl_align_spec m e e') as Hs.
  destruct (shl_align m e e') as [m' f]. destruct Hs as [Hf Hm]. cbn [fst].
  rewrite Hm. replace (e - f)%Z with (e - e')%Z by lia.
  replace e' with (e - (e - e'))%Z at 2 by lia. apply Fval_shift. lia.
Qed.

(** The bound that the three operations share. *)
Lemma rounded_of_tight (exact result : Q) :
  Qabs (result - exact) <= Qabs exact * pow2 (-50) + pow2 (-1072) ->
  rounded exact result.
Proof.
  intros H. unfold rounded. eapply Qle_trans; [exact H|].
  pose proof (Qabs_nonneg exact).
  assert (pow2 (-50) == 1 # 1125899906842624) by reflexivity.
  assert (pow2 (-49) == 1 # 562949953421312) by reflexivity.
  assert (pow2 (-1071) == 2 * pow2 (-1072)) by reflexivity.
  pose proof (pow2_pos (-1072)).
  rewrite H1, H2, H3. lra.
Qed.

Lemma rounded_exact (exact result : Q) : result == exact -> rounded exact result.
Proof.
  intros H. unfold rounded.
  assert (E : result - exact == 0) by (rewrite H; ring).
  rewrite E. change (Qabs 0) with 0.
  pose proof (Qabs_nonneg exact). pose proof (pow2_pos (-1071)).
  assert (0 < pow2 (-49)) by apply pow2_pos. nra.
Qed.

(** Subtraction: the difference of two mantissas at the smaller of the
    two exponents, rounded. *)
Lemma SFsub_bound (x y : spec_float) :
  SFfinite x = true -> SFfinite y = true ->
  Qabs (SF2Q x - SF2Q y) < pow2 1023 ->
  SFfinite (SFsub prec emax x y) = true
  /\ rounded (SF2Q x - SF2Q y) (SF2Q (SFsub prec emax x y)).
Proof.
  intros Hx Hy HV.
  destruct x as [sx|sx| |sx mx ex]; try discriminate;
    destruct y as [sy|sy| |sy my ey]; try discriminate.
  - split.
    + destruct sx, sy; reflexivity.
    + apply rounded_exact. destruct sx, sy; reflexivity.
  - split; [reflexivity|]. apply rounded_exact.
    cbn [SFsub SF2Q]. destruct sy; cbn [negb signed]; ring.
  - split; [reflexivity|]. apply rounded_exact. cbn [SFsub SF2Q]. ring.
  - cbn [SFsub].
    set (ez := Z.min ex ey).
    set (m := (cond_Zopp sx (Zpos (fst (shl_align mx ex ez)))
               - cond_Zopp sy (Zpos (fst (shl_align my ey ez))))%Z).
    assert (Hm : Fval m ez == SF2Q (S754_finite sx mx ex) - SF2Q (S754_finite sy my ey)).
    { subst m. rewrite Fval_sub, !Fval_cond_Zopp.
      rewrite (shl_align_value mx ex ez), (shl_align_value my ey ez) by (subst ez; lia).
      reflexivity. }
    rewrite <- Hm in HV.
    destruct (binary_normalize_bound m ez false HV) as [Hf Hb].
    split; [exact Hf|]. apply rounded_of_tight. rewrite <- Hm. exact Hb.
Qed.

(** A mantissa as [Prim2SF] gives it has 53 digits, or fewer at the
    exponent [-1074]. *)
Lemma canonical_cases (m : positive) (e : Z) :
  SpecFloat.canonical_mantissa prec emax m e = true ->
  (Zpos (digits2_pos m) = 53 /\ (-1074 <= e)%Z)%Z
  \/ (e = (-1074)%Z /\ (Zpos (digits2_pos m) <= 53)%Z).
Proof.
  unfold SpecFloat.canonical_mantissa. intros H. apply Z.eqb_eq in H.
  rewrite fexp_eq in H. lia.
Qed.

(** Multiplication: the product of the mantissas at the sum of the
    exponents, rounded. *)
Lemma SFmul_bound (x y : spec_float) :
  SFfinite x = true -> SFfinite y = true ->
  SpecFloat.valid_binary prec emax x = true ->
  SpecFloat.valid_binary prec emax y = true ->
  Qabs (SF2Q x * SF2Q y) < pow2 1023 ->
  SFfinite (SFmul prec emax x y) = true
  /\ rounded (SF2Q x * SF2Q y) (SF2Q (SFmul prec emax x y)).
Proof.
  intros Hx Hy Vx Vy HV.
  destruct x as [sx|sx| |sx mx ex]; try discriminate;
    destruct y as [sy|sy| |sy my ey]; try discriminate;
    try (split; [reflexivity | apply rounded_exact; cbn [SFmul SF2Q]; ring]).
  cbn [SFmul].
  cbn [SpecFloat.valid_binary] in Vx, Vy. unfold SpecFloat.bounded in Vx, Vy.
  apply andb_true_iff in Vx as [Cx _]. apply andb_true_iff in Vy as [Cy _].
  apply canonical_cases in Cx, Cy.
  assert (Hprod : SF2Q (S754_finite sx mx ex) * SF2Q (S754_finite sy my ey)
                  == signed (xorb sx sy) (Fval (Zpos (mx * my)) (ex + ey))).
  { cbn [SF2Q]. unfold Fval. rewrite Pos2Z.inj_mul, inject_Z_mult, pow2_add.
    destruct sx, sy; cbn [signed xorb]; ring. }
  assert (Habs : Qabs (SF2Q (S754_finite sx mx ex) * SF2Q (S754_finite sy my ey))
                 == Fval (Zpos (mx * my)) (ex + ey)).
  { rewrite Hprod. pose proof (Fval_pos (mx * my) (ex + ey)).
    destruct (xorb sx sy); cbn [signed]; [rewrite Qabs_opp|]; apply Qabs_pos; lra. }
  assert (Hdig : (Zpos (digits2_pos mx) + Zpos (digits2_pos my) - 1
                  <= Zdigits2 (Zpos (mx * my)))%Z).
  { pose proof (digits2_bounds mx) as [Bx _]. pose proof (digits2_bounds my) as [By _].
    replace (Zpos (digits2_pos mx) + Zpos (digits2_pos my) - 1)%Z
      with ((Zpos (digits2_pos mx) - 1) + (Zpos (digits2_pos my) - 1) + 1)%Z by lia.
    apply Zdigits2_lower; [lia|].
    rewrite Z.pow_add_r by lia. rewrite Pos2Z.inj_mul.
    assert (0 < 2 ^ (Zpos (digits2_pos mx) - 1))%Z by (apply Z.pow_pos_nonneg; lia).
    assert (0 < 2 ^ (Zpos (digits2_pos my) - 1))%Z by (apply Z.pow_pos_nonneg; lia).
    nia. }
  assert (Hex : (ex + ey <= fexp prec emax (Zdigits2 (Zpos (mx * my)) + (ex + ey)))%Z).
  { rewrite fexp_eq. lia. }
  rewrite Habs in HV.
  destruct (binary_round_aux_signed (xorb sx sy) (Zpos (mx * my)) (ex + ey) loc_Exact
              ltac:(lia) Hex HV) as (Hf & Hb & _).
  split; [exact Hf|]. apply rounded_of_tight. rewrite Habs, Hprod. exact Hb.
Qed.

Lemma fexp_mono (a b : Z) : (a <= b)%Z -> (fexp prec emax a <= fexp prec emax b)%Z.
Proof. rewrite !fexp_eq. lia. Qed.

(** Division: the quotient of the mantissas, the dividend shifted to the
    left for enough digits, and the exact quotient less than one unit of
    the last place above it. *)
Lemma SFdiv_core_binary_spec (m1 m2 : positive) (e1 e2 : Z) :
  let '(q, e', l) := SFdiv_core_binary prec emax (Zpos m1) e1 (Zpos m2) e2 in
  (0 <= q)%Z
  /\ (e' <= fexp prec emax (Zdigits2 q + e'))%Z
  /\ Fval q e' <= Fval (Zpos m1) e1 / Fval (Zpos m2) e2
  /\ Fval (Zpos m1) e1 / Fval (Zpos m2) e2 < Fval q e' + pow2 e'.
Proof.
  unfold SFdiv_core_binary.
  set (d1 := Zdigits2 (Zpos m1)). set (d2 := Zdigits2 (Zpos m2)).
  set (X := (d1 + e1 - (d2 + e2))%Z).
  set (e' := Z.min (fexp prec emax X) (e1 - e2)).
  set (s := (e1 - e2 - e')%Z).
  assert (Hs : (0 <= s)%Z) by (subst s e'; lia).
  set (m' := match s with
             | Zpos _ => Z.shiftl (Zpos m1) s
             | Z0 => Zpos m1
             | Zneg _ => Z0
             end).
  assert (Hm' : m' = (Zpos m1 * 2 ^ s)%Z).
  { subst m'. destruct s as [|p|p]; try lia.
    now rewrite Z.shiftl_mul_pow2 by lia. }
  pose proof (Z_div_mod m' (Zpos m2) ltac:(lia)) as Hdm.
  destruct (Z.div_eucl m' (Zpos m2)) as [q r]. destruct Hdm as [Hq Hr].
  assert (Hp : (0 < 2 ^ s)%Z) by (apply Z.pow_pos_nonneg; lia).
  assert (Hq0 : (0 <= q)%Z) by nia.
  destruct (Zdigits2_bounds (Zpos m1) ltac:(lia)) as [[A1 A2] A3]. fold d1 in A1, A2, A3.
  destruct (Zdigits2_bounds (Zpos m2) ltac:(lia)) as [[B1 B2] B3]. fold d2 in B1, B2, B3.
  split; [exact Hq0|]. split.
  - (* the exponent is fine enough *)
    assert (Hlow : (2 ^ (d1 - 1 + s) <= m')%Z).
    { rewrite Hm', Z.pow_add_r by lia. nia. }
    destruct (Z.eq_dec q 0) as [->|Hq1].
    + cbn [Zdigits2]. rewrite fexp_eq.
      assert (Hlt : (2 ^ (d1 - 1 + s) < 2 ^ d2)%Z) by lia.
      apply Z.pow_lt_mono_r_iff in Hlt; [|lia|lia].
      assert (HX : (X <= e')%Z) by (subst X s; lia).
      assert (He' : (e' <= fexp prec emax X)%Z) by (subst e'; lia).
      rewrite fexp_eq in He'. lia.
    + assert (Hdq : (d1 + s - d2 <= Zdigits2 q)%Z).
      { destruct (Z_le_gt_dec (d1 + s - d2) 1) as [Hsmall|Hbig].
        - destruct (Zdigits2_bounds q ltac:(lia)) as [_ Q3]. lia.
        - replace (d1 + s - d2)%Z with ((d1 - 1 + s - d2) + 1)%Z by lia.
          apply Zdigits2_lower; [lia|].
          assert (Hmul : (2 ^ (d1 - 1 + s) = 2 ^ (d1 - 1 + s - d2) * 2 ^ d2)%Z).
          { rewrite <- Z.pow_add_r by lia. f_equal. lia. }
          assert (0 < 2 ^ (d1 - 1 + s - d2))%Z by (apply Z.pow_pos_nonneg; lia).
          assert (0 < 2 ^ d2)%Z by (apply Z.pow_pos_nonneg; lia).
          (* (q + 1) * m2 > m' >= 2^k * 2^d2 > 2^k * m2 *)
          assert (2 ^ (d1 - 1 + s - d2) * Zpos m2 < (q + 1) * Zpos m2)%Z by nia.
          assert (2 ^ (d1 - 1 + s - d2) < q + 1)%Z by nia.
          lia. }
      assert (HX : (X <= Zdigits2 q + e')%Z) by (subst X s; lia).
      apply fexp_mono in HX. subst e'. lia.
  - (* the value *)
    pose proof (Fval_pos m2 e2) as P2.
    assert (Hexp : pow2 e1 == pow2 s * pow2 e' * pow2 e2).
    { rewrite <- !pow2_add. replace (s + e' + e2)%Z with e1 by (subst s; lia).
      reflexivity. }
    assert (Hnum : Fval (Zpos m1) e1
                   == (inject_Z (Zpos m2) * inject_Z q + inject_Z r) * pow2 e' * pow2 e2).
    { unfold Fval. rewrite Hexp, <- inject_Z_mult, <- inject_Z_plus, <- Hq, Hm'.
      rewrite inject_Z_mult, (pow2_Z s Hs). ring. }
    assert (Hr0 : 0 <= inject_Z r) by (rewrite <- (Zle_Qle 0); lia).
    assert (Hr1 : inject_Z r < inject_Z (Zpos m2)) by (rewrite <- Zlt_Qlt; lia).
    pose proof (pow2_pos e'). pose proof (pow2_pos e2).
    assert (P3 : 0 < inject_Z (Zpos m2)) by (rewrite <- (Zlt_Qlt 0); lia).
    split.
    + apply Qle_shift_div_l; [exact P2|]. rewrite Hnum. unfold Fval.
      set (M := inject_Z (Zpos m2)) in *. set (Qq := inject_Z q) in *.
      set (R := inject_Z r) in *. set (E' := pow2 e') in *. set (E2 := pow2 e2) in *.
      assert (0 <= R * E' * E2) by (assert (0 <= R * E') by nra; nra).
      nra.
    + apply Qlt_shift_div_r; [exact P2|]. rewrite Hnum. unfold Fval.
      set (M := inject_Z (Zpos m2)) in *. set (Qq := inject_Z q) in *.
      set (R := inject_Z r) in *. set (E' := pow2 e') in *. set (E2 := pow2 e2) in *.
      assert (R * E' * E2 < M * E' * E2).
      { assert (R * E' < M * E') by nra. nra. }
      nra.
Qed.

Lemma SFdiv_bound (x y : spec_float) :
  SFfinite x = true -> SFfinite y = true ->
  ~ SF2Q y == 0 ->
  Qabs (SF2Q x / SF2Q y) < pow2 1023 ->
  SFfinite (SFdiv prec emax x y) = true
  /\ rounded (SF2Q x / SF2Q y) (SF2Q (SFdiv prec emax x y)).
Proof.
  intros Hx Hy Hy0 HV.
  destruct x as [sx|sx| |sx mx ex]; try discriminate;
    destruct y as [sy|sy| |sy my ey]; try discriminate;
    try (exfalso; apply Hy0; reflexivity).
  - split; [reflexivity|]. apply rounded_exact. cbn [SFdiv SF2Q].
    unfold Qdiv. ring.
  - cbn [SFdiv].
    pose proof (SFdiv_core_binary_spec mx my ex ey) as Hc.
    destruct (SFdiv_core_binary prec emax (Zpos mx) ex (Zpos my) ey) as [[q e'] l].
    destruct Hc as (Hq & Hex & V1 & V2).
    pose proof (Fval_pos mx ex) as Px. pose proof (Fval_pos my ey) as Py.
    set (v := Fval (Zpos mx) ex / Fval (Zpos my) ey) in *.
    assert (Hv0 : 0 < v).
    { subst v. apply Qlt_shift_div_l; [exact Py | lra]. }
    assert (Hquot : SF2Q (S754_finite sx mx ex) / SF2Q (S754_finite sy my ey)
                    == signed (xorb sx sy) v).
    { cbn [SF2Q]. subst v.
      destruct sx, sy; cbn [signed xorb]; field; lra. }
    assert (Habs : Qabs (SF2Q (S754_finite sx mx ex) / SF2Q (S754_finite sy my ey)) == v).
    { rewrite Hquot.
      destruct (xorb sx sy); cbn [signed]; [rewrite Qabs_opp|]; apply Qabs_pos; lra. }
    rewrite Habs in HV.
    destruct (binary_round_aux_signed (xorb sx sy) q e' l Hq Hex) as (Hf & _ & Hb).
    { lra. }
    split; [exact Hf|].
    unfold rounded. rewrite Habs, Hquot.
    set (r := SF2Q (binary_round_aux prec emax (xorb sx sy) q e' l)) in *.
    set (ef := fexp prec emax (Zdigits2 q + e')) in *.
    assert (He : pow2 e' <= pow2 ef) by (apply pow2_le; exact Hex).
    assert (Hef : pow2 ef <= Fval q e' * u52 + pow2 (-1074)).
    { destruct (Z.eq_dec q 0) as [E0|Hne].
      - subst ef. rewrite E0 in *. cbn [Zdigits2] in *. rewrite fexp_eq in *.
        assert (Heq : Z.max (0 + e' - 53) (-1074) = (-1074)%Z) by lia.
        rewrite Heq. unfold Fval. simpl inject_Z. rewrite !Qmult_0_l. lra.
      - apply pow2_fexp. lia. }
    assert (Hq0 : 0 <= Fval q e') by now apply Fval_nonneg.
    assert (Hc1 : pow2 (-49) == 8 * u52) by reflexivity.
    assert (Hc2 : pow2 (-1071) == 8 * pow2 (-1074)) by reflexivity.
    rewrite Hc1, Hc2.
    pose proof (pow2_pos (-1074)). pose proof (pow2_pos ef). pose proof (pow2_pos e').
    apply Qabs_Qle_condition in Hb. apply Qabs_Qle_condition.
    unfold u52 in *. clearbody r. clear Hf Hquot Habs.
    destruct (xorb sx sy); cbn [signed] in *; split; lra.
Qed.

(** The operators of the code on finite numbers. *)
Lemma Number_sub_bound (a b : float) :
  Number.isFinite a = true -> Number.isFinite b = true ->
  Qabs (Number.toQ a - Number.toQ b) < pow2 1023 ->
  Number.isFinite (a - b) = true
  /\ rounded (Number.toQ a - Number.toQ b) (Number.toQ (a - b)).
Proof.
  unfold Number.isFinite, Number.toQ. rewrite sub_spec. apply SFsub_bound.
Qed.

Lemma Number_mul_bound (a b : float) :
  Number.isFinite a = true -> Number.isFinite b = true ->
  Qabs (Number.toQ a * Number.toQ b) < pow2 1023 ->
  Number.isFinite (a * b) = true
  /\ rounded (Number.toQ a * Number.toQ b) (Number.toQ (a * b)).
Proof.
  unfold Number.isFinite, Number.toQ. rewrite mul_spec. intros Ha Hb.
  apply SFmul_bound; try assumption; apply Prim2SF_valid.
Qed.

Lemma Number_div_bound (a b : float) :
  Number.isFinite a = true -> Number.isFinite b = true ->
  ~ Number.toQ b == 0 ->
  Qabs (Number.toQ a / Number.toQ b) < pow2 1023 ->
  Number.isFinite (a / b) = true
  /\ rounded (Number.toQ a / Number.toQ b) (Number.toQ (a / b)).
Proof.
  unfold Number.isFinite, Number.toQ. rewrite div_spec. apply SFdiv_bound.
Qed.

(** The rounding of a result of at most [4 * bound]. *)
Lemma rounded_within (exact result bound : Q) :
  rounded exact result -> 1 <= bound -> Qabs exact <= 4 * bound ->
  Qabs (result - exact) <= bound * pow2 (-46).
Proof.
  unfold rounded. intros H HB HE. eapply Qle_trans; [exact H|].
  assert (C1 : pow2 (-49) == 1 # 562949953421312) by reflexivity.
  assert (C2 : pow2 (-46) == 1 # 70368744177664) by reflexivity.
  assert (C3 : pow2 (-1071) <= 1 # 562949953421312).
  { change (1 # 562949953421312) with (pow2 (-49)). apply pow2_le. lia. }
  rewrite C1, C2. pose proof (Qabs_nonneg exact). lra.
Qed.

(** Such a result is far from the largest number. *)
Lemma below_overflow (q bound : Q) :
  Qabs q <= 4 * bound -> bound <= pow2 1000 -> Qabs q < pow2 1023.
Proof.
  intros Hq HB.
  assert (H1 : pow2 1002 == 4 * pow2 1000).
  { change 1002%Z with (2 + 1000)%Z. rewrite pow2_add. reflexivity. }
  assert (H2 : pow2 1002 < pow2 1023).
  { apply Qpower_lt_compat_l; [lia | reflexivity]. }
  lra.
Qed.

Lemma half_eq (q : Q) : q / 2 == q * (1 # 2).
Proof. reflexivity. Qed.

Lemma Number_two : Number.isFinite 2 = true /\ Number.toQ 2 == 2.
Proof. split; reflexivity. Qed.

(** The offset [point - origin - size / 2] puts the middle of a box of
    that size at [point - origin], up to the rounding of the three
    operations. *)
Lemma offset_centered (point origin size : float) (bound : Q) :
  Number.isFinite point = true ->
  Number.isFinite origin = true ->
  Number.isFinite size = true ->
  1 <= bound -> bound <= pow2 1000 ->
  Qabs (Number.toQ point - Number.toQ origin) <= bound ->
  Qabs (Number.toQ size) <= 3 * bound ->
  let x := (point - origin - size / 2)%float in
  Number.isFinite x = true
  /\ Qabs (Number.toQ x + Number.toQ size / 2
           - (Number.toQ point - Number.toQ origin))
     <= bound * pow2 (-44).
Proof.
  intros Hp Ho Hs HB1 HB2 Hd Hsz x. subst x.
  destruct Number_two as [F2 V2].
  set (eps := bound * pow2 (-46)).
  assert (Heps : 0 <= eps /\ eps <= bound * (1 # 4)
                 /\ bound * pow2 (-44) == 4 * eps).
  { subst eps.
    assert (C1 : pow2 (-46) == 1 # 70368744177664) by reflexivity.
    assert (C2 : pow2 (-44) == 1 # 17592186044416) by reflexivity.
    rewrite C1, C2. repeat split; lra. }
  destruct Heps as (E0 & E1 & E2).
  (* point - origin *)
  destruct (Number_sub_bound point origin Hp Ho) as [Fd Rd].
  { apply (below_overflow _ bound); [lra | exact HB2]. }
  apply (fun H => rounded_within _ _ bound H HB1) in Rd; [|lra].
  fold eps in Rd.
  (* size / 2 *)
  assert (Hhalf : Number.toQ size / Number.toQ 2 == Number.toQ size / 2)
    by now rewrite V2.
  assert (Hhabs : Qabs (Number.toQ size / 2) <= 4 * bound
                  /\ Qabs (Number.toQ size / 2) <= bound * (3 # 2)).
  { assert (Hq : Qabs (Number.toQ size / 2) == Qabs (Number.toQ size) * (1 # 2)).
    { unfold Qdiv. rewrite Qabs_Qmult. reflexivity. }
    rewrite Hq. split; lra. }
  destruct (Number_div_bound size 2 Hs F2) as [Fh Rh].
  { rewrite V2. discriminate. }
  { rewrite Hhalf. apply (below_overflow _ bound); [tauto | exact HB2]. }
  apply (fun H => rounded_within _ _ bound H HB1) in Rh; [|rewrite Hhalf; tauto].
  fold eps in Rh. rewrite Hhalf in Rh. rewrite half_eq in Rh, Hhabs |- *.
  (* the difference of the two *)
  apply Qabs_Qle_condition in Rd, Rh, Hd.
  destruct Hhabs as [_ Hhabs]. apply Qabs_Qle_condition in Hhabs.
  assert (Hx : Qabs (Number.toQ (point - origin) - Number.toQ (size / 2)) <= 4 * bound).
  { apply Qabs_Qle_condition. split; lra. }
  destruct (Number_sub_bound (point - origin) (size / 2) Fd Fh) as [Fx Rx].
  { apply (below_overflow _ bound); [exact Hx | exact HB2]. }
  apply (fun H => rounded_within _ _ bound H HB1) in Rx; [|exact Hx].
  fold eps in Rx. apply Qabs_Qle_condition in Rx.
  split; [exact Fx|].
  rewrite E2. apply Qabs_Qle_condition. split; lra.
Qed.

(** Of two canonical mantissas the one with the larger exponent is the
    larger number. *)
Lemma canonical_exponent_lt (m1 m2 : positive) (e1 e2 : Z) :
  SpecFloat.canonical_mantissa prec emax m1 e1 = true ->
  SpecFloat.canonical_mantissa prec emax m2 e2 = true ->
  (e1 < e2)%Z ->
  Fval (Zpos m1) e1 < Fval (Zpos m2) e2.
Proof.
  intros C1 C2 He. apply canonical_cases in C1, C2.
  assert (D2 : Zpos (digits2_pos m2) = 53%Z) by lia.
  assert (D1 : (Zpos (digits2_pos m1) <= 53)%Z) by lia.
  pose proof (digits2_bounds m1) as [_ B1]. pose proof (digits2_bounds m2) as [B2 _].
  rewrite D2 in B2.
  assert (B1' : (Zpos m1 < 2 ^ 53)%Z).
  { eapply Z.lt_le_trans; [exact B1|]. apply Z.pow_le_mono_r; lia. }
  unfold Fval.
  assert (Q1 : inject_Z (Zpos m1) < inject_Z (2 ^ 53)) by (rewrite <- Zlt_Qlt; exact B1').
  assert (Q2 : inject_Z (2 ^ (53 - 1)) <= inject_Z (Zpos m2)) by (rewrite <- Zle_Qle; exact B2).
  assert (Hp : pow2 (e1 + 1) <= pow2 e2) by (apply pow2_le; lia).
  rewrite pow2_succ in Hp.
  pose proof (pow2_pos e1). pose proof (pow2_pos e2).
  change (inject_Z (2 ^ 53)) with (2 * inject_Z (2 ^ (53 - 1))) in Q1.
  set (M1 := inject_Z (Zpos m1)) in *. set (M2 := inject_Z (Zpos m2)) in *.
  set (T := inject_Z (2 ^ (53 - 1))) in *.
  assert (0 < T) by reflexivity.
  assert (M1 * pow2 e1 < 2 * T * pow2 e1) by nra.
  assert (T * (2 * pow2 e1) <= T * pow2 e2) by nra.
  assert (T * pow2 e2 <= M2 * pow2 e2) by nra.
  lra.
Qed.

Lemma Fval_compare (m1 m2 : positive) (e : Z) :
  (Fval (Zpos m1) e ?= Fval (Zpos m2) e) = Pos.compare m1 m2.
Proof.
  pose proof (pow2_pos e) as He.
  destruct (Pos.compare_spec m1 m2) as [->|H|H].
  - apply (proj1 (Qeq_alt _ _)). reflexivity.
  - apply (proj1 (Qlt_alt _ _)). unfold Fval.
    apply Qmult_lt_compat_r; [exact He | rewrite <- Zlt_Qlt; lia].
  - apply (proj1 (Qgt_alt _ _)). unfold Fval.
    apply Qmult_lt_compat_r; [exact He | rewrite <- Zlt_Qlt; lia].
Qed.

Lemma Qcompare_opp (a b : Q) : (- a ?= - b) = CompOpp (a ?= b).
Proof.
  destruct (Qcompare_spec a b) as [H|H|H]; cbn [CompOpp].
  - apply (proj1 (Qeq_alt _ _)). now rewrite H.
  - apply (proj1 (Qgt_alt _ _)). lra.
  - apply (proj1 (Qlt_alt _ _)). lra.
Qed.

(** The comparison of the specification is that of the values. *)
Lemma SFcompare_value (x y : spec_float) :
  SFfinite x = true -> SFfinite y = true ->
  SpecFloat.valid_binary prec emax x = true ->
  SpecFloat.valid_binary prec emax y = true ->
  SFcompare x y = Some (SF2Q x ?= SF2Q y).
Proof.
  intros Hx Hy Vx Vy.
  destruct x as [sx|sx| |sx mx ex]; try discriminate;
    destruct y as [sy|sy| |sy my ey]; try discriminate; cbn [SFcompare SF2Q].
  - reflexivity.
  - pose proof (Fval_pos my ey). f_equal. symmetry.
    destruct sy; cbn [signed]; [apply (proj1 (Qgt_alt _ _)) | apply (proj1 (Qlt_alt _ _))]; lra.
  - pose proof (Fval_pos mx ex). f_equal. symmetry.
    destruct sx; cbn [signed]; [apply (proj1 (Qlt_alt _ _)) | apply (proj1 (Qgt_alt _ _))]; lra.
  - cbn [SpecFloat.valid_binary] in Vx, Vy. unfold SpecFloat.bounded in Vx, Vy.
    apply andb_true_iff in Vx as [Cx _]. apply andb_true_iff in Vy as [Cy _].
    pose proof (Fval_pos mx ex). pose proof (Fval_pos my ey).
    f_equal. symmetry.
    destruct sx, sy; cbn [signed].
    + destruct (Z.compare_spec ex ey) as [->|He|He].
      * rewrite Qcompare_opp, Fval_compare. reflexivity.
      * pose proof (canonical_exponent_lt mx my ex ey Cx Cy He).
        apply (proj1 (Qgt_alt _ _)). lra.
      * pose proof (canonical_exponent_lt my mx ey ex Cy Cx He).
        apply (proj1 (Qlt_alt _ _)). lra.
    + apply (proj1 (Qlt_alt _ _)). lra.
    + apply (proj1 (Qgt_alt _ _)). lra.
    + destruct (Z.compare_spec ex ey) as [->|He|He].
      * rewrite Fval_compare. reflexivity.
      * pose proof (canonical_exponent_lt mx my ex ey Cx Cy He). apply (proj1 (Qlt_alt _ _)). lra.
      * pose proof (canonical_exponent_lt my mx ey ex Cy Cx He). apply (proj1 (Qgt_alt _ _)). lra.
Qed.

Lemma Number_ltb (a b : float) :
  Number.isFinite a = true -> Number.isFinite b = true ->
  ((a <? b)%float = true <-> Number.toQ a < Number.toQ b).
Proof.
  intros Ha Hb. rewrite ltb_spec. unfold SFltb.
  rewrite (SFcompare_value _ _ Ha Hb (Prim2SF_valid a) (Prim2SF_valid b)).
  unfold Number.toQ. rewrite Qlt_alt.
  destruct (SF2Q (Prim2SF a) ?= SF2Q (Prim2SF b)); split; congruence.
Qed.

(** [Math.max] of two finite numbers is the larger of their values. *)
Lemma Number_max_value (a b : float) :
  Number.isFinite a = true -> Number.isFinite b = true ->
  Number.isFinite (Number.max a b) = true
  /\ Number.toQ (Number.max a b) == Qmax (Number.toQ a) (Number.toQ b).
Proof.
  intros Ha Hb.
  pose proof (Number_ltb a b Ha Hb) as Hab. pose proof (Number_ltb b a Hb Ha) as Hba.
  unfold Number.max.
  assert (Na : is_nan a = false).
  { unfold Number.isFinite, Prim2SF in Ha. destruct (is_nan a); [discriminate | reflexivity]. }
  assert (Nb : is_nan b = false).
  { unfold Number.isFinite, Prim2SF in Hb. destruct (is_nan b); [discriminate | reflexivity]. }
  rewrite Na, Nb. cbn [orb].
  destruct (a <? b)%float.
  - split; [exact Hb|]. rewrite Q.max_r; [reflexivity|].
    apply Qlt_le_weak. now apply Hab.
  - destruct (b <? a)%float.
    + split; [exact Ha|]. rewrite Q.max_l; [reflexivity|].
      apply Qlt_le_weak. now apply Hba.
    + assert (E : Number.toQ a == Number.toQ b).
      { apply Qle_antisym; apply Qnot_lt_le; intros H.
        - apply Hba in H. discriminate.
        - apply Hab in H. discriminate. }
      destruct (get_sign a).
      * split; [exact Hb|]. rewrite Q.max_r; [reflexivity | rewrite E; apply Qle_refl].
      * split; [exact Ha|]. rewrite Q.max_l; [reflexivity | rewrite E; apply Qle_refl].
Qed.

End NumberFacts.

(* ================================================================= *)
(** ** The ripple emitters *)

Section RippleFacts.

Lemma childNodes_appendChild (child parent : Node) :
  childNodes (appendChild child parent) = childNodes parent ++ [child].
Proof. destruct parent; reflexivity. Qed.

Lemma withButton_same (d : Page) : withButton (button d) d = d.
Proof. destruct d; reflexivity. Qed.

Lemma prefersReducedMotion_browser (w : Window) :
  prefersReducedMotion (Some w)
  = Normal (matchMedia w "(prefers-reduced-motion: reduce)").
Proof. reflexivity. Qed.

(** Clearing and then appending, at the element [querySelector] found. *)
Lemma clear_then_append (cls : string) (b c0 ripple : Node) (p : NodeRef) :
  querySelector cls b = Some p ->
  nodeAt p b = Some c0 ->
  let b' := updateAt p (appendChild ripple)
                     (updateAt p (removeAllByClass "ripple-effect") b) in
  querySelector cls b' = Some p
  /\ nodeAt p b' = Some (appendChild ripple (removeAllByClass "ripple-effect" c0)).
Proof.
  intros Hq Hc b'. subst b'. split.
  - apply querySelector_updateAt.
    + intros x. apply hasClass_appendChild.
    + apply querySelector_updateAt; [|exact Hq].
      intros x. apply hasClass_removeAllByClass.
  - apply nodeAt_updateAt. now apply nodeAt_updateAt.
Qed.

(** The emitter of utils.ts on a host that has a ripple container. *)
Lemma Utils_createRippleEffect_inserts (w : Window) (e : MouseEvent) (d : Page)
      (p : NodeRef) :
  matchMedia w "(prefers-reduced-motion: reduce)" = false ->
  querySelector "ripple-container" (button d) = Some p ->
  let size := Number.max (DOMRect.width (rect d)) (DOMRect.height (rect d)) in
  exists c ripple d',
    Utils.createRippleEffect w e d = Normal d'
    /\ nodeAt p (button d) = Some c
    /\ nodeAt p (button d') = Some (appendChild ripple c)
    /\ querySelector "ripple-container" (button d') = Some p
    /\ nodeCount (button d') = S (nodeCount (button d))
    /\ classList ripple = ["ripple-effect"]
    /\ style ripple
       = CSSStyle.mk (Some size) (Some size)
           (Some (clientX e - DOMRect.left (rect d) - size / 2)%float)
           (Some (clientY e - DOMRect.top (rect d) - size / 2)%float)
           None None.
Proof.
  intros Hred Hq size.
  destruct (querySelector_sound _ _ p Hq) as (Hne & c & Hc & Hcls).
  exists c.
  unfold Utils.createRippleEffect.
  rewrite prefersReducedMotion_browser, Hred.
  run_page.
  rewrite Hq.
  run_page.
  do 2 eexists.
  split; [reflexivity|].
  split; [exact Hc|].
  run_page.
  split; [apply (nodeAt_updateAt _ p _ c Hc)|].
  split.
  { apply querySelector_updateAt; [|exact Hq].
    intros x. apply hasClass_appendChild. }
  split.
  { match goal with
    | |- context [appendChild ?R] =>
        pose proof (nodeCount_updateAt (appendChild R) p (button d) c Hc) as Hn
    end.
    rewrite nodeCount_appendChild in Hn.
    run_page. cbn -[Number.max] in Hn. lia. }
  split; reflexivity.
Qed.

End RippleFacts.

Section ClearingFacts.

(** What remains to show once the emitter ran to its end with the
    container [c0] at [p] in [b] and the ripple [R]. *)
Lemma clearing_outcome (b c0 R : Node) (p : NodeRef) :
  querySelector "ripple-container" b = Some p ->
  nodeAt p b = Some c0 ->
  R = Element (nodeId R) "span" ["ripple-effect"] (style R) [] ->
  let b' := updateAt p (appendChild R)
                     (updateAt p (removeAllByClass "ripple-effect") b) in
  exists c before,
    querySelector "ripple-container" b' = Some p
    /\ nodeAt p b' = Some c
    /\ childNodes c = before ++ [R]
    /\ countClassBelow "ripple-effect" c = 1%nat
    /\ classList R = ["ripple-effect"]
    /\ childNodes R = [].
Proof.
  intros Hq Hc HR b'.
  destruct (clear_then_append "ripple-container" b c0 R p Hq Hc) as [H1 H2].
  exists (appendChild R (removeAllByClass "ripple-effect" c0)),
         (childNodes (removeAllByClass "ripple-effect" c0)).
  split; [exact H1|]. split; [exact H2|].
  split; [apply childNodes_appendChild|].
  split.
  { rewrite countClassBelow_appendChild, countClassBelow_removeAllByClass.
    rewrite HR. reflexivity. }
  split; now rewrite HR.
Qed.

Lemma UtilsClearing_createRippleEffect_inserts (w : Window) (e : MouseEvent) (d : Page) :
  matchMedia w "(prefers-reduced-motion: reduce)" = false ->
  let size :=
    (Number.max (DOMRect.width (rect d)) (DOMRect.height (rect d)) * 2)%float in
  exists d' p,
    UtilsClearing.createRippleEffect w e d = Normal d'
    /\ exists c before ripple,
      querySelector "ripple-container" (button d') = Some p
      /\ nodeAt p (button d') = Some c
      /\ childNodes c = before ++ [ripple]
      /\ countClassBelow "ripple-effect" c = 1%nat
      /\ classList ripple = ["ripple-effect"]
      /\ childNodes ripple = []
      /\ CSSStyle.width (style ripple) = Some size
      /\ CSSStyle.height (style ripple) = Some size
      /\ CSSStyle.left (style ripple)
         = Some (clientX e - DOMRect.left (rect d) - size / 2)%float
      /\ CSSStyle.top (style ripple)
         = Some (clientY e - DOMRect.top (rect d) - size / 2)%float.
Proof.
  intros Hred size.
  unfold UtilsClearing.createRippleEffect.
  rewrite prefersReducedMotion_browser, Hred.
  run_page.
  destruct (querySelector "ripple-container" (button d)) as [p|] eqn:Hq.
  - destruct (querySelector_sound _ _ p Hq) as (_ & c0 & Hc0 & _).
    run_page.
    repeat match goal with
           | |- context [if ?c then _ else _] => destruct c
           end;
      run_page;
      (eexists; exists p; split; [reflexivity|];
       run_page;
       match goal with
       | |- context [appendChild ?R] =>
           destruct (clearing_outcome (button d) c0 R p Hq Hc0 eq_refl)
             as (c & before & H1 & H2 & H3 & H4 & H5 & H6);
           exists c, before, R
       end;
       repeat (split; [assumption|]); repeat split).
  - pose (c0 := Element (nextId d) "span" ["ripple-container"] CSSStyle.empty []).
    assert (Hq' : querySelector "ripple-container" (appendChild c0 (button d))
                  = Some [List.length (childNodes (button d))])
      by (apply querySelector_appendChild; [reflexivity | exact Hq]).
    pose proof (nodeAt_appendChild c0 (button d)) as Hc0.
    run_page.
    fold c0.
    repeat match goal with
           | |- context [if ?c then _ else _] => destruct c
           end;
      run_page;
      (eexists; exists [List.length (childNodes (button d))];
       split; [reflexivity|];
       run_page;
       match goal with
       | |- context [appendChild ?R (removeAllByClass _ _)] => idtac
       | |- context [updateAt _ (appendChild ?R)] =>
           destruct (clearing_outcome (appendChild c0 (button d)) c0 R _ Hq' Hc0 eq_refl)
             as (c & before & H1 & H2 & H3 & H4 & H5 & H6);
           exists c, before, R
       end;
       repeat (split; [assumption|]); repeat split).
Qed.

End ClearingFacts.

Section CenterFacts.

Local Open Scope Q_scope.

(** The larger side of a box that holds a point. *)
Lemma larger_side (e : MouseEvent) (r : DOMRect.t) (bound : Q) :
  inside e r -> sidesWithin bound r ->
  let larger := Number.max (DOMRect.width r) (DOMRect.height r) in
  Number.isFinite larger = true
  /\ Number.toQ larger
     == Qmax (Number.toQ (DOMRect.width r)) (Number.toQ (DOMRect.height r))
  /\ 0 <= Number.toQ larger
  /\ Number.toQ larger <= bound.
Proof.
  intros (_ & _ & _ & _ & Fw & Fh & X1 & X2 & Y1 & Y2) [Sw Sh] larger.
  destruct (Number_max_value _ _ Fw Fh) as [Fm Vm]. fold larger in Fm, Vm.
  split; [exact Fm|]. split; [exact Vm|].
  rewrite Vm. split.
  - apply Qle_trans with (Number.toQ (DOMRect.width r)); [lra | apply Q.le_max_l].
  - apply Q.max_lub; assumption.
Qed.

(** Twice a side. *)
Lemma doubled_side (size : float) (bound : Q) :
  Number.isFinite size = true ->
  0 <= Number.toQ size -> Number.toQ size <= bound ->
  1 <= bound -> bound <= pow2 1000 ->
  Number.isFinite (size * 2)%float = true
  /\ rounded (Number.toQ size * 2) (Number.toQ (size * 2)%float)
  /\ Qabs (Number.toQ (size * 2)%float) <= 3 * bound.
Proof.
  intros Fs S0 S1 HB1 HB2. destruct Number_two as [F2 V2].
  assert (Habs : Qabs (Number.toQ size * Number.toQ 2) <= 4 * bound).
  { rewrite V2. rewrite Qabs_pos by lra. lra. }
  destruct (Number_mul_bound size 2 Fs F2) as [Fm Rm].
  { apply (below_overflow _ bound); [exact Habs | exact HB2]. }
  split; [exact Fm|].
  assert (Rm' : rounded (Number.toQ size * 2) (Number.toQ (size * 2)%float)).
  { unfold rounded in *. rewrite V2 in Rm. exact Rm. }
  split; [exact Rm'|].
  apply (fun H => rounded_within _ _ bound H HB1) in Rm'.
  2: { rewrite Qabs_pos by lra. lra. }
  assert (C : pow2 (-46) == 1 # 70368744177664) by reflexivity.
  rewrite C in Rm'. apply Qabs_Qle_condition in Rm'. apply Qabs_Qle_condition.
  split; lra.
Qed.

(** The offsets that the emitters compute put the center of the ripple
    on the point of the event, within the rounding. *)
Lemma offsets_centered (ripple : Node) (size : float) (e : MouseEvent) (r : DOMRect.t)
      (bound : Q) :
  inside e r -> sidesWithin bound r ->
  1 <= bound -> bound <= pow2 1000 ->
  Number.isFinite size = true ->
  Qabs (Number.toQ size) <= 3 * bound ->
  CSSStyle.width (style ripple) = Some size ->
  CSSStyle.height (style ripple) = Some size ->
  CSSStyle.left (style ripple)
  = Some (clientX e - DOMRect.left r - size / 2)%float ->
  CSSStyle.top (style ripple)
  = Some (clientY e - DOMRect.top r - size / 2)%float ->
  centeredOn ripple size e r (subPixel bound).
Proof.
  intros (Fx & Fy & Fl & Ft & Fw & Fh & X1 & X2 & Y1 & Y2) [Sw Sh] HB1 HB2 Fs Hs
         Hw Hh Hl Ht.
  destruct (offset_centered (clientX e) (DOMRect.left r) size bound
              Fx Fl Fs HB1 HB2) as [F1 C1]; [|exact Hs|].
  { apply Qabs_Qle_condition. split; lra. }
  destruct (offset_centered (clientY e) (DOMRect.top r) size bound
              Fy Ft Fs HB1 HB2) as [F2 C2]; [|exact Hs|].
  { apply Qabs_Qle_condition. split; lra. }
  split; [exact Hw|]. split; [exact Hh|].
  do 2 eexists. split; [exact Hl|]. split; [exact Ht|].
  split; [exact F1|]. split; [exact F2|].
  split; [exact C1 | exact C2].
Qed.

End CenterFacts.

(** C4, as the code has it. With reduced motion off and the point of the
    event in the box of the host, one call of the emitter puts exactly
    one ripple element into the ripple container of the host, a square
    whose center is the activation point relative to the host within the
    rounding of the offsets: on a host whose sides are at most [bound]
    pixels the center is off by at most [bound * 2^-44] pixels on either
    axis. The emitter of utils.ts needs the host to have a ripple
    container, appends to what the container holds, and makes the ripple
    as large as the larger side of the host; the clear-then-insert
    emitter makes the container when it is missing, leaves the new ripple
    as the only one in it, and makes the ripple twice as large as the
    larger side. *)
Theorem ripple_inserted_and_centered
        (w : Window) (e : MouseEvent) (d : Page) (bound : Q) :
  matchMedia w "(prefers-reduced-motion: reduce)" = false ->
  inside e (rect d) ->
  sidesWithin bound (rect d) ->
  (1 <= bound)%Q ->
  (bound <= pow2 1000)%Q ->
  let larger := Number.max (DOMRect.width (rect d)) (DOMRect.height (rect d)) in
  (Number.toQ larger
   == Qmax (Number.toQ (DOMRect.width (rect d)))
           (Number.toQ (DOMRect.height (rect d))))%Q
  /\ (forall p,
         querySelector "ripple-container" (button d) = Some p ->
         exists c ripple d',
           Utils.createRippleEffect w e d = Normal d'
           /\ nodeAt p (button d) = Some c
           /\ nodeAt p (button d') = Some (appendChild ripple c)
           /\ querySelector "ripple-container" (button d') = Some p
           /\ nodeCount (button d') = S (nodeCount (button d))
           /\ classList ripple = ["ripple-effect"]
           /\ centeredOn ripple larger e (rect d) (subPixel bound))
  /\ (exists d' p,
         UtilsClearing.createRippleEffect w e d = Normal d'
         /\ exists c before ripple,
           querySelector "ripple-container" (button d') = Some p
           /\ nodeAt p (button d') = Some c
           /\ childNodes c = before ++ [ripple]
           /\ countClassBelow "ripple-effect" c = 1%nat
           /\ classList ripple = ["ripple-effect"]
           /\ childNodes ripple = []
           /\ centeredOn ripple (larger * 2)%float e (rect d) (subPixel bound)
           /\ rounded (Number.toQ larger * 2) (Number.toQ (larger * 2)%float)).
Proof.
  intros Hred Hin Hsides HB1 HB2 larger.
  destruct (larger_side e (rect d) bound Hin Hsides) as (Fm & Vm & M0 & M1).
  fold larger in Fm, Vm, M0, M1.
  split; [exact Vm|]. split.
  - intros p Hq.
    destruct (Utils_createRippleEffect_inserts w e d p Hred Hq)
      as (c & ripple & d' & H1 & H2 & H3 & H4 & H5 & H6 & H7).
    fold larger in H7.
    exists c, ripple, d'. repeat (split; [assumption|]).
    apply (offsets_centered ripple larger e (rect d) bound Hin Hsides HB1 HB2 Fm);
      try (rewrite H7; reflexivity).
    rewrite Qabs_pos by exact M0. lra.
  - destruct (UtilsClearing_createRippleEffect_inserts w e d Hred)
      as (d' & p & H1 & c & before & ripple & H2 & H3 & H4 & H5 & H6 & H7
          & H8 & H9 & H10 & H11).
    fold larger in H8, H9, H10, H11.
    destruct (doubled_side larger bound Fm M0 M1 HB1 HB2) as (Fd & Rd & Bd).
    exists d', p. split; [exact H1|]. exists c, before, ripple.
    repeat (split; [assumption|]).
    split; [|exact Rd].
    exact (offsets_centered ripple (larger * 2)%float e (rect d) bound
             Hin Hsides HB1 HB2 Fd Bd H8 H9 H10 H11).
Qed.

Lemma ripple_inserted_and_centered_witness :
  exists c ripple d' x y,
    Utils.createRippleEffect (sampleWindow false) sampleClick samplePage = Normal d'
    /\ nodeAt [0%nat] (button samplePage) = Some c
    /\ nodeAt [0%nat] (button d') = Some (appendChild ripple c)
    /\ CSSStyle.width (style ripple) = Some 100%float
    /\ CSSStyle.left (style ripple) = Some x
    /\ CSSStyle.top (style ripple) = Some y
    /\ (offCenter x 100 50 0 <= subPixel 128)%Q
    /\ (offCenter y 100 20 0 <= subPixel 128)%Q.
Proof.
  assert (Hin : inside sampleClick (rect samplePage)).
  { repeat split; try reflexivity; vm_compute; discriminate. }
  assert (Hsides : sidesWithin 128 (rect samplePage)).
  { split; vm_compute; discriminate. }
  assert (HB1 : (1 <= 128)%Q) by (vm_compute; discriminate).
  assert (HB2 : (128 <= pow2 1000)%Q) by (vm_compute; discriminate).
  destruct (ripple_inserted_and_centered (sampleWindow false) sampleClick samplePage
              128 eq_refl Hin Hsides HB1 HB2) as (_ & H & _).
  destruct (H [0%nat] eq_refl)
    as (c & ripple & d' & H1 & H2 & H3 & _ & _ & _ & Hw & _ & x & y & Hx & Hy
        & _ & _ & Cx & Cy).
  exists c, ripple, d', x, y.
  repeat (split; [assumption|]). assumption.
Defined.

(** C4, counterexample to the size as the claim states it: on a host of
    100 by 40 pixels the clear-then-insert emitter inserts a ripple that
    is 200 pixels wide, not 100. *)
Lemma clearing_emitter_doubles_the_diameter :
  exists d' ripple size,
    UtilsClearing.createRippleEffect (sampleWindow false) sampleClick samplePage
    = Normal d'
    /\ nodeAt [0%nat; 0%nat] (button d') = Some ripple
    /\ classList ripple = ["ripple-effect"]
    /\ CSSStyle.width (style ripple) = Some size
    /\ (Number.toQ size == 200)%Q
    /\ ~ (Number.toQ size
          == Qmax (Number.toQ (DOMRect.width (rect samplePage)))
                  (Number.toQ (DOMRect.height (rect samplePage))))%Q.
Proof.
  do 3 eexists.
  split; [vm_compute; reflexivity|].
  split; [vm_compute; reflexivity|].
  split; [reflexivity|].
  split; [reflexivity|].
  split; [reflexivity|].
  intros H. vm_compute in H. discriminate H.
Qed.

(** The rounding is there: with [clientX] 10.7, [left] 3.3 and a size of
    33.3 the middle of the ripple is not where the point is. *)
#[warnings="-inexact-float"] Lemma center_is_rounded :
  ~ (offCenter (10.7 - 3.3 - 33.3 / 2)%float 33.3%float 10.7%float 3.3%float == 0)%Q.
Proof.
  intros H. vm_compute in H. discriminate H.
Qed.

(* ================================================================= *)
(** ** Guards and totality of the emission *)

Section EmissionFacts.

Lemma untouched_refl (d : Page) : untouched d d.
Proof. repeat split. Qed.

(** Reduced motion: the emitter of utils.ts returns at once. *)
Lemma Utils_createRippleEffect_reduced (w : Window) (e : MouseEvent) (d : Page) :
  matchMedia w "(prefers-reduced-motion: reduce)" = true ->
  Utils.createRippleEffect w e d = Normal d.
Proof.
  intros H. unfold Utils.createRippleEffect.
  now rewrite prefersReducedMotion_browser, H.
Qed.

Lemma UtilsClearing_createRippleEffect_reduced (w : Window) (e : MouseEvent) (d : Page) :
  matchMedia w "(prefers-reduced-motion: reduce)" = true ->
  UtilsClearing.createRippleEffect w e d = Normal d.
Proof.
  intros H. unfold UtilsClearing.createRippleEffect.
  now rewrite prefersReducedMotion_browser, H.
Qed.

(** The emitter of utils.ts completes, and does not touch the tree of a
    host without ripple container. *)
Lemma Utils_createRippleEffect_total (w : Window) (e : MouseEvent) (d : Page) :
  exists d',
    Utils.createRippleEffect w e d = Normal d'
    /\ userClicks d' = userClicks d
    /\ (querySelector "ripple-container" (button d) = None -> button d' = button d).
Proof.
  unfold Utils.createRippleEffect. rewrite prefersReducedMotion_browser.
  destruct (matchMedia w "(prefers-reduced-motion: reduce)"); run_page.
  - exists d. repeat split.
  - eexists. split; [reflexivity|]. split.
    + destruct (querySelector "ripple-container" (button d)); reflexivity.
    + intros ->. reflexivity.
Qed.

Lemma Button_handleRippleEffect_total (props : Button.Props) (e : MouseEvent) (d : Page) :
  exists d',
    Button.handleRippleEffect props e d = Normal d'
    /\ userClicks d' = userClicks d
    /\ (querySelector "ripple-container" (button d) = None -> button d' = button d).
Proof.
  unfold Button.handleRippleEffect.
  destruct (Button.disableAnimation props || Button.disabled props
            || Button.isLoading props); run_page.
  - exists d. repeat split.
  - eexists. split; [reflexivity|]. split.
    + destruct (querySelector "ripple-container" (button d)); reflexivity.
    + intros ->. reflexivity.
Qed.

Lemma UtilsClearing_createRippleEffect_total (w : Window) (e : MouseEvent) (d : Page) :
  exists d', UtilsClearing.createRippleEffect w e d = Normal d'.
Proof.
  unfold UtilsClearing.createRippleEffect. rewrite prefersReducedMotion_browser.
  destruct (matchMedia w "(prefers-reduced-motion: reduce)"); run_page.
  - now exists d.
  - destruct (querySelector "ripple-container" (button d)); eexists; reflexivity.
Qed.

(** The arrow function of the Button completes, and the consumer's
    handler of an enabled control runs once. *)
Lemma Button_onClickAttr_total (w : Window) (props : Button.Props)
      (e : MouseEvent) (d : Page) :
  exists d',
    Button.onClickAttr w props e d = Normal d'
    /\ (Button.disabled props = false ->
        Button.isLoading props = false ->
        Button.onClick props <> None ->
        userClicks d' = S (userClicks d)).
Proof.
  unfold Button.onClickAttr.
  destruct (Utils_createRippleEffect_total w e d) as (d1 & H1 & U1 & _).
  destruct (Button_handleRippleEffect_total props e d) as (d2 & H2 & U2 & _).
  rewrite H1, H2.
  destruct (Button.disabled props), (Button.isLoading props),
    (Button.disableAnimation props),
    (truthyOpt (Button.rippleColor props)
     || negb (Qeq_bool (Button.rippleDuration props) 600)),
    (Button.onClick props);
    cbn [negb andb bind]; eexists; (split; [reflexivity|]); intros;
    first [discriminate | congruence | (simpl; congruence)].
Qed.

(** Disabled, loading or with animation off, the arrow function of the
    Button emits nothing. *)
Lemma Button_onClickAttr_suppressed (w : Window) (props : Button.Props)
      (e : MouseEvent) (d : Page) :
  Button.disabled props || Button.isLoading props
  || Button.disableAnimation props = true ->
  exists d', Button.onClickAttr w props e d = Normal d' /\ untouched d d'.
Proof.
  unfold Button.onClickAttr.
  destruct (Button.disabled props), (Button.isLoading props),
    (Button.disableAnimation props); simpl; try discriminate; intros _;
    destruct (Button.onClick props); eexists; split;
    try reflexivity; (repeat split).
Qed.

Lemma Button_handleRippleEffect_suppressed (props : Button.Props)
      (e : MouseEvent) (d : Page) :
  Button.disabled props || Button.isLoading props
  || Button.disableAnimation props = true ->
  Button.handleRippleEffect props e d = Normal d.
Proof.
  unfold Button.handleRippleEffect.
  destruct (Button.disabled props), (Button.isLoading props),
    (Button.disableAnimation props); simpl; try discriminate; reflexivity.
Qed.

(** The Fab emits nothing when disabled, with animation off, or under
    reduced motion. *)
Lemma Fab_onClickAttr_suppressed (w : Window) (props : Fab.Props)
      (e : MouseEvent) (d : Page) :
  Fab.disabled props || Fab.disableAnimation props
  || matchMedia w "(prefers-reduced-motion: reduce)" = true ->
  exists d', Fab.onClickAttr w props e d = Normal d' /\ untouched d d'.
Proof.
  unfold Fab.onClickAttr. intros H.
  destruct (Fab.disabled props), (Fab.disableAnimation props);
    cbn [negb andb orb] in *;
    try rewrite (Utils_createRippleEffect_reduced w e d H); cbn [bind];
    destruct (Fab.onClick props); eexists; split;
    try reflexivity; repeat split.
Qed.

(** The Button under reduced motion with the default ripple: nothing. *)
Lemma Button_onClickAttr_default_reduced (w : Window) (props : Button.Props)
      (e : MouseEvent) (d : Page) :
  matchMedia w "(prefers-reduced-motion: reduce)" = true ->
  truthyOpt (Button.rippleColor props) = false ->
  Qeq_bool (Button.rippleDuration props) 600 = true ->
  exists d', Button.onClickAttr w props e d = Normal d' /\ untouched d d'.
Proof.
  intros Hred Hc Hd. unfold Button.onClickAttr. rewrite Hc, Hd. simpl.
  rewrite (Utils_createRippleEffect_reduced w e d Hred).
  destruct (Button.disabled props), (Button.isLoading props),
    (Button.disableAnimation props); simpl;
    destruct (Button.onClick props); eexists; split;
    try reflexivity; (repeat split).
Qed.

End EmissionFacts.

(** C8. The emitters complete normally on every event and every page,
    and so does the click handler that calls them, which then still runs
    the consumer's handler of an enabled control. On a host without
    ripple container the emitter of utils.ts and the one of the Button
    leave the tree as it is. The removal callback of a timer completes
    normally, and it changes nothing when its node is not in the tree. *)
Theorem ripple_emission_never_throws
        (w : Window) (props : Button.Props) (e : MouseEvent) (d : Page) (t : Timer) :
  (exists d', Utils.createRippleEffect w e d = Normal d'
              /\ (querySelector "ripple-container" (button d) = None ->
                  button d' = button d))
  /\ (exists d', Button.handleRippleEffect props e d = Normal d'
                 /\ (querySelector "ripple-container" (button d) = None ->
                     button d' = button d))
  /\ (exists d', UtilsClearing.createRippleEffect w e d = Normal d')
  /\ (exists d', fireTimer t d = Normal d')
  /\ (~ In (timerRemoves t) (nodeIds (button d)) -> fireTimer t d = Normal d)
  /\ (exists d', Button.onClickAttr w props e d = Normal d'
                 /\ (Button.disabled props = false ->
                     Button.isLoading props = false ->
                     Button.onClick props <> None ->
                     userClicks d' = S (userClicks d))).
Proof.
  split.
  { destruct (Utils_createRippleEffect_total w e d) as (d' & H & _ & Hn).
    now exists d'. }
  split.
  { destruct (Button_handleRippleEffect_total props e d) as (d' & H & _ & Hn).
    now exists d'. }
  split; [apply UtilsClearing_createRippleEffect_total|].
  split; [eexists; reflexivity|].
  split; [|apply Button_onClickAttr_total].
  intros Habsent. unfold fireTimer.
  now rewrite (removeNode_absent _ _ Habsent), withButton_same.
Qed.

Lemma ripple_emission_never_throws_witness :
  fireTimer (mkTimer 600 99) samplePage = Normal samplePage
  /\ exists d',
      Utils.createRippleEffect (sampleWindow false) sampleClick
        (withButton (Element 0 "button" [] CSSStyle.empty []) samplePage)
      = Normal d'
      /\ button d' = Element 0 "button" [] CSSStyle.empty [].
Proof.
  split.
  - apply (ripple_emission_never_throws (sampleWindow false)
             (Button.mkProps false false false None None 600 None)
             sampleClick samplePage (mkTimer 600 99)).
    simpl. intros [H | [H | []]]; discriminate H.
  - destruct (ripple_emission_never_throws (sampleWindow false)
                (Button.mkProps false false false None None 600 None)
                sampleClick
                (withButton (Element 0 "button" [] CSSStyle.empty []) samplePage)
                (mkTimer 600 99)) as ((d' & H & Hn) & _).
    exists d'. split; [exact H | exact (Hn eq_refl)].
Defined.

(** C1, the failing input. Reduced motion is active; a Button that is
    enabled, not loading, with animation on and a custom ripple color (or a
    duration other than 600) is clicked: [handleRippleEffect] runs, one
    element is created and one ripple is in the tree. The same click on a
    Button with the default ripple creates nothing. *)
Theorem custom_ripple_ignores_reduced_motion :
  let w := sampleWindow true in
  let colored := Button.mkProps false false false None (Some "#ff0000") 600 None in
  let slow := Button.mkProps false false false None None 900 None in
  let plain := Button.mkProps false false false None None 600 None in
  prefersReducedMotion (Some w) = Normal true
  /\ countClass "ripple-effect" (button samplePage) = 0%nat
  /\ (exists d', Button.click w colored sampleClick samplePage = Normal d'
                 /\ nextId d' = S (nextId samplePage)
                 /\ countClass "ripple-effect" (button d') = 1%nat)
  /\ (exists d', Button.click w slow sampleClick samplePage = Normal d'
                 /\ nextId d' = S (nextId samplePage)
                 /\ countClass "ripple-effect" (button d') = 1%nat)
  /\ Button.click w plain sampleClick samplePage = Normal samplePage.
Proof.
  split; [reflexivity|].
  split; [reflexivity|].
  split; [eexists; split; [vm_compute; reflexivity | split; reflexivity]|].
  split; [eexists; split; [vm_compute; reflexivity | split; reflexivity]|].
  reflexivity.
Qed.

(* ================================================================= *)
(** ** Registration and release of listeners *)

Section ListenerFacts.

Import ButtonLifecycle.

Lemma removeEventListener_other (fn : nat) (l : list nat) :
  ~ In fn l -> EventTarget.removeEventListener fn l = l.
Proof.
  unfold EventTarget.removeEventListener.
  induction l as [|g r IH]; simpl; [reflexivity|].
  intros H. destruct (Nat.eqb_spec g fn) as [E|E]; simpl.
  - exfalso. apply H. now left.
  - rewrite IH; [reflexivity | tauto].
Qed.

Lemma addEventListener_new (fn : nat) (l : list nat) :
  ~ In fn l -> EventTarget.addEventListener fn l = l ++ [fn].
Proof.
  unfold EventTarget.addEventListener. intros H.
  destruct (existsb (Nat.eqb fn) l) eqn:E; [|reflexivity].
  apply existsb_exists in E as (g & Hg & Heq).
  apply Nat.eqb_eq in Heq. subst. contradiction.
Qed.

(** Removing what was added gives back the listeners of before. *)
Lemma remove_after_add (fn : nat) (l : list nat) :
  ~ In fn l ->
  EventTarget.removeEventListener fn (EventTarget.addEventListener fn l) = l.
Proof.
  intros H. rewrite (addEventListener_new fn l H).
  unfold EventTarget.removeEventListener.
  rewrite filter_app. simpl. rewrite Nat.eqb_refl. simpl.
  rewrite app_nil_r. now apply removeEventListener_other.
Qed.

Lemma updateNth_last {A} (g : A -> A) (l : list A) (x : A) :
  updateNth (List.length l) g (l ++ [x]) = l ++ [g x].
Proof.
  induction l as [|y r IH]; simpl; [reflexivity | now rewrite IH].
Qed.

Lemma fresh_not_registered (bound fn : nat) (l : list nat) :
  Forall (fun g => (g < bound)%nat) l -> (bound <= fn)%nat -> ~ In fn l.
Proof.
  intros Hall Hle Hin. rewrite Forall_forall in Hall.
  specialize (Hall fn Hin). lia.
Qed.

End ListenerFacts.

Section LifecycleFacts.

Import ButtonLifecycle.

Variable r0 : Registry.
Hypothesis r0_wf : wellFormed r0.

Lemma shortcutEffect_after_cleanup (props : Button.Props) (r : Registry) :
  keydown r = keydown r0 ->
  (nextClosure r0 < nextClosure r)%nat ->
  let '(registered, r') := shortcutEffect props r in
  mediaQueryLists r' = mediaQueryLists r
  /\ (nextClosure r0 < nextClosure r')%nat
  /\ match registered with
     | Some fn => keydown r' = keydown r0 ++ [fn]
                  /\ (nextClosure r0 <= fn < nextClosure r')%nat
     | None => keydown r' = keydown r0
     end.
Proof.
  intros Hk Hn. unfold shortcutEffect.
  destruct (truthyOpt (Button.keyboardShortcut props)); simpl.
  - rewrite Hk, addEventListener_new.
    + repeat split; lia.
    + apply (fresh_not_registered (nextClosure r0)); [exact r0_wf | lia].
  - repeat split; assumption.
Qed.

Lemma mount_mounted (w : Window) (props : Button.Props) :
  exists ir, mount w props r0 = Normal ir /\ mounted r0 ir.
Proof.
  unfold mount. simpl bind.
  set (r1 := mkRegistry (keydown r0)
               (mediaQueryLists r0
                ++ [EventTarget.addEventListener (nextClosure r0) []])
               (S (nextClosure r0))).
  pose proof (shortcutEffect_after_cleanup props r1 eq_refl (Nat.lt_succ_diag_r _))
    as H.
  destruct (shortcutEffect props r1) as [registered r2].
  eexists. split; [reflexivity|].
  destruct H as (Hm & Hn & Hk).
  unfold mounted. simpl. rewrite Hm. repeat split; assumption.
Qed.

Lemma shortcutCleanup_mounted (i : Instance) (r : Registry) :
  mounted r0 (i, r) ->
  keydown (shortcutCleanup (handleGlobalKeyDown i) r) = keydown r0
  /\ mediaQueryLists (shortcutCleanup (handleGlobalKeyDown i) r) = mediaQueryLists r
  /\ nextClosure (shortcutCleanup (handleGlobalKeyDown i) r) = nextClosure r.
Proof.
  unfold mounted. intros (_ & _ & _ & Hk).
  destruct (handleGlobalKeyDown i) as [fn|]; simpl.
  - destruct Hk as [Hk Hfn]. rewrite Hk. repeat split.
    unfold EventTarget.removeEventListener.
    rewrite filter_app. simpl. rewrite Nat.eqb_refl. simpl. rewrite app_nil_r.
    apply removeEventListener_other.
    apply (fresh_not_registered (nextClosure r0)); [exact r0_wf | lia].
  - repeat split; assumption.
Qed.

Lemma rerender_mounted (props : Button.Props) (ir : Instance * Registry) :
  mounted r0 ir -> mounted r0 (rerender props ir).
Proof.
  destruct ir as [i r]. intros Hm. unfold rerender.
  destruct (sameDeps (deps i) (depsOf props)); [exact Hm|].
  destruct (shortcutCleanup_mounted i r Hm) as (Hk & Hq & Hn).
  destruct Hm as (Hmq & Hl & Hlt & _).
  assert (Hlt' : (nextClosure r0 < nextClosure (shortcutCleanup (handleGlobalKeyDown i) r))%nat)
    by (rewrite Hn; exact Hlt).
  pose proof (shortcutEffect_after_cleanup props _ Hk Hlt') as H.
  destruct (shortcutEffect props (shortcutCleanup (handleGlobalKeyDown i) r))
    as [registered r2].
  destruct H as (Hm2 & Hn2 & Hk2).
  unfold mounted. simpl. rewrite Hm2, Hq. repeat split; assumption.
Qed.

Lemma updates_mounted (updates : list Button.Props) :
  forall ir, mounted r0 ir ->
             mounted r0 (fold_left (fun acc p => rerender p acc) updates ir).
Proof.
  induction updates as [|p ps IH]; intros ir H; simpl; [exact H|].
  apply IH. now apply rerender_mounted.
Qed.

Lemma unmount_mounted (ir : Instance * Registry) :
  mounted r0 ir ->
  keydown (unmount ir) = keydown r0
  /\ mediaQueryLists (unmount ir) = mediaQueryLists r0 ++ [[]].
Proof.
  destruct ir as [i r]. intros Hm. unfold unmount.
  pose proof Hm as (Hmq & Hl & Hlt & Hk).
  set (r1 := contrastCleanup (mediaQuery i) (handleChange i) r).
  assert (Hq1 : mediaQueryLists r1 = mediaQueryLists r0 ++ [[]]).
  { unfold r1, contrastCleanup. simpl. rewrite Hl, Hmq, updateNth_last.
    unfold EventTarget.removeEventListener. simpl. now rewrite Nat.eqb_refl. }
  destruct (handleGlobalKeyDown i) as [fn|] eqn:E; simpl.
  - destruct Hk as [Hk Hfn]. split; [|exact Hq1].
    change (keydown r1) with (keydown r). rewrite Hk.
    unfold EventTarget.removeEventListener.
    rewrite filter_app. simpl. rewrite Nat.eqb_refl. simpl. rewrite app_nil_r.
    apply removeEventListener_other.
    apply (fresh_not_registered (nextClosure r0)); [exact r0_wf | lia].
  - split; [exact Hk | exact Hq1].
Qed.

End LifecycleFacts.

Section LifeFacts.

Import ButtonLifecycle.

Lemma listenerCount_parts (r : Registry) (k : list nat) (q : list (list nat)) (n : nat) :
  listenerCount (mkRegistry k q n)
  = (List.length k + list_sum (map (@List.length nat) q))%nat.
Proof. reflexivity. Qed.

(** Mounting attaches one change listener, and one key listener when a
    shortcut is configured. *)
Lemma mount_attaches (w : Window) (props : Button.Props) (r : Registry) :
  wellFormed r ->
  exists ir,
    mount w props r = Normal ir
    /\ listenerCount (snd ir)
       = (listenerCount r + 1
          + (if truthyOpt (Button.keyboardShortcut props) then 1 else 0))%nat.
Proof.
  intros Hwf. unfold mount, shortcutEffect. simpl bind.
  destruct (truthyOpt (Button.keyboardShortcut props)); simpl;
    eexists; (split; [reflexivity|]); simpl snd.
  - rewrite addEventListener_new.
    + unfold listenerCount. simpl.
      rewrite length_app, map_app, list_sum_app. simpl. lia.
    + apply (fresh_not_registered (nextClosure r)); [exact Hwf | lia].
  - unfold listenerCount. simpl.
    rewrite map_app, list_sum_app. simpl. lia.
Qed.

End LifeFacts.

(** C7. A Button that is mounted, committed again any number of times
    with new properties, and unmounted: mounting attaches its change
    listener to its media query list and, with a shortcut configured, its
    key listener to the document; after the unmount the document has the
    key listeners it had before the mount, the media query list of the
    control has no listener, and so as many listeners are attached as
    before the mount: none when there were none. *)
Theorem unmount_releases_listeners
        (w : Window) (props : Button.Props) (updates : list Button.Props)
        (r : Registry) :
  ButtonLifecycle.wellFormed r ->
  (exists ir,
      ButtonLifecycle.mount w props r = Normal ir
      /\ listenerCount (snd ir)
         = (listenerCount r + 1
            + (if truthyOpt (Button.keyboardShortcut props) then 1 else 0))%nat)
  /\ (exists r',
         ButtonLifecycle.life w props updates r = Normal r'
         /\ keydown r' = keydown r
         /\ mediaQueryLists r' = mediaQueryLists r ++ [[]]
         /\ listenerCount r' = listenerCount r
         /\ (listenerCount r = 0%nat -> listenerCount r' = 0%nat)).
Proof.
  intros Hwf. split; [now apply mount_attaches|].
  unfold ButtonLifecycle.life.
  destruct (mount_mounted r Hwf w props) as (ir & Hmount & Hm).
  rewrite Hmount. simpl bind.
  pose proof (updates_mounted r Hwf updates ir Hm) as Hm'.
  destruct (unmount_mounted r Hwf _ Hm') as (Hk & Hq).
  eexists. split; [reflexivity|].
  assert (Hcount : listenerCount
                     (ButtonLifecycle.unmount
                        (fold_left (fun acc p => ButtonLifecycle.rerender p acc)
                                   updates ir))
                   = listenerCount r).
  { unfold listenerCount. rewrite Hk, Hq, map_app, list_sum_app. simpl. lia. }
  repeat split; try assumption.
  intros H0. now rewrite Hcount.
Qed.

Lemma unmount_releases_listeners_witness :
  exists r',
    ButtonLifecycle.life (sampleWindow false)
      (Button.mkProps false false false (Some "ctrl+k") None 600 None)
      [Button.mkProps true false false (Some "ctrl+k") None 600 None;
       Button.mkProps false false false (Some "ctrl+s") None 600 None]
      (mkRegistry [] [] 0)
    = Normal r'
    /\ listenerCount r' = 0%nat.
Proof.
  destruct (unmount_releases_listeners (sampleWindow false)
              (Button.mkProps false false false (Some "ctrl+k") None 600 None)
              [Button.mkProps true false false (Some "ctrl+k") None 600 None;
               Button.mkProps false false false (Some "ctrl+s") None 600 None]
              (mkRegistry [] [] 0) (Forall_nil _))
    as (_ & r' & Hlife & _ & _ & _ & Hzero).
  exists r'. split; [exact Hlife | exact (Hzero eq_refl)].
Defined.

(* ================================================================= *)
(** ** More on [cn] *)

Section CnTokens.

Import JsString.

(** Splitting is done piece by piece. *)
Lemma split_app (sep : ascii) (a b : string) :
  split sep (a ++ String sep b) = split sep a ++ split sep b.
Proof.
  induction a as [|c a IH]; simpl.
  - now rewrite Ascii.eqb_refl.
  - destruct (Ascii.eqb c sep).
    + now rewrite IH.
    + rewrite IH. pose proof (split_not_nil sep a) as Hne.
      destruct (split sep a) as [|t ts]; [congruence | reflexivity].
Qed.

Lemma classTokens_app (a b : string) :
  classTokens (a ++ String " " b) = classTokens a ++ classTokens b.
Proof.
  unfold classTokens. now rewrite split_app, filter_app.
Qed.

Lemma classTokens_join (l : list string) :
  classTokens (join " " l) = flat_map classTokens l.
Proof.
  induction l as [|s r IH]; [reflexivity|].
  destruct r as [|s' r'].
  - simpl. now rewrite app_nil_r.
  - change (join " " (s :: s' :: r'))
      with (s ++ String " " (join " " (s' :: r')))%string.
    rewrite classTokens_app, IH. reflexivity.
Qed.

Lemma join_truthy (l : list string) :
  l <> [] -> Forall (fun s => truthy s = true) l -> truthy (join " " l) = true.
Proof.
  destruct l as [|s r]; [congruence|].
  intros _ H. inversion H as [|? ? Hs _]; subst.
  destruct s as [|c s]; [discriminate|].
  destruct r; reflexivity.
Qed.

Lemma truthyStrings_truthy (classes : list ClassValue) :
  Forall (fun s => truthy s = true) (truthyStrings classes).
Proof.
  induction classes as [|v r IH]; [constructor|].
  destruct v as [s| |]; simpl; try exact IH.
  destruct s; [exact IH | now constructor].
Qed.

Lemma string_app_assoc (a b c : string) :
  ((a ++ b) ++ c = a ++ (b ++ c))%string.
Proof.
  induction a as [|x a IH]; simpl; [reflexivity | now rewrite IH].
Qed.

Lemma join_app (l1 l2 : list string) :
  l1 <> [] -> l2 <> [] ->
  join " " (l1 ++ l2) = (join " " l1 ++ String " " (join " " l2))%string.
Proof.
  induction l1 as [|s r IH]; [congruence|].
  intros _ H2. destruct r as [|s' r'].
  - simpl. destruct l2; [congruence | reflexivity].
  - change (join " " ((s :: s' :: r') ++ l2))
      with (s ++ String " " (join " " ((s' :: r') ++ l2)))%string.
    rewrite IH by (discriminate || assumption).
    change (join " " (s :: s' :: r'))
      with (s ++ String " " (join " " (s' :: r')))%string.
    rewrite string_app_assoc. reflexivity.
Qed.

Lemma truthyStrings_middle (pre post : list ClassValue) (s : string) :
  truthyStrings (pre ++ CString s :: post)
  = truthyStrings pre ++ (if truthy s then [s] else []) ++ truthyStrings post.
Proof.
  rewrite truthyStrings_app. f_equal. destruct s; reflexivity.
Qed.

End CnTokens.

(** X1. The class names in the result of [cn] are the class names of its
    truthy arguments, in the order of the arguments: no name is lost,
    merged with its neighbour or added. *)
Theorem cn_class_tokens (classes : list ClassValue) :
  classTokens (cn classes) = flat_map classTokens (truthyStrings classes).
Proof.
  rewrite cn_truthyStrings. apply classTokens_join.
Qed.

(** X2. A call of [cn] given as an argument to [cn] can be replaced by its
    own arguments. *)
Theorem cn_inner_call_inlined (pre inner post : list ClassValue) :
  cn (pre ++ CString (cn inner) :: post) = cn (pre ++ inner ++ post).
Proof.
  rewrite (cn_truthyStrings (pre ++ CString (cn inner) :: post)).
  rewrite (cn_truthyStrings (pre ++ inner ++ post)).
  rewrite truthyStrings_middle, !truthyStrings_app, (cn_truthyStrings inner).
  destruct (truthyStrings inner) as [|s r] eqn:E.
  - reflexivity.
  - assert (Ht : JsString.truthy (JsString.join " " (s :: r)) = true).
    { apply join_truthy; [discriminate|]. rewrite <- E. apply truthyStrings_truthy. }
    rewrite Ht.
    assert (Hmid : forall l1 l2,
               JsString.join " " (l1 ++ [JsString.join " " (s :: r)] ++ l2)
               = JsString.join " " (l1 ++ (s :: r) ++ l2)).
    { intros l1 l2.
      assert (Hr : JsString.join " " ([JsString.join " " (s :: r)] ++ l2)
                   = JsString.join " " ((s :: r) ++ l2)).
      { destruct l2 as [|x l2]; [now rewrite !app_nil_r|].
        rewrite (join_app (s :: r) (x :: l2)) by discriminate.
        reflexivity. }
      destruct l1 as [|y l1]; [exact Hr|].
      rewrite !(join_app (y :: l1)) by (discriminate || (destruct l2; discriminate)).
      now rewrite Hr. }
    apply Hmid.
Qed.

(* ================================================================= *)
(** ** [handleKeyboardEvent] *)

Section KeyActionFacts.

Import JsString KeyActions.

Lemma lowerChar_idempotent (c : ascii) : lowerChar (lowerChar c) = lowerChar c.
Proof.
  destruct c as [[] [] [] [] [] [] [] []]; reflexivity.
Qed.

Lemma toLowerCase_idempotent (s : string) :
  toLowerCase (toLowerCase s) = toLowerCase s.
Proof.
  induction s as [|c s IH]; simpl; [reflexivity|].
  now rewrite lowerChar_idempotent, IH.
Qed.

(** Of the names every object inherits, a lowered key can only be
    [constructor] or [__proto__]. *)
Lemma inherited_lowered (s : string) :
  includes objectPrototype (toLowerCase s) = true ->
  toLowerCase s = "constructor" \/ toLowerCase s = "__proto__".
Proof.
  rewrite includes_In. unfold objectPrototype. simpl.
  pose proof (toLowerCase_idempotent s) as Hid.
  intros H.
  repeat (destruct H as [H | H];
          [ first [ left; symmetry; exact H
                  | right; symmetry; exact H
                  | exfalso; rewrite <- H in Hid; vm_compute in Hid;
                    discriminate Hid ] | ]).
  destruct H.
Qed.

End KeyActionFacts.

Section LoweredLookup.

Variable toLowerCase : string -> string.

(** A key in lower case finds nothing under a name that is not. *)
Lemma ownProperty_lowered {E} (actions : KeyActions.Actions E) (key : string) :
  toLowerCase key = key ->
  KeyActions.ownProperty
    (filter (fun kf => AnyCase.isLowered toLowerCase (fst kf)) actions) key
  = KeyActions.ownProperty actions key.
Proof.
  intros Hkey. induction actions as [|[k f] rest IH]; [reflexivity|].
  simpl. destruct (AnyCase.isLowered toLowerCase k) eqn:Ek; simpl.
  - now rewrite IH.
  - rewrite IH.
    destruct (KeyActions.ownProperty rest key); [reflexivity|].
    destruct (String.eqb_spec k key) as [Heq|]; [|reflexivity].
    subst k. unfold AnyCase.isLowered in Ek.
    rewrite Hkey, String.eqb_refl in Ek. discriminate.
Qed.

End LoweredLookup.

(** X3. [handleKeyboardEvent] looks the key up in lower case, whatever the
    alphabet: two events whose keys have the same lower case form have
    the same outcome, and an action stored under a name that is not in
    lower case (a name that [toLowerCase] changes) is never run, so that
    leaving such entries out changes nothing. [toLowerCase] is any
    mapping that leaves the lowered key of the event as it is, as the
    built-in function leaves every text that it returned. *)
Theorem handleKeyboardEvent_lowered_lookup
        (toLowerCase : string -> string)
        (E : Type) (prevent : E) (e1 e2 : KeyboardEvent.t)
        (actions : KeyActions.Actions E) (preventDefault : bool) :
  AnyCase.sameLowered toLowerCase (KeyboardEvent.key e1) (KeyboardEvent.key e2) ->
  toLowerCase (toLowerCase (KeyboardEvent.key e1))
  = toLowerCase (KeyboardEvent.key e1) ->
  AnyCase.handleKeyboardEvent toLowerCase prevent e1 actions preventDefault
  = AnyCase.handleKeyboardEvent toLowerCase prevent e2 actions preventDefault
  /\ AnyCase.handleKeyboardEvent toLowerCase prevent e1 actions preventDefault
     = AnyCase.handleKeyboardEvent toLowerCase prevent e1
         (filter (fun kf => AnyCase.isLowered toLowerCase (fst kf)) actions)
         preventDefault.
Proof.
  intros Hsame Hid. unfold AnyCase.handleKeyboardEvent, KeyActions.get. split.
  - unfold AnyCase.sameLowered in Hsame. now rewrite Hsame.
  - now rewrite (ownProperty_lowered toLowerCase actions _ Hid).
Qed.

Lemma handleKeyboardEvent_lowered_lookup_witness :
  AnyCase.handleKeyboardEvent Latin1.toLowerCase PreventDefault
    (keyEvent "É" false false false false)
    [("é", [Click 1%nat]); ("É", [Click 2%nat])] true
  = AnyCase.handleKeyboardEvent Latin1.toLowerCase PreventDefault
      (keyEvent "é" false false false false)
      [("é", [Click 1%nat]); ("É", [Click 2%nat])] true
  /\ AnyCase.handleKeyboardEvent Latin1.toLowerCase PreventDefault
       (keyEvent "É" false false false false)
       [("é", [Click 1%nat]); ("É", [Click 2%nat])] true
     = AnyCase.handleKeyboardEvent Latin1.toLowerCase PreventDefault
         (keyEvent "É" false false false false)
         [("é", [Click 1%nat])] true.
Proof.
  exact (handleKeyboardEvent_lowered_lookup Latin1.toLowerCase
           Effect PreventDefault
           (keyEvent "É" false false false false)
           (keyEvent "é" false false false false)
           [("é", [Click 1%nat]); ("É", [Click 2%nat])] true
           eq_refl eq_refl).
Defined.

(** X4. A key without action: when the lowered key is no own property of the
    table, nothing happens and the default is not prevented, except for
    the two lowered names every object inherits: on [constructor] the
    default is prevented and the call returns, on [__proto__] the default
    is prevented and the call throws a TypeError. *)
Theorem handleKeyboardEvent_missing_key
        (E : Type) (prevent : E) (e : KeyboardEvent.t)
        (actions : KeyActions.Actions E) (preventDefault : bool) :
  let key := JsString.toLowerCase (KeyboardEvent.key e) in
  KeyActions.ownProperty actions key = None ->
  (key <> "constructor" -> key <> "__proto__" ->
   KeyActions.handleKeyboardEvent prevent e actions preventDefault = ([], Normal tt))
  /\ (key = "constructor" ->
      KeyActions.handleKeyboardEvent prevent e actions preventDefault
      = (if preventDefault then [prevent] else [], Normal tt))
  /\ (key = "__proto__" ->
      KeyActions.handleKeyboardEvent prevent e actions preventDefault
      = (if preventDefault then [prevent] else [], Throw TypeError)).
Proof.
  intros key Hown. unfold KeyActions.handleKeyboardEvent, KeyActions.get.
  fold key. rewrite Hown. repeat split.
  - intros H1 H2.
    destruct (JsString.includes KeyActions.objectPrototype key) eqn:Ei; [|reflexivity].
    destruct (inherited_lowered _ Ei); contradiction.
  - intros ->. reflexivity.
  - intros ->. reflexivity.
Qed.

Lemma handleKeyboardEvent_missing_key_witness :
  KeyActions.handleKeyboardEvent PreventDefault
    (keyEvent "Enter" false false false false) [(" ", [Click 1%nat])] true
  = ([], Normal tt).
Proof.
  apply (handleKeyboardEvent_missing_key Effect PreventDefault
           (keyEvent "Enter" false false false false) [(" ", [Click 1%nat])] true
           eq_refl); discriminate.
Defined.

(* ================================================================= *)
(** ** The Space key on a control *)

Section SpaceKeyFacts.

Lemma handleKeyboardEvent_space (action : list Effect) (e : KeyboardEvent.t) :
  JsString.toLowerCase (KeyboardEvent.key e) = " " ->
  KeyActions.handleKeyboardEvent PreventDefault e [(" ", action)] true
  = (PreventDefault :: action, Normal tt).
Proof.
  intros H. unfold KeyActions.handleKeyboardEvent, KeyActions.get.
  rewrite H. reflexivity.
Qed.

Lemma handleKeyboardEvent_other (action : list Effect) (e : KeyboardEvent.t) :
  JsString.toLowerCase (KeyboardEvent.key e) <> " " ->
  JsString.toLowerCase (KeyboardEvent.key e) <> "constructor" ->
  JsString.toLowerCase (KeyboardEvent.key e) <> "__proto__" ->
  KeyActions.handleKeyboardEvent PreventDefault e [(" ", action)] true
  = ([], Normal tt).
Proof.
  intros Hs Hc Hp.
  unfold KeyActions.handleKeyboardEvent, KeyActions.get.
  cbn [KeyActions.ownProperty].
  destruct (String.eqb_spec " " (JsString.toLowerCase (KeyboardEvent.key e)));
    [congruence|].
  destruct (JsString.includes KeyActions.objectPrototype
              (JsString.toLowerCase (KeyboardEvent.key e))) eqn:Ei; [|reflexivity].
  destruct (inherited_lowered _ Ei); contradiction.
Qed.

End SpaceKeyFacts.

(** X5. The key handler of a rendered control without [onKeyDown] of the
    consumer. On the Space key it prevents the default and clicks the
    control once when the control is mounted and enabled; on a disabled
    (or loading) control it still prevents the default and does not
    click. On a key other than Space (and than the two inherited names)
    it does nothing. With an [onKeyDown] of the consumer the rendered
    handler is the consumer's alone, on every key. *)
Theorem space_key_activates
        (bp : Button.Props) (fp : Fab.Props) (b : nat) (e : KeyboardEvent.t)
        (consumer : list Effect) :
  let lowered := JsString.toLowerCase (KeyboardEvent.key e) in
  (lowered = " " ->
   ButtonKeys.renderedOnKeyDown bp None (Some b) e
   = (if Button.disabled bp || Button.isLoading bp
      then [PreventDefault] else [PreventDefault; Click b], Normal tt)
   /\ FabKeys.renderedOnKeyDown fp None (Some b) e
      = (if Fab.disabled fp then [PreventDefault] else [PreventDefault; Click b],
         Normal tt))
  /\ (lowered <> " " -> lowered <> "constructor" -> lowered <> "__proto__" ->
      ButtonKeys.renderedOnKeyDown bp None (Some b) e = ([], Normal tt)
      /\ FabKeys.renderedOnKeyDown fp None (Some b) e = ([], Normal tt))
  /\ ButtonKeys.renderedOnKeyDown bp (Some consumer) (Some b) e = (consumer, Normal tt)
  /\ FabKeys.renderedOnKeyDown fp (Some consumer) (Some b) e = (consumer, Normal tt).
Proof.
  intros lowered. subst lowered. repeat split.
  - unfold ButtonKeys.renderedOnKeyDown, ButtonKeys.handleKeyDown.
    rewrite (handleKeyboardEvent_space _ e H). unfold ButtonKeys.spaceAction.
    destruct (Button.disabled bp), (Button.isLoading bp); reflexivity.
  - unfold FabKeys.renderedOnKeyDown, FabKeys.handleKeyDown.
    rewrite (handleKeyboardEvent_space _ e H). unfold FabKeys.spaceAction.
    destruct (Fab.disabled fp); reflexivity.
  - unfold ButtonKeys.renderedOnKeyDown, ButtonKeys.handleKeyDown.
    now rewrite (handleKeyboardEvent_other _ e H H0 H1).
  - unfold FabKeys.renderedOnKeyDown, FabKeys.handleKeyDown.
    now rewrite (handleKeyboardEvent_other _ e H H0 H1).
Qed.

Lemma space_key_activates_witness :
  ButtonKeys.renderedOnKeyDown
    (Button.mkProps false false false None None 600 None) None (Some 7%nat)
    (keyEvent " " false false false false)
  = ([PreventDefault; Click 7%nat], Normal tt)
  /\ ButtonKeys.renderedOnKeyDown
       (Button.mkProps true false false None None 600 None) None (Some 7%nat)
       (keyEvent " " false false false false)
     = ([PreventDefault], Normal tt)
  /\ ButtonKeys.renderedOnKeyDown
       (Button.mkProps false false false None None 600 None) None (Some 7%nat)
       (keyEvent "Enter" false false false false)
     = ([], Normal tt).
Proof.
  pose (fp := Fab.mkProps false false None None).
  split; [|split].
  - apply (space_key_activates (Button.mkProps false false false None None 600 None)
             fp 7 (keyEvent " " false false false false) []).
    reflexivity.
  - apply (space_key_activates (Button.mkProps true false false None None 600 None)
             fp 7 (keyEvent " " false false false false) []).
    reflexivity.
  - apply (space_key_activates (Button.mkProps false false false None None 600 None)
             fp 7 (keyEvent "Enter" false false false false) []);
      discriminate.
Defined.

(* ================================================================= *)
(** ** [manageFocus] *)

Section FocusFacts.

Import Focus.

Lemma focus_focusable (el : nat) (doc : Document) :
  focusable (focus el doc) = focusable doc.
Proof. unfold focus. destruct (focusable doc el); reflexivity. Qed.

Lemma focus_moves (el : nat) (doc : Document) :
  focusable doc el = true -> activeElement (focus el doc) = Some el.
Proof. unfold focus. now intros ->. Qed.

Lemma focus_stays (el : nat) (doc : Document) :
  focusable doc el = false -> focus el doc = doc.
Proof. unfold focus. now intros ->. Qed.

End FocusFacts.

(** X6. The function that [manageFocus] returns, called on any later state
    of the document: it puts the focus back on the element that had it
    when that element can take the focus, and leaves the document as it
    is when that element cannot (the body, a disabled or removed
    element), when nothing had the focus, or when [restoreFocus] is
    false. With no element to focus, [manageFocus] changes nothing and
    returns a function that changes nothing. *)
Theorem manageFocus_restores
        (el : nat) (doc later : Focus.Document) (restoreFocus : bool) :
  let restore := snd (Focus.manageFocus (Some el) true doc) in
  (forall p, Focus.activeElement doc = Some p ->
             Focus.focusable later p = true ->
             Focus.activeElement (restore later) = Some p)
  /\ (forall p, Focus.activeElement doc = Some p ->
                Focus.focusable later p = false ->
                restore later = later)
  /\ (Focus.activeElement doc = None -> restore later = later)
  /\ snd (Focus.manageFocus (Some el) false doc) later = later
  /\ fst (Focus.manageFocus None restoreFocus doc) = doc
  /\ snd (Focus.manageFocus None restoreFocus doc) later = later.
Proof.
  simpl. repeat split.
  - intros p -> Hf. now apply focus_moves.
  - intros p -> Hf. now apply focus_stays.
  - now intros ->.
Qed.

Lemma manageFocus_restores_witness :
  Focus.activeElement
    (snd (Focus.manageFocus (Some 2%nat) true
            (Focus.mkDocument (Some 1%nat) (fun _ => true)))
         (Focus.mkDocument (Some 2%nat) (fun _ => true)))
  = Some 1%nat.
Proof.
  destruct (manageFocus_restores 2 (Focus.mkDocument (Some 1%nat) (fun _ => true))
              (Focus.mkDocument (Some 2%nat) (fun _ => true)) true) as [H _].
  apply (H 1%nat); reflexivity.
Defined.

(** X7. Two nested calls of [manageFocus], on [a] and then on [b], all
    elements able to take the focus: undoing them in reverse order ends
    with the focus where it was at the start; undoing them in the order
    they were made ends with the focus on [a]. *)
Theorem manageFocus_nested (a b p : nat) (doc : Focus.Document) :
  Focus.activeElement doc = Some p ->
  Focus.focusable doc a = true ->
  Focus.focusable doc p = true ->
  let '(doc1, restoreA) := Focus.manageFocus (Some a) true doc in
  let '(doc2, restoreB) := Focus.manageFocus (Some b) true doc1 in
  Focus.activeElement (restoreA (restoreB doc2)) = Some p
  /\ Focus.activeElement (restoreB (restoreA doc2)) = Some a.
Proof.
  intros Hp Ha Hfp. simpl. rewrite Hp.
  rewrite (focus_moves a doc Ha). split.
  - apply focus_moves. now rewrite !focus_focusable.
  - apply focus_moves. now rewrite !focus_focusable.
Qed.

Lemma manageFocus_nested_witness :
  let doc := Focus.mkDocument (Some 1%nat) (fun _ => true) in
  let '(doc1, restoreA) := Focus.manageFocus (Some 2%nat) true doc in
  let '(doc2, restoreB) := Focus.manageFocus (Some 3%nat) true doc1 in
  Focus.activeElement (restoreA (restoreB doc2)) = Some 1%nat
  /\ Focus.activeElement (restoreB (restoreA doc2)) = Some 2%nat.
Proof.
  exact (manageFocus_nested 2 3 1 (Focus.mkDocument (Some 1%nat) (fun _ => true))
           eq_refl eq_refl eq_refl).
Defined.

(* ================================================================= *)
(** ** Ripples and their timers *)

Section TreeAlgebra.

Lemma updateNth_compose {A} (f g : A -> A) (l : list A) :
  forall i, updateNth i f (updateNth i g l) = updateNth i (fun x => f (g x)) l.
Proof.
  induction l as [|x r IH]; intros [|i]; simpl; try reflexivity.
  now rewrite IH.
Qed.

Lemma updateNth_ext {A} (f g : A -> A) (l : list A) :
  forall i, (forall x, nth_error l i = Some x -> f x = g x) ->
            updateNth i f l = updateNth i g l.
Proof.
  induction l as [|x r IH]; intros [|i] H; simpl; try reflexivity.
  - now rewrite (H x eq_refl).
  - rewrite (IH i); [reflexivity|]. intros y Hy. now apply H.
Qed.

Lemma updateNth_same {A} (f : A -> A) (l : list A) :
  forall i, (forall x, nth_error l i = Some x -> f x = x) -> updateNth i f l = l.
Proof.
  induction l as [|x r IH]; intros [|i] H; simpl; try reflexivity.
  - now rewrite (H x eq_refl).
  - rewrite (IH i); [reflexivity|]. intros y Hy. now apply H.
Qed.

(** Two mutations of the same element are one. *)
Lemma updateAt_compose (f g : Node -> Node) (p : NodeRef) :
  forall b, updateAt p f (updateAt p g b) = updateAt p (fun c => f (g c)) b.
Proof.
  induction p as [|i q IH]; intros b; [reflexivity|].
  destruct b as [id t c s kids]. simpl. f_equal.
  rewrite updateNth_compose. apply updateNth_ext. intros x _. apply IH.
Qed.

(** A mutation is known by what it does to the element it reaches. *)
Lemma updateAt_ext (f g : Node -> Node) (p : NodeRef) :
  forall b c, nodeAt p b = Some c -> f c = g c -> updateAt p f b = updateAt p g b.
Proof.
  induction p as [|i q IH]; intros b c; simpl.
  - now intros [= ->].
  - destruct b as [id t cl s kids]. simpl.
    destruct (nth_error kids i) as [k|] eqn:Ek; [|discriminate].
    intros Hk Hfg. f_equal. apply updateNth_ext.
    intros x Hx. rewrite Ek in Hx. injection Hx as <-. now apply (IH k c).
Qed.

Lemma updateAt_same (f : Node -> Node) (p : NodeRef) :
  forall b c, nodeAt p b = Some c -> f c = c -> updateAt p f b = b.
Proof.
  induction p as [|i q IH]; intros b c; simpl.
  - now intros [= ->].
  - destruct b as [id t cl s kids]. simpl.
    destruct (nth_error kids i) as [k|] eqn:Ek; [|discriminate].
    intros Hk Hfg. f_equal. apply updateNth_same.
    intros x Hx. rewrite Ek in Hx. injection Hx as <-. now apply (IH k c).
Qed.

Lemma nodeId_updateAt (f : Node -> Node) (p : NodeRef) (b : Node) :
  (forall c, nodeId (f c) = nodeId c) -> nodeId (updateAt p f b) = nodeId b.
Proof.
  intros Hf. destruct p as [|i q]; [apply Hf|]. destruct b; reflexivity.
Qed.

Lemma removeFromChildren_absent (id : nat) (kids : list Node) :
  ~ In id (flat_map nodeIds kids) -> removeFromChildren id kids = kids.
Proof.
  induction kids as [|k r IH]; simpl; [reflexivity|].
  rewrite in_app_iff. intros H.
  destruct (Nat.eqb_spec (nodeId k) id) as [E|E].
  - exfalso. apply H. left. rewrite <- E. apply nodeId_in_nodeIds.
  - rewrite removeNode_absent by tauto. rewrite IH by tauto. reflexivity.
Qed.

Lemma removeFromChildren_app (id : nat) (l1 l2 : list Node) :
  removeFromChildren id (l1 ++ l2)
  = removeFromChildren id l1 ++ removeFromChildren id l2.
Proof.
  induction l1 as [|k r IH]; simpl; [reflexivity|].
  destruct (nodeId k =? id)%nat; simpl; now rewrite IH.
Qed.

Lemma removeFromChildren_ripples (id : nat) (rs : list Node) :
  Forall isRipple rs ->
  removeFromChildren id rs = filter (fun r => negb (nodeId r =? id)%nat) rs.
Proof.
  induction 1 as [|r rs [_ Hleaf] _ IH]; simpl; [reflexivity|].
  destruct (nodeId r =? id)%nat; simpl; [exact IH|].
  rewrite IH. f_equal.
  destruct r as [i t c s kids]. simpl in Hleaf. subst kids. reflexivity.
Qed.

(** Removing a node below a mutated element is removing it in what the
    mutation made, when the node is nowhere else. *)
Lemma removeNode_updateAt (id : nat) (g : Node -> Node) (p : NodeRef) :
  (forall c, nodeId (g c) = nodeId c) ->
  forall b, ~ In id (nodeIds b) ->
            removeNode id (updateAt p g b)
            = updateAt p (fun c => removeNode id (g c)) b.
Proof.
  intros Hg. induction p as [|i q IH]; intros b Hb; [reflexivity|].
  destruct b as [bi t cl s kids]. simpl updateAt.
  rewrite removeNode_children. f_equal.
  assert (Hkids : ~ In id (flat_map nodeIds kids)) by (intros H; apply Hb; now right).
  clear Hb. revert i. induction kids as [|k r IHr]; intros i; [now destruct i|].
  simpl in Hkids. rewrite in_app_iff in Hkids.
  assert (Hk : nodeId k <> id).
  { intros E. apply Hkids. left. rewrite <- E. apply nodeId_in_nodeIds. }
  destruct i as [|j]; simpl.
  - rewrite (nodeId_updateAt g q k Hg).
    destruct (Nat.eqb_spec (nodeId k) id) as [E|_]; [contradiction|].
    rewrite IH by tauto. rewrite removeFromChildren_absent by tauto. reflexivity.
  - destruct (Nat.eqb_spec (nodeId k) id) as [E|_]; [contradiction|].
    rewrite removeNode_absent by tauto. rewrite IHr by tauto. reflexivity.
Qed.

Lemma nodeAt_ids (p : NodeRef) :
  forall b c, nodeAt p b = Some c -> incl (nodeIds c) (nodeIds b).
Proof.
  induction p as [|i q IH]; intros b c; simpl.
  - intros [= ->]. apply incl_refl.
  - destruct b as [bi t cl s kids]. simpl.
    destruct (nth_error kids i) as [k|] eqn:Ek; [|discriminate].
    intros Hk x Hx. right. apply in_flat_map. exists k. split.
    + eapply nth_error_In; eassumption.
    + now apply (IH k c).
Qed.

Lemma nodeId_appendChildren (rs : list Node) (c : Node) :
  nodeId (appendChildren rs c) = nodeId c.
Proof. destruct c; reflexivity. Qed.

Lemma hasClass_appendChildren (cls : string) (rs : list Node) (c : Node) :
  hasClass cls (appendChildren rs c) = hasClass cls c.
Proof. destruct c; reflexivity. Qed.

Lemma appendChildren_nil (c : Node) : appendChildren [] c = c.
Proof. destruct c. simpl. now rewrite app_nil_r. Qed.

Lemma appendChild_appendChildren (r : Node) (rs : list Node) (c : Node) :
  appendChild r (appendChildren rs c) = appendChildren (rs ++ [r]) c.
Proof. destruct c. simpl. now rewrite app_assoc. Qed.

(** Removing from an element with ripples appended. *)
Lemma removeNode_appendChildren (id : nat) (rs : list Node) (c : Node) :
  ~ In id (nodeIds c) ->
  Forall isRipple rs ->
  removeNode id (appendChildren rs c)
  = appendChildren (filter (fun r => negb (nodeId r =? id)%nat) rs) c.
Proof.
  intros Hc Hrs. destruct c as [i t cl s kids]. simpl appendChildren.
  rewrite removeNode_children, removeFromChildren_app. f_equal. f_equal.
  - apply removeFromChildren_absent. intros H. apply Hc. now right.
  - now apply removeFromChildren_ripples.
Qed.

Lemma countClass_ripple (r : Node) :
  isRipple r -> countClass "ripple-effect" r = 1%nat.
Proof.
  intros [Hc Hk]. destruct r as [i t c s kids]. simpl in *. subst. reflexivity.
Qed.

Lemma countClass_appendChildren (rs : list Node) (c : Node) :
  Forall isRipple rs ->
  countClass "ripple-effect" (appendChildren rs c)
  = (countClass "ripple-effect" c + List.length rs)%nat.
Proof.
  intros Hrs.
  assert (Hsum : list_sum (map (countClass "ripple-effect") rs) = List.length rs).
  { induction Hrs as [|r rs Hr _ IH]; simpl; [reflexivity|].
    now rewrite (countClass_ripple r Hr), IH. }
  destruct c as [i t cl s kids].
  cbn [appendChildren countClass]. unfold hasClass. cbn [classList].
  rewrite map_app, list_sum_app, Hsum. lia.
Qed.

(** The count of a class changes by what the mutated element changes. *)
Lemma countClass_updateAt (cls : string) (f : Node -> Node) (p : NodeRef) :
  (forall c, hasClass cls (f c) = hasClass cls c) ->
  forall b c, nodeAt p b = Some c ->
              (countClass cls (updateAt p f b) + countClass cls c
               = countClass cls b + countClass cls (f c))%nat.
Proof.
  intros Hf. induction p as [|i q IH]; intros b c; simpl nodeAt.
  - intros [= ->]. simpl. lia.
  - destruct b as [id t cl s kids]. simpl childNodes.
    destruct (nth_error kids i) as [k|] eqn:Ek; [|discriminate].
    intros Hk. specialize (IH k c Hk).
    pose proof (list_sum_updateNth (countClass cls) (updateAt q f) kids i k Ek) as Hs.
    cbn [updateAt countClass]. unfold hasClass in *. cbn [classList].
    lia.
Qed.

End TreeAlgebra.

Section RippleSequences.

Variable b0 : Node.
Variable bound : nat.
Hypothesis b0_identified : Forall (fun i => (i < bound)%nat) (nodeIds b0).

Lemma withRipples_nil : withRipples b0 [] = b0.
Proof.
  unfold withRipples.
  destruct (querySelector "ripple-container" b0) as [p|] eqn:Hq; [|reflexivity].
  destruct (querySelector_sound _ _ p Hq) as (_ & c & Hc & _).
  apply (updateAt_same _ p b0 c Hc). apply appendChildren_nil.
Qed.

Lemma querySelector_withRipples (rs : list Node) :
  querySelector "ripple-container" (withRipples b0 rs)
  = querySelector "ripple-container" b0.
Proof.
  unfold withRipples.
  destruct (querySelector "ripple-container" b0) as [p|] eqn:Hq; [|exact Hq].
  apply querySelector_updateAt; [|exact Hq].
  intros x. apply hasClass_appendChildren.
Qed.

(** One more ripple appended. *)
Lemma withRipples_append (rs : list Node) (r : Node) :
  match querySelector "ripple-container" (withRipples b0 rs) with
  | Some p => updateAt p (appendChild r) (withRipples b0 rs)
  | None => withRipples b0 rs
  end = withRipples b0 (rs ++ [r]).
Proof.
  rewrite querySelector_withRipples. unfold withRipples.
  destruct (querySelector "ripple-container" b0) as [p|] eqn:Hq; [|reflexivity].
  destruct (querySelector_sound _ _ p Hq) as (_ & c & Hc & _).
  rewrite updateAt_compose.
  apply (updateAt_ext _ _ p b0 c Hc). apply appendChild_appendChildren.
Qed.

(** The timer of a ripple takes that ripple away and nothing else. *)
Lemma withRipples_remove (rs : list Node) (id : nat) :
  Forall isRipple rs ->
  (bound <= id)%nat ->
  removeNode id (withRipples b0 rs)
  = withRipples b0 (filter (fun r => negb (nodeId r =? id)%nat) rs).
Proof.
  intros Hrs Hid.
  assert (Habs : ~ In id (nodeIds b0)).
  { intros Hin. rewrite Forall_forall in b0_identified.
    specialize (b0_identified id Hin). lia. }
  unfold withRipples.
  destruct (querySelector "ripple-container" b0) as [p|] eqn:Hq.
  - destruct (querySelector_sound _ _ p Hq) as (_ & c & Hc & _).
    rewrite removeNode_updateAt;
      [| intros x; apply nodeId_appendChildren | exact Habs].
    apply (updateAt_ext _ _ p b0 c Hc).
    apply removeNode_appendChildren; [|exact Hrs].
    intros Hin. apply Habs. exact (nodeAt_ids p b0 c Hc id Hin).
  - now apply removeNode_absent.
Qed.

Lemma countClass_withRipples (rs : list Node) :
  Forall isRipple rs ->
  countClass "ripple-effect" (withRipples b0 rs)
  = (countClass "ripple-effect" b0
     + match querySelector "ripple-container" b0 with
       | Some _ => List.length rs
       | None => 0
       end)%nat.
Proof.
  intros Hrs. unfold withRipples.
  destruct (querySelector "ripple-container" b0) as [p|] eqn:Hq; [|lia].
  destruct (querySelector_sound _ _ p Hq) as (_ & c & Hc & _).
  pose proof (countClass_updateAt "ripple-effect" (appendChildren rs) p
                (fun x => hasClass_appendChildren _ rs x) b0 c Hc) as H.
  rewrite (countClass_appendChildren rs c Hrs) in H. lia.
Qed.

Lemma remaining_cons (t : Timer) (due : list Timer) (rs : list Node) :
  remaining (t :: due) rs
  = remaining due (filter (fun r => negb (nodeId r =? timerRemoves t)%nat) rs).
Proof.
  unfold remaining. induction rs as [|r rs IH]; [reflexivity|].
  simpl in *. destruct (nodeId r =? timerRemoves t)%nat; simpl.
  - exact IH.
  - destruct (existsb (Nat.eqb (nodeId r)) (map timerRemoves due)); simpl;
      now rewrite IH.
Qed.

Lemma remaining_all (due : list Timer) (rs : list Node) :
  Forall (fun r => In (nodeId r) (map timerRemoves due)) rs ->
  remaining due rs = [].
Proof.
  unfold remaining. induction 1 as [|r rs Hr _ IH]; simpl; [reflexivity|].
  assert (E : existsb (Nat.eqb (nodeId r)) (map timerRemoves due) = true).
  { apply existsb_exists. exists (nodeId r). split; [exact Hr | apply Nat.eqb_refl]. }
  now rewrite E.
Qed.

Lemma filter_isRipple (f : Node -> bool) (rs : list Node) :
  Forall isRipple rs -> Forall isRipple (filter f rs).
Proof.
  induction 1 as [|r rs Hr _ IH]; simpl; [constructor|].
  destruct (f r); [now constructor | exact IH].
Qed.

(** The timers fire: what is left are the ripples of other timers. *)
Lemma fireTimers_withRipples (due : list Timer) :
  forall d rs,
    button d = withRipples b0 rs ->
    Forall isRipple rs ->
    Forall (fun t => (bound <= timerRemoves t)%nat) due ->
    exists d', fireTimers due d = Normal d'
               /\ button d' = withRipples b0 (remaining due rs).
Proof.
  induction due as [|t due IH]; intros d rs Hb Hrs Hdue.
  - exists d. split; [reflexivity|]. unfold remaining. simpl.
    rewrite Hb. f_equal. clear Hb Hrs.
    induction rs as [|a rs IHrs]; simpl; [reflexivity | now rewrite <- IHrs].
  - inversion Hdue as [|? ? Ht Hrest]; subst.
    simpl fireTimers. unfold fireTimer. simpl bind.
    destruct (IH (withButton (removeNode (timerRemoves t) (button d)) d)
                 (filter (fun r => negb (nodeId r =? timerRemoves t)%nat) rs))
      as (d' & Hfire & Hb').
    + simpl. rewrite Hb. now apply withRipples_remove.
    + now apply filter_isRipple.
    + exact Hrest.
    + exists d'. split; [exact Hfire|]. now rewrite remaining_cons.
Qed.

End RippleSequences.

Section ClickSequences.

Variable emit : MouseEvent -> Page -> Completion Page.
Variable delay : Q.
Hypothesis emit_emitted :
  forall e d, exists d', emit e d = Normal d' /\ emitted delay d d'.

Lemma rippling_start (d0 : Page) : rippling delay d0 d0 [] [].
Proof.
  unfold rippling. rewrite withRipples_nil, app_nil_r.
  repeat split; try constructor.
Qed.

Lemma rippling_step (d0 d d' : Page) (rs : list Node) (new : list Timer) :
  rippling delay d0 d rs new ->
  emitted delay d d' ->
  exists r, rippling delay d0 d' (rs ++ [r]) (new ++ [mkTimer delay (nextId d)]).
Proof.
  intros (Hb & Hrs & Ht & Hnew & Hids & Hlen & Hn) (r & Hid & Hr & Hb' & Hn' & Ht').
  exists r. unfold rippling. repeat split.
  - rewrite Hb', Hb. apply withRipples_append.
  - apply Forall_app. split; [exact Hrs | now constructor].
  - rewrite Ht', Ht. now rewrite app_assoc.
  - apply Forall_app. split; [exact Hnew|]. constructor; [|constructor].
    simpl. split; [exact Hn | reflexivity].
  - apply Forall_app. split.
    + eapply Forall_impl; [|exact Hids]. intros x Hx. simpl in Hx.
      rewrite map_app, in_app_iff. now left.
    + constructor; [|constructor]. rewrite map_app, in_app_iff. right.
      simpl. left. now rewrite Hid.
  - rewrite !length_app, Hlen. reflexivity.
  - rewrite Hn'. lia.
Qed.

Lemma clicks_rippling (d0 : Page) (events : list MouseEvent) :
  forall d rs new,
    rippling delay d0 d rs new ->
    exists d' rs' new',
      clicks emit events d = Normal d'
      /\ rippling delay d0 d' rs' new'
      /\ List.length new' = (List.length new + List.length events)%nat.
Proof.
  induction events as [|e es IH]; intros d rs new Hinv.
  - exists d, rs, new. split; [reflexivity|]. split; [exact Hinv | simpl; lia].
  - destruct (emit_emitted e d) as (d1 & Hemit & Hem).
    destruct (rippling_step d0 d d1 rs new Hinv Hem) as (r & Hinv1).
    destruct (IH d1 _ _ Hinv1) as (d' & rs' & new' & Hclicks & Hinv' & Hlen).
    exists d', rs', new'. simpl clicks. rewrite Hemit. simpl bind.
    split; [exact Hclicks|]. split; [exact Hinv'|].
    rewrite Hlen, length_app. simpl. lia.
Qed.

(** Any number of emissions that append, and then their timers. *)
Lemma clicks_then_timers (d0 : Page) (events : list MouseEvent) :
  identified d0 ->
  exists d' new d'',
    clicks emit events d0 = Normal d'
    /\ timers d' = timers d0 ++ new
    /\ List.length new = List.length events
    /\ Forall (fun t => timerDelay t = delay) new
    /\ countClass "ripple-effect" (button d')
       = (countClass "ripple-effect" (button d0)
          + match querySelector "ripple-container" (button d0) with
            | Some _ => List.length events
            | None => 0
            end)%nat
    /\ fireTimers new d' = Normal d''
    /\ button d'' = button d0.
Proof.
  intros Hid.
  destruct (clicks_rippling d0 events d0 [] [] (rippling_start d0))
    as (d' & rs & new & Hclicks & (Hb & Hrs & Ht & Hnew & Hids & Hlen & Hn) & Hl).
  assert (Hdue : Forall (fun t => (nextId d0 <= timerRemoves t)%nat) new).
  { eapply Forall_impl; [|exact Hnew]. now intros t [H _]. }
  destruct (fireTimers_withRipples (button d0) (nextId d0) Hid new d' rs Hb Hrs Hdue)
    as (d'' & Hfire & Hb'').
  exists d', new, d''. repeat split; try assumption.
  - eapply Forall_impl; [|exact Hnew]. now intros t [_ H].
  - rewrite Hb, countClass_withRipples by exact Hrs.
    destruct (querySelector "ripple-container" (button d0)); [|reflexivity].
    rewrite Hlen, Hl. reflexivity.
  - rewrite Hb'', (remaining_all new rs Hids). apply withRipples_nil.
Qed.

End ClickSequences.

Section EmitterShapes.

Lemma Utils_createRippleEffect_emitted (w : Window) (e : MouseEvent) (d : Page) :
  matchMedia w "(prefers-reduced-motion: reduce)" = false ->
  exists d', Utils.createRippleEffect w e d = Normal d' /\ emitted 600 d d'.
Proof.
  intros Hred. unfold Utils.createRippleEffect.
  rewrite prefersReducedMotion_browser, Hred.
  cbn [bind]. unfold createElement. cbv beta iota zeta.
  eexists. split; [reflexivity|].
  match goal with
  | |- emitted _ _ (setTimeout ?R _ _) => unfold emitted; exists R
  end.
  split; [reflexivity|]. split; [split; reflexivity|].
  run_page.
  destruct (querySelector "ripple-container" (button d)); repeat split.
Qed.

Lemma Button_handleRippleEffect_emitted (props : Button.Props) (e : MouseEvent)
      (d : Page) :
  Button.disableAnimation props || Button.disabled props
  || Button.isLoading props = false ->
  exists d', Button.handleRippleEffect props e d = Normal d'
             /\ emitted (Button.rippleDuration props) d d'.
Proof.
  intros Hen. unfold Button.handleRippleEffect. rewrite Hen.
  unfold createElement. cbv beta iota zeta.
  eexists. split; [reflexivity|].
  match goal with
  | |- emitted _ _ (setTimeout ?R _ _) => unfold emitted; exists R
  end.
  destruct (Button.rippleColor props) as [color|];
    [destruct (JsString.truthy color)|];
    (split; [reflexivity|]); (split; [split; reflexivity|]); run_page;
    destruct (querySelector "ripple-container" (button d)); repeat split.
Qed.

End EmitterShapes.

(** X8. Any number of clicks handled by [createRippleEffect] of utils.ts,
    reduced motion off: every click sets one timer of 600 ms; on a host
    with a ripple container every click adds one ripple to the ones that
    are there (they pile up), on a host without one the tree stays as it
    is; and once the timers of these clicks have fired the tree of the
    host is what it was before the first click. ([identified]: the
    elements of the tree were created before the ones to come, as they
    are in every document.) *)
Theorem ripples_leave_with_their_timers
        (w : Window) (events : list MouseEvent) (d : Page) :
  matchMedia w "(prefers-reduced-motion: reduce)" = false ->
  identified d ->
  exists d' new d'',
    clicks (Utils.createRippleEffect w) events d = Normal d'
    /\ timers d' = timers d ++ new
    /\ List.length new = List.length events
    /\ Forall (fun t => timerDelay t = 600) new
    /\ countClass "ripple-effect" (button d')
       = (countClass "ripple-effect" (button d)
          + match querySelector "ripple-container" (button d) with
            | Some _ => List.length events
            | None => 0
            end)%nat
    /\ fireTimers new d' = Normal d''
    /\ button d'' = button d.
Proof.
  intros Hred Hid.
  apply (clicks_then_timers (Utils.createRippleEffect w) 600); [|exact Hid].
  intros e x. now apply Utils_createRippleEffect_emitted.
Qed.

Lemma ripples_leave_with_their_timers_witness :
  exists d' new d'',
    clicks (Utils.createRippleEffect (sampleWindow false))
           [sampleClick; mkMouseEvent 10 10; sampleClick] samplePage
    = Normal d'
    /\ timers d' = new
    /\ countClass "ripple-effect" (button d') = 3%nat
    /\ fireTimers new d' = Normal d''
    /\ button d'' = sampleButton.
Proof.
  assert (Hid : identified samplePage) by (repeat constructor).
  destruct (ripples_leave_with_their_timers (sampleWindow false)
              [sampleClick; mkMouseEvent 10 10; sampleClick] samplePage
              eq_refl Hid)
    as (d' & new & d'' & H1 & H2 & _ & _ & H5 & H6 & H7).
  exists d', new, d''. repeat split; assumption.
Defined.

(** X9. The same for [handleRippleEffect] of an enabled Button with
    animation on: one timer per click with the delay [rippleDuration],
    one more ripple per click in the ripple container, and the tree of
    the host as before once these timers have fired. *)
Theorem button_ripples_leave_with_their_timers
        (props : Button.Props) (events : list MouseEvent) (d : Page) :
  Button.disableAnimation props || Button.disabled props
  || Button.isLoading props = false ->
  identified d ->
  exists d' new d'',
    clicks (Button.handleRippleEffect props) events d = Normal d'
    /\ timers d' = timers d ++ new
    /\ List.length new = List.length events
    /\ Forall (fun t => timerDelay t = Button.rippleDuration props) new
    /\ countClass "ripple-effect" (button d')
       = (countClass "ripple-effect" (button d)
          + match querySelector "ripple-container" (button d) with
            | Some _ => List.length events
            | None => 0
            end)%nat
    /\ fireTimers new d' = Normal d''
    /\ button d'' = button d.
Proof.
  intros Hen Hid.
  apply (clicks_then_timers (Button.handleRippleEffect props)
           (Button.rippleDuration props)); [|exact Hid].
  intros e x. now apply Button_handleRippleEffect_emitted.
Qed.

Lemma button_ripples_leave_with_their_timers_witness :
  exists d' new d'',
    clicks (Button.handleRippleEffect
              (Button.mkProps false false false None (Some "#ff0000") 900 None))
           [sampleClick; sampleClick] samplePage
    = Normal d'
    /\ timers d' = new
    /\ Forall (fun t => timerDelay t = 900) new
    /\ fireTimers new d' = Normal d''
    /\ button d'' = sampleButton.
Proof.
  assert (Hid : identified samplePage) by (repeat constructor).
  destruct (button_ripples_leave_with_their_timers
              (Button.mkProps false false false None (Some "#ff0000") 900 None)
              [sampleClick; sampleClick] samplePage eq_refl Hid)
    as (d' & new & d'' & H1 & H2 & _ & H4 & _ & H6 & H7).
  exists d', new, d''. repeat split; assumption.
Defined.

Section ClearingSequences.

Lemma clicks_app (emit : MouseEvent -> Page -> Completion Page)
      (es1 es2 : list MouseEvent) :
  forall d, clicks emit (es1 ++ es2) d = bind (clicks emit es1 d) (clicks emit es2).
Proof.
  induction es1 as [|e es IH]; intros d; simpl; [reflexivity|].
  destruct (emit e d) as [d1|err]; simpl; [apply IH | reflexivity].
Qed.

Lemma clicks_total (emit : MouseEvent -> Page -> Completion Page) :
  (forall e d, exists d', emit e d = Normal d') ->
  forall es d, exists d', clicks emit es d = Normal d'.
Proof.
  intros Htotal. induction es as [|e es IH]; intros d; simpl.
  - now exists d.
  - destruct (Htotal e d) as (d1 & ->). simpl. apply IH.
Qed.

End ClearingSequences.

(** X10. The clear-then-insert emitter, reduced motion off: after any number
    of clicks, one at least, the ripple container of the host holds
    exactly one ripple, the one of the last click, whatever the host
    held before. *)
Theorem clearing_emitter_keeps_one_ripple
        (w : Window) (events : list MouseEvent) (last : MouseEvent) (d : Page) :
  matchMedia w "(prefers-reduced-motion: reduce)" = false ->
  exists d' p c before ripple,
    clicks (UtilsClearing.createRippleEffect w) (events ++ [last]) d = Normal d'
    /\ querySelector "ripple-container" (button d') = Some p
    /\ nodeAt p (button d') = Some c
    /\ countClassBelow "ripple-effect" c = 1%nat
    /\ childNodes c = before ++ [ripple]
    /\ classList ripple = ["ripple-effect"].
Proof.
  intros Hred.
  destruct (clicks_total (UtilsClearing.createRippleEffect w)
              (UtilsClearing_createRippleEffect_total w) events d) as (d1 & H1).
  destruct (UtilsClearing_createRippleEffect_inserts w last d1 Hred)
    as (d' & p & Hemit & c & before & ripple & x & y & Hq & Hc & Hk & Hn & Hcl & _).
  exists d', p, c, before, ripple.
  rewrite clicks_app, H1. simpl. rewrite Hemit.
  repeat split; assumption.
Qed.

Lemma clearing_emitter_keeps_one_ripple_witness :
  exists d' p c,
    clicks (UtilsClearing.createRippleEffect (sampleWindow false))
           [sampleClick; sampleClick; sampleClick] samplePage
    = Normal d'
    /\ querySelector "ripple-container" (button d') = Some p
    /\ nodeAt p (button d') = Some c
    /\ countClassBelow "ripple-effect" c = 1%nat.
Proof.
  destruct (clearing_emitter_keeps_one_ripple (sampleWindow false)
              [sampleClick; sampleClick] sampleClick samplePage eq_refl)
    as (d' & p & c & _ & _ & H1 & H2 & H3 & H4 & _).
  exists d', p, c. repeat split; assumption.
Defined.

(* ================================================================= *)
(** ** The emitter of the Button *)

(** X11. [handleRippleEffect] of an enabled Button with animation on, on a
    host with a ripple container and a click in the box of the host: one
    ripple is appended to the container, a square as large as the larger
    side of the host whose center is the point of the click within the
    rounding of the offsets, as by the emitter of utils.ts; no background
    color is assigned to it when [rippleColor] is undefined or empty;
    reduced motion plays no part. *)
Theorem button_ripple_inserted_and_centered
        (props : Button.Props) (e : MouseEvent) (d : Page) (p : NodeRef)
        (bound : Q) :
  Button.disableAnimation props || Button.disabled props
  || Button.isLoading props = false ->
  querySelector "ripple-container" (button d) = Some p ->
  inside e (rect d) ->
  sidesWithin bound (rect d) ->
  (1 <= bound)%Q ->
  (bound <= pow2 1000)%Q ->
  let larger := Number.max (DOMRect.width (rect d)) (DOMRect.height (rect d)) in
  exists c ripple d',
    Button.handleRippleEffect props e d = Normal d'
    /\ nodeAt p (button d) = Some c
    /\ nodeAt p (button d') = Some (appendChild ripple c)
    /\ nodeCount (button d') = S (nodeCount (button d))
    /\ classList ripple = ["ripple-effect"]
    /\ centeredOn ripple larger e (rect d) (subPixel bound)
    /\ (Number.toQ larger
        == Qmax (Number.toQ (DOMRect.width (rect d)))
                (Number.toQ (DOMRect.height (rect d))))%Q
    /\ (truthyOpt (Button.rippleColor props) = false ->
        CSSStyle.backgroundColor (style ripple) = None).
Proof.
  intros Hen Hq Hin Hsides HB1 HB2 larger.
  destruct (larger_side e (rect d) bound Hin Hsides) as (Fm & Vm & M0 & M1).
  fold larger in Fm, Vm, M0, M1.
  assert (Hs : (Qabs (Number.toQ larger) <= 3 * bound)%Q).
  { rewrite Qabs_pos by exact M0. lra. }
  destruct (querySelector_sound _ _ p Hq) as (Hne & c & Hc & Hcls).
  exists c.
  unfold Button.handleRippleEffect. rewrite Hen.
  unfold createElement. cbv beta iota zeta.
  cbn [button rect nextId].
  match goal with
  | |- context [setTimeout ?R _ _] => exists R
  end.
  eexists.
  split; [reflexivity|].
  split; [exact Hc|].
  unfold appendChildOpt. rewrite Hq.
  cbn [button setTimeout withButton].
  split; [apply (nodeAt_updateAt _ p _ c Hc)|].
  split.
  { match goal with
    | |- context [appendChild ?R] =>
        pose proof (nodeCount_updateAt (appendChild R) p (button d) c Hc) as Hn;
        rewrite nodeCount_appendChild in Hn;
        assert (H1 : nodeCount R = 1%nat)
          by (destruct (Button.rippleColor props) as [color|];
              [destruct (JsString.truthy color)|]; reflexivity);
        rewrite H1 in Hn
    end.
    lia. }
  fold larger.
  destruct (Button.rippleColor props) as [color|];
    [destruct (JsString.truthy color) eqn:Et|];
    cbn -[Number.max]; rewrite ?Et;
    (split; [reflexivity|]);
    (split;
     [apply (offsets_centered _ larger e (rect d) bound Hin Hsides HB1 HB2 Fm Hs);
      reflexivity|]);
    (split; [exact Vm|]);
    first [discriminate | reflexivity | (intros _; reflexivity)].
Qed.

Lemma button_ripple_inserted_and_centered_witness :
  exists c ripple d',
    Button.handleRippleEffect
      (Button.mkProps false false false None None 900 None)
      sampleClick samplePage = Normal d'
    /\ nodeAt [0%nat] (button samplePage) = Some c
    /\ nodeAt [0%nat] (button d') = Some (appendChild ripple c)
    /\ centeredOn ripple 100%float sampleClick (rect samplePage) (subPixel 128)
    /\ CSSStyle.backgroundColor (style ripple) = None.
Proof.
  assert (Hin : inside sampleClick (rect samplePage)).
  { repeat split; try reflexivity; vm_compute; discriminate. }
  assert (Hsides : sidesWithin 128 (rect samplePage)).
  { split; vm_compute; discriminate. }
  assert (HB1 : (1 <= 128)%Q) by (vm_compute; discriminate).
  assert (HB2 : (128 <= pow2 1000)%Q) by (vm_compute; discriminate).
  destruct (button_ripple_inserted_and_centered
              (Button.mkProps false false false None None 900 None)
              sampleClick samplePage [0%nat] 128 eq_refl eq_refl Hin Hsides HB1 HB2)
    as (c & ripple & d' & H1 & H2 & H3 & _ & _ & H6 & _ & H8).
  exists c, ripple, d'.
  repeat (split; [assumption|]). exact (H8 eq_refl).
Defined.

(** X12. An [onClick] of the consumer takes the place of the click handler of
    the control ([{...props}] is spread after [onClick=]): a click on such
    a Button or Fab emits no ripple, creates no element and sets no
    timer, whatever the motion preference and the ripple properties; it
    runs the consumer's handler once on an enabled control and not at all
    on a disabled (or loading) one. *)
Theorem consumer_onClick_takes_over
        (w : Window) (bp : Button.Props) (fp : Fab.Props)
        (e : MouseEvent) (d : Page) :
  Button.onClick bp <> None ->
  Fab.onClick fp <> None ->
  (exists d', Button.click w bp e d = Normal d'
              /\ untouched d d'
              /\ userClicks d'
                 = (userClicks d
                    + if Button.disabled bp || Button.isLoading bp then 0 else 1)%nat)
  /\ (exists d', Fab.click w fp e d = Normal d'
                 /\ untouched d d'
                 /\ userClicks d'
                    = (userClicks d + if Fab.disabled fp then 0 else 1)%nat).
Proof.
  intros Hb Hf. split.
  - unfold Button.click, Button.renderedOnClick.
    destruct (Button.onClick bp); [|congruence].
    destruct (Button.disabled bp || Button.isLoading bp);
      eexists; (split; [reflexivity|]); (split; [repeat split|]); simpl; lia.
  - unfold Fab.click, Fab.renderedOnClick.
    destruct (Fab.onClick fp); [|congruence].
    destruct (Fab.disabled fp);
      eexists; (split; [reflexivity|]); (split; [repeat split|]); simpl; lia.
Qed.

Lemma consumer_onClick_takes_over_witness :
  exists d',
    Button.click (sampleWindow false)
      (Button.mkProps false false false None (Some "#ff0000") 600
         (Some ConsumerHandler))
      sampleClick samplePage = Normal d'
    /\ untouched samplePage d'
    /\ userClicks d' = 1%nat.
Proof.
  destruct (consumer_onClick_takes_over (sampleWindow false)
              (Button.mkProps false false false None (Some "#ff0000") 600
                 (Some ConsumerHandler))
              (Fab.mkProps false false None (Some ConsumerHandler))
              sampleClick samplePage) as [(d' & H1 & H2 & H3) _];
    try discriminate.
  exists d'. repeat split; try assumption; apply H2.
Defined.

(* ================================================================= *)
(** ** Combinations that cannot fire, and the case of the event key *)

Section ShortcutEdges.

Import JsString.

Lemma split_pieces_free (sep : ascii) (s : string) :
  Forall (fun t => free sep t = true) (split sep s).
Proof.
  induction s as [|c s IH]; simpl.
  - repeat constructor.
  - destruct (Ascii.eqb c sep) eqn:Ec.
    + constructor; [reflexivity | exact IH].
    + destruct (split sep s) as [|t ts]; [repeat constructor; simpl; now rewrite Ec|].
      inversion IH as [|? ? Ht Hts]; subst.
      constructor; [simpl; now rewrite Ec, Ht | exact Hts].
Qed.

Lemma mainKey_in_keys (ks : list string) (k : string) :
  Shortcut.mainKey ks = Some k -> In k ks.
Proof.
  unfold Shortcut.mainKey.
  destruct (filter (fun t => negb (includes Shortcut.modifierTokens t)) ks)
    as [|x r] eqn:E; [discriminate|].
  intros [= <-].
  assert (Hin : In x (x :: r)) by now left.
  rewrite <- E in Hin. now apply filter_In in Hin.
Qed.

(** The literal key of a text is never the plus sign. *)
Lemma mainKey_not_plus (text : string) :
  Shortcut.mainKey (Shortcut.keys text) <> Some "+".
Proof.
  intros H. apply mainKey_in_keys in H.
  pose proof (split_pieces_free "+" (toLowerCase text)) as Hfree.
  rewrite Forall_forall in Hfree. specialize (Hfree "+" H). discriminate.
Qed.

Lemma mainKey_all_modifiers (ks : list string) :
  Forall (fun k => includes Shortcut.modifierTokens k = true) ks ->
  Shortcut.mainKey ks = None.
Proof.
  unfold Shortcut.mainKey. induction 1 as [|k r Hk _ IH]; [reflexivity|].
  cbn [filter]. rewrite Hk. cbn [negb]. exact IH.
Qed.

Lemma eventMatches_needs_mainKey (ks : list string) (e : KeyboardEvent.t) :
  Shortcut.mainKey ks <> Some (toLowerCase (KeyboardEvent.key e)) ->
  Shortcut.eventMatches ks e = false.
Proof.
  intros H. unfold Shortcut.eventMatches.
  destruct (strictEqOpt (Some (toLowerCase (KeyboardEvent.key e)))
                        (Shortcut.mainKey ks)) eqn:E; [|reflexivity].
  apply strictEqOpt_Some in E. contradiction.
Qed.

Lemma handlers_silent_without_match
      (bp : Button.Props) (fp : Fab.Props) (r : option nat)
      (ks : list string) (e : KeyboardEvent.t) :
  Shortcut.eventMatches ks e = false ->
  Button.handleGlobalKeyDown bp r ks e = []
  /\ Fab.handleGlobalKeyDown fp r ks e = [].
Proof.
  intros H. unfold Button.handleGlobalKeyDown, Fab.handleGlobalKeyDown.
  rewrite H. destruct (Shortcut.inTextEntry e); split; reflexivity.
Qed.

End ShortcutEdges.

(** X13. No combination text binds the plus key, since the text is split at
    every plus sign; and a text made of modifier names only never fires:
    in both cases the handlers of the Button and of the Fab do nothing,
    whatever the modifier flags of the event and the state of the
    control. *)
Theorem shortcut_cannot_bind
        (text : string) (e : KeyboardEvent.t) (r : option nat)
        (bp : Button.Props) (fp : Fab.Props) :
  (JsString.toLowerCase (KeyboardEvent.key e) = "+" ->
   Button.handleGlobalKeyDown bp r (Shortcut.keys text) e = []
   /\ Fab.handleGlobalKeyDown fp r (Shortcut.keys text) e = [])
  /\ (Forall (fun k => JsString.includes Shortcut.modifierTokens k = true)
             (Shortcut.keys text) ->
      Button.handleGlobalKeyDown bp r (Shortcut.keys text) e = []
      /\ Fab.handleGlobalKeyDown fp r (Shortcut.keys text) e = []).
Proof.
  split.
  - intros Hplus. apply handlers_silent_without_match.
    apply eventMatches_needs_mainKey. rewrite Hplus. apply mainKey_not_plus.
  - intros Hmods. apply handlers_silent_without_match.
    apply eventMatches_needs_mainKey. rewrite (mainKey_all_modifiers _ Hmods).
    discriminate.
Qed.

Lemma shortcut_cannot_bind_witness :
  Button.handleGlobalKeyDown
    (Button.mkProps false false false (Some "ctrl++") None 600 None)
    (Some 7%nat) (Shortcut.keys "ctrl++") (keyEvent "+" true false false false)
  = []
  /\ Button.handleGlobalKeyDown
       (Button.mkProps false false false (Some "ctrl+shift") None 600 None)
       (Some 7%nat) (Shortcut.keys "ctrl+shift")
       (keyEvent "Shift" true false true false)
     = [].
Proof.
  pose (fp := Fab.mkProps false false None None).
  split.
  - destruct (shortcut_cannot_bind "ctrl++" (keyEvent "+" true false false false)
                (Some 7%nat)
                (Button.mkProps false false false (Some "ctrl++") None 600 None) fp)
      as [H _].
    destruct (H eq_refl) as [HB _]. exact HB.
  - destruct (shortcut_cannot_bind "ctrl+shift"
                (keyEvent "Shift" true false true false) (Some 7%nat)
                (Button.mkProps false false false (Some "ctrl+shift") None 600 None)
                fp) as [_ H].
    assert (Hmods : Forall (fun k => JsString.includes Shortcut.modifierTokens k = true)
                           (Shortcut.keys "ctrl+shift"))
      by (repeat constructor).
    destruct (H Hmods) as [HB _]. exact HB.
Defined.

(** X14. The handlers read the key of the event in lower case, whatever
    the alphabet: an event whose key has the same lower case form as the
    key of another (Shift held, Caps Lock) and is the same otherwise gets
    the same answer from the handler of the Button and from that of the
    Fab. [toLowerCase] is any mapping. *)
Theorem shortcut_event_key_case
        (toLowerCase : string -> string)
        (ks : list string) (e : KeyboardEvent.t) (key' : string) (r : option nat)
        (bp : Button.Props) (fp : Fab.Props) :
  AnyCase.sameLowered toLowerCase (KeyboardEvent.key e) key' ->
  AnyCase.Button_handleGlobalKeyDown toLowerCase bp r ks (withKey key' e)
  = AnyCase.Button_handleGlobalKeyDown toLowerCase bp r ks e
  /\ AnyCase.Fab_handleGlobalKeyDown toLowerCase fp r ks (withKey key' e)
     = AnyCase.Fab_handleGlobalKeyDown toLowerCase fp r ks e.
Proof.
  intros Hsame.
  assert (Hm : AnyCase.eventMatches toLowerCase ks (withKey key' e)
               = AnyCase.eventMatches toLowerCase ks e).
  { unfold AnyCase.eventMatches, withKey. simpl.
    unfold AnyCase.sameLowered in Hsame. now rewrite Hsame. }
  unfold AnyCase.Button_handleGlobalKeyDown, AnyCase.Fab_handleGlobalKeyDown.
  rewrite Hm. split; reflexivity.
Qed.

Lemma shortcut_event_key_case_witness :
  AnyCase.Button_handleGlobalKeyDown Latin1.toLowerCase
    (Button.mkProps false false false (Some "shift+é") None 600 None)
    (Some 7%nat) (AnyCase.keys Latin1.toLowerCase "shift+é")
    (keyEvent "É" false false true false)
  = AnyCase.Button_handleGlobalKeyDown Latin1.toLowerCase
      (Button.mkProps false false false (Some "shift+é") None 600 None)
      (Some 7%nat) (AnyCase.keys Latin1.toLowerCase "shift+é")
      (keyEvent "é" false false true false)
  /\ AnyCase.Button_handleGlobalKeyDown Latin1.toLowerCase
       (Button.mkProps false false false (Some "shift+é") None 600 None)
       (Some 7%nat) (AnyCase.keys Latin1.toLowerCase "shift+é")
       (keyEvent "É" false false true false)
     = [PreventDefault; Click 7%nat].
Proof.
  split; [|reflexivity].
  exact (proj1 (shortcut_event_key_case Latin1.toLowerCase
                  (AnyCase.keys Latin1.toLowerCase "shift+é")
                  (keyEvent "é" false false true false) "É" (Some 7%nat)
                  (Button.mkProps false false false (Some "shift+é") None 600 None)
                  (Fab.mkProps false false None None) eq_refl)).
Defined.

(** X15. Buttons that are registered with the same combination, all
    enabled: one matching key event outside text entry makes every one of
    them prevent the default and click its own element, in the order of
    registration; nothing is shared between registrations and none
    shadows another. *)
Theorem colliding_shortcuts_all_fire
        (controls : list (Button.Props * nat)) (c : ascii) (rest : string)
        (e : KeyboardEvent.t) :
  let text := String c rest in
  Shortcut.inTextEntry e = false ->
  exactMatch text e ->
  Forall (fun pb => Button.keyboardShortcut (fst pb) = Some text
                    /\ Button.disabled (fst pb) = false
                    /\ Button.isLoading (fst pb) = false) controls ->
  dispatchKeyDown (buttonListeners controls) e
  = flat_map (fun pb => [PreventDefault; Click (snd pb)]) controls
  /\ List.length (filter isClick (dispatchKeyDown (buttonListeners controls) e))
     = List.length controls.
Proof.
  intros text Hf Hm Hall. subst text.
  assert (Heq : dispatchKeyDown (buttonListeners controls) e
                = flat_map (fun pb => [PreventDefault; Click (snd pb)]) controls).
  { induction Hall as [|[props b] l (Hk & Hd & Hl) _ IH]; [reflexivity|].
    simpl in Hk, Hd, Hl. simpl buttonListeners.
    rewrite (Button_shortcutListener_registered props (Some b) c rest Hk).
    unfold dispatchKeyDown in *. simpl flat_map.
    rewrite IH, (Button_handler_cases props (Some b) (String c rest) e Hf Hd Hl).
    apply eventMatches_exactMatch in Hm. rewrite Hm.
    reflexivity. }
  split; [exact Heq|].
  rewrite Heq. clear. induction controls as [|pb l IH]; [reflexivity|].
  simpl. now rewrite IH.
Qed.

Lemma colliding_shortcuts_all_fire_witness :
  dispatchKeyDown
    (buttonListeners
       [(Button.mkProps false false false (Some "ctrl+k") None 600 None, 1%nat);
        (Button.mkProps false false false (Some "ctrl+k") None 600 None, 2%nat)])
    (keyEvent "k" true false false false)
  = [PreventDefault; Click 1%nat; PreventDefault; Click 2%nat].
Proof.
  apply (colliding_shortcuts_all_fire
           [(Button.mkProps false false false (Some "ctrl+k") None 600 None, 1%nat);
            (Button.mkProps false false false (Some "ctrl+k") None 600 None, 2%nat)]
           "c" "trl+k" (keyEvent "k" true false false false) eq_refl).
  - repeat split.
  - repeat constructor.
Defined.

(* ================================================================= *)
(** ** Listeners over the commits of a control *)

Section TrackingFacts.

Import ButtonLifecycle.

Lemma strictEqOpt_eq (a b : option string) : strictEqOpt a b = true -> a = b.
Proof.
  destruct a as [x|], b as [y|]; simpl; try discriminate; [|reflexivity].
  intros H. apply String.eqb_eq in H. now subst.
Qed.

Lemma sameDeps_eq (a b : Deps) : sameDeps a b = true -> a = b.
Proof.
  destruct a as [[k1 d1] l1], b as [[k2 d2] l2]. simpl.
  rewrite !andb_true_iff, !Bool.eqb_true_iff. intros [[H -> ] ->].
  now rewrite (strictEqOpt_eq _ _ H).
Qed.

Lemma shortcutEffect_registers (props : Button.Props) (r : Registry) :
  fst (shortcutEffect props r) = None
  <-> truthyOpt (Button.keyboardShortcut props) = false.
Proof.
  unfold shortcutEffect.
  destruct (truthyOpt (Button.keyboardShortcut props)); simpl; split;
    congruence.
Qed.

Lemma mount_tracking (w : Window) (props : Button.Props) (r : Registry)
      (ir : Instance * Registry) :
  mount w props r = Normal ir -> tracking props (fst ir).
Proof.
  unfold mount. simpl bind.
  match goal with
  | |- context [shortcutEffect props ?R] =>
      pose proof (shortcutEffect_registers props R) as H;
      destruct (shortcutEffect props R) as [registered r2]
  end.
  intros [= <-]. split; [reflexivity | exact H].
Qed.

Lemma rerender_tracking (props props' : Button.Props) (ir : Instance * Registry) :
  tracking props (fst ir) -> tracking props' (fst (rerender props' ir)).
Proof.
  destruct ir as [i r]. intros [Hd Hk]. unfold rerender.
  destruct (sameDeps (deps i) (depsOf props')) eqn:Es.
  - apply sameDeps_eq in Es. simpl fst in *. split; [exact Es|].
    rewrite Hd in Es. unfold depsOf in Es. injection Es as Hs _ _.
    now rewrite <- Hs.
  - match goal with
    | |- context [shortcutEffect props' ?R] =>
        pose proof (shortcutEffect_registers props' R) as H;
        destruct (shortcutEffect props' R) as [registered r2]
    end.
    split; [reflexivity | exact H].
Qed.

End TrackingFacts.

Section CommitFacts.

Import ButtonLifecycle.

Lemma last_cons_default {A} (a d : A) (l : list A) : last (a :: l) d = last l a.
Proof.
  revert a d. induction l as [|b l IH]; intros a d; [reflexivity|].
  change (last (a :: b :: l) d) with (last (b :: l) d).
  now rewrite !IH.
Qed.

Lemma updates_tracking (updates : list Button.Props) :
  forall props ir,
    tracking props (fst ir) ->
    tracking (last updates props)
             (fst (fold_left (fun acc p => rerender p acc) updates ir)).
Proof.
  induction updates as [|p ps IH]; intros props ir H; [exact H|].
  rewrite last_cons_default. simpl fold_left.
  apply IH. now apply (rerender_tracking props).
Qed.

Lemma mounted_count (r0 : Registry) (i : Instance) (r : Registry) :
  mounted r0 (i, r) ->
  listenerCount r
  = (listenerCount r0 + 1
     + match handleGlobalKeyDown i with Some _ => 1 | None => 0 end)%nat.
Proof.
  intros (_ & Hq & _ & Hk). unfold listenerCount. rewrite Hq.
  rewrite map_app, list_sum_app. simpl.
  destruct (handleGlobalKeyDown i) as [fn|].
  - destruct Hk as [-> _]. rewrite length_app. simpl. lia.
  - rewrite Hk. lia.
Qed.

End CommitFacts.

(** X16. A mounted Button over any number of commits with new properties:
    after the last one the key listeners of the document are those of
    before the mount, in their order, followed by the Button's current
    listener when it has one, and by nothing otherwise; it has one exactly
    when the properties of that commit carry a non-empty
    [keyboardShortcut], and that listener is none of those of before the
    mount. The media query list made at the mount holds the Button's
    change listener and nothing else. So a commit that toggles [disabled]
    or [isLoading] or changes the combination leaves no listener of an
    earlier commit behind, and takes no listener of anyone else off. *)
Theorem listeners_do_not_pile_up
        (w : Window) (props : Button.Props) (updates : list Button.Props)
        (r : Registry) :
  ButtonLifecycle.wellFormed r ->
  exists ir,
    ButtonLifecycle.mount w props r = Normal ir
    /\ let '(i, r') :=
         fold_left (fun acc p => ButtonLifecycle.rerender p acc) updates ir in
       keydown r'
       = keydown r ++ match ButtonLifecycle.handleGlobalKeyDown i with
                      | Some fn => [fn]
                      | None => []
                      end
       /\ (ButtonLifecycle.handleGlobalKeyDown i = None
           <-> truthyOpt (Button.keyboardShortcut (last updates props)) = false)
       /\ (forall fn, ButtonLifecycle.handleGlobalKeyDown i = Some fn ->
                      ~ In fn (keydown r))
       /\ mediaQueryLists r'
          = mediaQueryLists r ++ [[ButtonLifecycle.handleChange i]]
       /\ listenerCount r'
          = (listenerCount r + 1
             + if truthyOpt (Button.keyboardShortcut (last updates props))
               then 1 else 0)%nat.
Proof.
  intros Hwf.
  destruct (mount_mounted r Hwf w props) as (ir & Hmount & Hm).
  exists ir. split; [exact Hmount|].
  pose proof (updates_mounted r Hwf updates ir Hm) as Hm'.
  pose proof (updates_tracking updates props ir (mount_tracking w props r ir Hmount))
    as [_ Ht].
  destruct (fold_left (fun acc p => ButtonLifecycle.rerender p acc) updates ir)
    as [i r'].
  simpl fst in Ht.
  pose proof (mounted_count r i r' Hm') as Hc.
  destruct Hm' as (_ & Hq & _ & Hk).
  split; [|split; [exact Ht|split; [|split; [exact Hq|]]]].
  - destruct (ButtonLifecycle.handleGlobalKeyDown i) as [fn|].
    + exact (proj1 Hk).
    + now rewrite app_nil_r.
  - intros fn Hfn Hin. rewrite Hfn in Hk. destruct Hk as [_ [Hlo _]].
    unfold ButtonLifecycle.wellFormed in Hwf. rewrite Forall_forall in Hwf.
    specialize (Hwf fn Hin). lia.
  - rewrite Hc.
    destruct (ButtonLifecycle.handleGlobalKeyDown i) as [fn|];
      destruct (truthyOpt (Button.keyboardShortcut (last updates props)));
      try reflexivity.
    + destruct Ht as [_ Ht]. specialize (Ht eq_refl). discriminate.
    + destruct Ht as [Ht _]. specialize (Ht eq_refl). discriminate.
Qed.

Lemma listeners_do_not_pile_up_witness :
  exists ir,
    ButtonLifecycle.mount (sampleWindow false)
      (Button.mkProps false false false (Some "ctrl+k") None 600 None)
      (mkRegistry [7%nat] [] 8%nat) = Normal ir
    /\ keydown
         (snd (fold_left (fun acc p => ButtonLifecycle.rerender p acc)
                 [Button.mkProps true false false (Some "ctrl+k") None 600 None;
                  Button.mkProps false true false (Some "ctrl+s") None 600 None;
                  Button.mkProps false false false (Some "ctrl+s") None 600 None]
                 ir))
       = [7; 12]%nat.
Proof.
  destruct (listeners_do_not_pile_up (sampleWindow false)
              (Button.mkProps false false false (Some "ctrl+k") None 600 None)
              [Button.mkProps true false false (Some "ctrl+k") None 600 None;
               Button.mkProps false true false (Some "ctrl+s") None 600 None;
               Button.mkProps false false false (Some "ctrl+s") None 600 None]
              (mkRegistry [7%nat] [] 8%nat))
    as (ir & Hmount & H).
  { repeat constructor. }
  exists ir. split; [exact Hmount|].
  injection Hmount as <-. exact (proj1 H).
Defined.

(* ================================================================= *)
(** ** The Fab registers and releases like the Button *)

Section FabLifecycleFacts.

Lemma Fab_sameDeps (i : FabLifecycle.Instance) (fp : Fab.Props) :
  ButtonLifecycle.sameDeps
    (ButtonLifecycle.deps (FabLifecycle.asButtonInstance i))
    (ButtonLifecycle.depsOf (FabLifecycle.asButton fp))
  = FabLifecycle.sameDeps (FabLifecycle.deps i) (FabLifecycle.depsOf fp).
Proof.
  destruct i as [hc mq fn reg [k d]]. simpl. now rewrite andb_true_r.
Qed.

Lemma Fab_mount_as_Button (w : Window) (fp : Fab.Props) (r : Registry) :
  exists i r',
    FabLifecycle.mount w fp r = Normal (i, r')
    /\ ButtonLifecycle.mount w (FabLifecycle.asButton fp) r
       = Normal (FabLifecycle.asButtonInstance i, r').
Proof.
  unfold FabLifecycle.mount, ButtonLifecycle.mount,
    FabLifecycle.shortcutEffect, ButtonLifecycle.shortcutEffect. simpl bind.
  simpl Button.keyboardShortcut.
  destruct (truthyOpt (Fab.keyboardShortcut fp)); simpl;
    do 2 eexists; split; reflexivity.
Qed.

Lemma Fab_rerender_as_Button (fp : Fab.Props) (i : FabLifecycle.Instance)
      (r : Registry) :
  ButtonLifecycle.rerender (FabLifecycle.asButton fp)
    (FabLifecycle.asButtonInstance i, r)
  = (FabLifecycle.asButtonInstance (fst (FabLifecycle.rerender fp (i, r))),
     snd (FabLifecycle.rerender fp (i, r))).
Proof.
  unfold ButtonLifecycle.rerender, FabLifecycle.rerender.
  rewrite Fab_sameDeps.
  destruct (FabLifecycle.sameDeps (FabLifecycle.deps i) (FabLifecycle.depsOf fp));
    [reflexivity|].
  unfold FabLifecycle.shortcutEffect, ButtonLifecycle.shortcutEffect.
  simpl Button.keyboardShortcut.
  destruct (truthyOpt (Fab.keyboardShortcut fp)); reflexivity.
Qed.

Lemma Fab_updates_as_Button (updates : list Fab.Props) :
  forall i r,
    fold_left (fun acc p => ButtonLifecycle.rerender p acc)
              (map FabLifecycle.asButton updates)
              (FabLifecycle.asButtonInstance i, r)
    = (FabLifecycle.asButtonInstance
         (fst (fold_left (fun acc p => FabLifecycle.rerender p acc) updates (i, r))),
       snd (fold_left (fun acc p => FabLifecycle.rerender p acc) updates (i, r))).
Proof.
  induction updates as [|p ps IH]; intros i r; [reflexivity|].
  cbn [fold_left map]. rewrite Fab_rerender_as_Button.
  destruct (FabLifecycle.rerender p (i, r)) as [i1 r1]. apply IH.
Qed.

Lemma Fab_unmount_as_Button (i : FabLifecycle.Instance) (r : Registry) :
  FabLifecycle.unmount (i, r)
  = ButtonLifecycle.unmount (FabLifecycle.asButtonInstance i, r).
Proof. reflexivity. Qed.

End FabLifecycleFacts.

(** X17. A Fab that is mounted, committed again any number of times with new
    properties, and unmounted: the document has the key listeners it had
    before the mount, the media query list of the Fab has no listener,
    and as many listeners are attached as before the mount. *)
Theorem fab_unmount_releases_listeners
        (w : Window) (props : Fab.Props) (updates : list Fab.Props) (r : Registry) :
  ButtonLifecycle.wellFormed r ->
  exists r',
    FabLifecycle.life w props updates r = Normal r'
    /\ keydown r' = keydown r
    /\ mediaQueryLists r' = mediaQueryLists r ++ [[]]
    /\ listenerCount r' = listenerCount r.
Proof.
  intros Hwf. unfold FabLifecycle.life.
  destruct (Fab_mount_as_Button w props r) as (i & r1 & Hfab & Hbutton).
  rewrite Hfab. simpl bind.
  destruct (mount_mounted r Hwf w (FabLifecycle.asButton props))
    as (ir & Hmount & Hm).
  rewrite Hbutton in Hmount. injection Hmount as <-.
  pose proof (updates_mounted r Hwf (map FabLifecycle.asButton updates) _ Hm) as Hm'.
  rewrite Fab_updates_as_Button in Hm'.
  destruct (fold_left (fun acc p => FabLifecycle.rerender p acc) updates (i, r1))
    as [i' r'] eqn:Ef.
  simpl fst in Hm'. simpl snd in Hm'.
  destruct (unmount_mounted r Hwf _ Hm') as (Hk & Hq).
  rewrite <- Fab_unmount_as_Button in Hk, Hq.
  eexists. split; [reflexivity|].
  split; [exact Hk|]. split; [exact Hq|].
  unfold listenerCount. rewrite Hk, Hq, map_app, list_sum_app. simpl. lia.
Qed.

Lemma fab_unmount_releases_listeners_witness :
  exists r',
    FabLifecycle.life (sampleWindow false)
      (Fab.mkProps false false (Some "ctrl+n") None)
      [Fab.mkProps true false (Some "ctrl+n") None]
      (mkRegistry [] [] 0)
    = Normal r'
    /\ listenerCount r' = 0%nat.
Proof.
  destruct (fab_unmount_releases_listeners (sampleWindow false)
              (Fab.mkProps false false (Some "ctrl+n") None)
              [Fab.mkProps true false (Some "ctrl+n") None]
              (mkRegistry [] [] 0) (Forall_nil _))
    as (r' & H1 & _ & _ & H4).
  exists r'. split; [exact H1 | exact H4].
Defined.

(* ================================================================= *)
(** ** The accessible name of the Fab *)

(** X18. The [aria-label] that the Fab renders is never empty: it is the
    [aria-label] of the consumer when that is a non-empty text, else the
    [label] when that is a non-empty text, else ['Action button']; an
    empty text counts as absent. *)
Theorem fab_accessible_name_never_empty (ariaLabel label : option string) :
  JsString.truthy (FabKeys.accessibleName ariaLabel label) = true
  /\ (truthyOpt ariaLabel = true ->
      Some (FabKeys.accessibleName ariaLabel label) = ariaLabel)
  /\ (truthyOpt ariaLabel = false -> truthyOpt label = true ->
      Some (FabKeys.accessibleName ariaLabel label) = label)
  /\ (truthyOpt ariaLabel = false -> truthyOpt label = false ->
      FabKeys.accessibleName ariaLabel label = "Action button").
Proof.
  destruct ariaLabel as [[|c a]|], label as [[|c' l]|]; simpl;
    repeat split; intros; try reflexivity; discriminate.
Qed.

Lemma fab_accessible_name_never_empty_witness :
  FabKeys.accessibleName (Some "") (Some "Add") = "Add"
  /\ FabKeys.accessibleName (Some "") None = "Action button".
Proof.
  split.
  - destruct (fab_accessible_name_never_empty (Some "") (Some "Add"))
      as (_ & _ & H & _).
    specialize (H eq_refl eq_refl).
    exact (f_equal (fun o : option string =>
                      match o with Some s => s | None => EmptyString end) H).
  - destruct (fab_accessible_name_never_empty (Some "") None) as (_ & _ & _ & H).
    exact (H eq_refl eq_refl).
Defined.

(* ================================================================= *)
(** ** The class list of the Button *)

Section ClassFacts.

Lemma truthyStrings_In (s : string) (classes : list ClassValue) :
  In (CString s) classes -> JsString.truthy s = true -> In s (truthyStrings classes).
Proof.
  induction classes as [|v r IH]; [contradiction|].
  intros [-> | Hin] Ht.
  - destruct s; [discriminate | now left].
  - destruct v as [[|c x]| |]; simpl; auto.
Qed.

(** A class name of an argument is a class name of the result. *)
Lemma cn_token_of_argument (tok s : string) (classes : list ClassValue) :
  In (CString s) classes ->
  In tok (classTokens s) ->
  In tok (classTokens (cn classes)).
Proof.
  intros Hin Htok. rewrite cn_truthyStrings, classTokens_join. apply in_flat_map.
  exists s. split; [|exact Htok].
  apply truthyStrings_In; [exact Hin|].
  destruct s; [contradiction Htok | reflexivity].
Qed.

Lemma classTokens_getRoundedStyle (rounded : string) :
  classTokens (ButtonClass.getRoundedStyle rounded)
  = [ButtonClass.getRoundedStyle rounded].
Proof.
  unfold ButtonClass.getRoundedStyle.
  repeat match goal with
         | |- context [if ?c then _ else _] => destruct c
         end; reflexivity.
Qed.

End ClassFacts.

Ltac in_list := repeat first [left; reflexivity | right].

(** X19. The [className] of the rendered Button: its class names are the
    Button's own followed by those of the consumer's [className], all of
    them and in their order; among the own ones are the rounding class
    of [getRoundedStyle], [pointer-events-none] and [opacity-[0.38]]
    whenever the Button is disabled or loading, [transition-none]
    whenever animation is off, and [w-full] whenever [fullWidth] is
    set. *)
Theorem button_class_tokens (p : ButtonClass.Props) :
  let own := classTokens (cn (ButtonClass.ownClasses p)) in
  classTokens (ButtonClass.renderedClassName p)
  = own ++ match ButtonClass.className p with
           | Some s => classTokens s
           | None => []
           end
  /\ In (ButtonClass.getRoundedStyle (ButtonClass.rounded p)) own
  /\ (ButtonClass.disabled p || ButtonClass.isLoading p = true ->
      In "pointer-events-none" own /\ In "opacity-[0.38]" own)
  /\ (ButtonClass.disableAnimation p = true -> In "transition-none" own)
  /\ (ButtonClass.fullWidth p = true -> In "w-full" own).
Proof.
  intros own. subst own. split; [|split; [|split; [|split]]].
  - unfold ButtonClass.renderedClassName.
    rewrite !cn_truthyStrings, !classTokens_join, truthyStrings_app, flat_map_app.
    f_equal.
    destruct (ButtonClass.className p) as [[|c s]|]; simpl;
      rewrite ?app_nil_r; reflexivity.
  - apply (cn_token_of_argument _ (ButtonClass.getRoundedStyle (ButtonClass.rounded p))).
    + unfold ButtonClass.ownClasses. in_list.
    + rewrite classTokens_getRoundedStyle. now left.
  - intros H.
    assert (Hin : In (CString "opacity-[0.38] pointer-events-none")
                     (ButtonClass.ownClasses p)).
    { unfold ButtonClass.ownClasses. rewrite H. in_list. }
    split; apply (cn_token_of_argument _ _ _ Hin); vm_compute; tauto.
  - intros H.
    apply (cn_token_of_argument _ "transition-none").
    + unfold ButtonClass.ownClasses. rewrite H. in_list.
    + vm_compute; tauto.
  - intros H.
    apply (cn_token_of_argument _ "w-full").
    + unfold ButtonClass.ownClasses. rewrite H. in_list.
    + vm_compute; tauto.
Qed.

Lemma button_class_tokens_witness :
  let p := ButtonClass.mkProps "filled" "md" "full" false false None None false
             true true false (Some "mt-4 shadow") in
  In "pointer-events-none" (classTokens (cn (ButtonClass.ownClasses p)))
  /\ In "transition-none" (classTokens (cn (ButtonClass.ownClasses p)))
  /\ classTokens (ButtonClass.renderedClassName p)
     = classTokens (cn (ButtonClass.ownClasses p)) ++ ["mt-4"; "shadow"].
Proof.
  intros p.
  destruct (button_class_tokens p) as (H1 & _ & H3 & H4 & _).
  split; [exact (proj1 (H3 eq_refl))|].
  split; [exact (H4 eq_refl) | exact H1].
Defined.

(* ================================================================= *)
(** ** Custom state classes *)

Section CustomStateFacts.

Import JsString.

Lemma free_app (sep : ascii) (a b : string) :
  free sep (a ++ b) = free sep a && free sep b.
Proof.
  induction a as [|c a IH]; simpl; [reflexivity|].
  now rewrite IH, andb_assoc.
Qed.

Lemma classTokens_single (s : string) :
  truthy s = true -> free " " s = true -> classTokens s = [s].
Proof.
  intros Ht Hf. unfold classTokens. rewrite (split_free " " s Hf). simpl.
  now rewrite Ht.
Qed.

Lemma template_single (prefix color : string) :
  free " " prefix = true -> truthy prefix = true ->
  free " " color = true ->
  classTokens (prefix ++ color ++ "]") = [(prefix ++ color ++ "]")%string].
Proof.
  intros Hp Ht Hc. apply classTokens_single.
  - destruct prefix; [discriminate | reflexivity].
  - rewrite !free_app, Hp, Hc. reflexivity.
Qed.

End CustomStateFacts.

(** X20. [getCustomStateClasses]: with neither colour it returns the empty
    text, which [cn] drops; a colour without a space gives one class
    name, [hover:bg-[colour]] or [active:bg-[colour]], the one for hover
    first; an empty colour counts as absent. *)
Theorem custom_state_class_names (hover active : option string) :
  (truthyOpt hover = false -> truthyOpt active = false ->
   ButtonClass.getCustomStateClasses hover active = EmptyString)
  /\ (forall h, hover = Some h -> JsString.truthy h = true ->
                JsString.free " " h = true ->
                truthyOpt active = false ->
                classTokens (ButtonClass.getCustomStateClasses hover active)
                = [("hover:bg-[" ++ h ++ "]")%string])
  /\ (forall a, active = Some a -> JsString.truthy a = true ->
                JsString.free " " a = true ->
                truthyOpt hover = false ->
                classTokens (ButtonClass.getCustomStateClasses hover active)
                = [("active:bg-[" ++ a ++ "]")%string])
  /\ (forall h a, hover = Some h -> active = Some a ->
                  JsString.truthy h = true -> JsString.truthy a = true ->
                  JsString.free " " h = true -> JsString.free " " a = true ->
                  classTokens (ButtonClass.getCustomStateClasses hover active)
                  = [("hover:bg-[" ++ h ++ "]")%string;
                     ("active:bg-[" ++ a ++ "]")%string]).
Proof.
  unfold ButtonClass.getCustomStateClasses. repeat split.
  - intros Hh Ha. now rewrite Hh, Ha.
  - intros h -> Ht Hf Ha. cbn [truthyOpt]. rewrite Ht, Ha. cbn [negb andb app].
    destruct active as [a|]; [cbn [truthyOpt] in Ha; rewrite Ha|];
      cbn [JsString.join]; now apply template_single.
  - intros a -> Ht Hf Hh. cbn [truthyOpt]. rewrite Ht, Hh. cbn [negb andb app].
    destruct hover as [h|]; [cbn [truthyOpt] in Hh; rewrite Hh|];
      cbn [JsString.join app]; now apply template_single.
  - intros h a -> -> Hth Hta Hfh Hfa. cbn [truthyOpt]. rewrite Hth, Hta.
    cbn [negb andb app JsString.join].
    change (("hover:bg-[" ++ h ++ "]") ++ " " ++ "active:bg-[" ++ a ++ "]")%string
      with (("hover:bg-[" ++ h ++ "]") ++ String " " ("active:bg-[" ++ a ++ "]"))%string.
    rewrite classTokens_app, !template_single by (assumption || reflexivity).
    reflexivity.
Qed.

Lemma custom_state_class_names_witness :
  ButtonClass.getCustomStateClasses None (Some "") = EmptyString
  /\ classTokens (ButtonClass.getCustomStateClasses (Some "#eee") (Some "#ddd"))
     = ["hover:bg-[#eee]"; "active:bg-[#ddd]"].
Proof.
  split.
  - destruct (custom_state_class_names None (Some "")) as (H & _).
    exact (H eq_refl eq_refl).
  - destruct (custom_state_class_names (Some "#eee") (Some "#ddd")) as (_ & _ & _ & H).
    exact (H "#eee" "#ddd" eq_refl eq_refl eq_refl eq_refl eq_refl eq_refl).
Defined.

(* ================================================================= *)
(** ** When a click makes a ripple *)

(** X21. A click on the rendered Button creates a ripple element, and sets
    its timer, exactly when the Button is enabled, not loading, animation
    is on, the consumer passed no [onClick], and either a ripple colour
    or a duration other than 600 is configured or reduced motion is off;
    in every other case no element is created and no timer is set. For
    the Fab: exactly when it is enabled, animation is on, the consumer
    passed no [onClick] and reduced motion is off. *)
Theorem click_creates_ripple_exactly_when
        (w : Window) (bp : Button.Props) (fp : Fab.Props)
        (e : MouseEvent) (d : Page) :
  let reduced := matchMedia w "(prefers-reduced-motion: reduce)" in
  let none (o : option Callback) := match o with None => true | Some _ => false end in
  let onButton :=
    negb (Button.disabled bp) && negb (Button.isLoading bp)
    && negb (Button.disableAnimation bp) && none (Button.onClick bp)
    && (truthyOpt (Button.rippleColor bp)
        || negb (Qeq_bool (Button.rippleDuration bp) 600)
        || negb reduced) in
  let onFab :=
    negb (Fab.disabled fp) && negb (Fab.disableAnimation fp)
    && none (Fab.onClick fp) && negb reduced in
  (exists d', Button.click w bp e d = Normal d'
              /\ nextId d' = (if onButton then S (nextId d) else nextId d)
              /\ List.length (timers d')
                 = (List.length (timers d) + if onButton then 1 else 0)%nat)
  /\ (exists d', Fab.click w fp e d = Normal d'
                 /\ nextId d' = (if onFab then S (nextId d) else nextId d)
                 /\ List.length (timers d')
                    = (List.length (timers d) + if onFab then 1 else 0)%nat).
Proof.
  intros reduced none onButton onFab. subst onButton onFab none.
  assert (Hutils : exists d1,
             Utils.createRippleEffect w e d = Normal d1
             /\ nextId d1 = (if negb reduced then S (nextId d) else nextId d)
             /\ List.length (timers d1)
                = (List.length (timers d) + if negb reduced then 1 else 0)%nat
             /\ userClicks d1 = userClicks d).
  { destruct reduced eqn:Er; unfold reduced in Er.
    - rewrite (Utils_createRippleEffect_reduced w e d Er).
      exists d. cbn [negb]. repeat split. lia.
    - destruct (Utils_createRippleEffect_emitted w e d Er)
        as (d1 & H1 & r & _ & _ & _ & Hn & Ht).
      destruct (Utils_createRippleEffect_total w e d) as (d1' & H1' & Hu & _).
      rewrite H1 in H1'. injection H1' as <-.
      exists d1. cbn [negb]. rewrite Ht, length_app. simpl.
      repeat split; try assumption. }
  destruct Hutils as (d1 & Hu1 & Hu2 & Hu3 & Hu4).
  split.
  - unfold Button.click, Button.renderedOnClick, Button.onClickAttr.
    destruct (Button.disabled bp) eqn:Ed, (Button.isLoading bp) eqn:El;
      cbn [orb negb andb];
      try (exists d; repeat split; lia).
    destruct (Button.onClick bp) eqn:Eo.
    { rewrite !andb_false_r. cbn [andb].
      eexists. split; [reflexivity|]. simpl. split; [reflexivity | lia]. }
    destruct (Button.disableAnimation bp) eqn:Ea; cbn [negb andb bind].
    { exists d. repeat split. lia. }
    destruct (truthyOpt (Button.rippleColor bp)
              || negb (Qeq_bool (Button.rippleDuration bp) 600)) eqn:Ec;
      cbn [orb andb].
    + destruct (Button_handleRippleEffect_emitted bp e d)
        as (d2 & H2 & r & _ & _ & _ & Hn & Ht).
      { now rewrite Ea, Ed, El. }
      rewrite H2. cbn [bind]. exists d2. split; [reflexivity|].
      rewrite Hn, Ht, length_app. simpl. split; reflexivity.
    + rewrite Hu1. cbn [bind]. exists d1. split; [reflexivity|].
      split; assumption.
  - unfold Fab.click, Fab.renderedOnClick, Fab.onClickAttr.
    destruct (Fab.disabled fp) eqn:Ed; cbn [negb andb];
      try (exists d; repeat split; lia).
    destruct (Fab.onClick fp) eqn:Eo.
    { rewrite !andb_false_r. cbn [andb].
      eexists. split; [reflexivity|]. simpl. split; [reflexivity | lia]. }
    destruct (Fab.disableAnimation fp) eqn:Ea; cbn [negb andb bind].
    { exists d. repeat split. lia. }
    rewrite Hu1. cbn [bind]. exists d1. split; [reflexivity|].
    split; assumption.
Qed.
